(** * go-apc: the protocol engine of the Avaya Proactive Contact client

    A shallow embedding of [NewClient], [Client.Start], [Client.Stop],
    [Client.Notifications] and [Client.readEvents] of package apc, as an
    interleaving transition system over the fields of [Client], and the
    properties of the engine proved over it.

    Every goroutine is a program counter.  Its points are the blocking
    operations of the source (channel sends and receives, [Read]) and, in the
    shutdown branch of [Start], every statement on a shared field; the code
    between two points runs as one move.  A schedule is the list of the moves
    taken, so an execution is [run schedule (init ...)]. *)

From Stdlib Require Import ZArith Strings.String Strings.Byte.
From stdpp Require Import base option list gmap strings.

Local Open Scope Z_scope.

(* ===================================================================== *)
(** ** Data model *)
(* ===================================================================== *)

(** Go [error] values.  [ErrConnectionClosed] and [ErrHelloNotReceived] are
    the two sentinels of client.go, [EOF] is [io.EOF]; every other error
    value (a network failure, an expired deadline, a decode error) is
    [ErrOther] with its text. *)
Inductive error :=
| EOF
| ErrConnectionClosed
| ErrHelloNotReceived
| ErrOther (msg : string).

(** The error a [Read] returns once the rolling deadline has expired. *)
Definition ErrTimeout : error := ErrOther "i/o timeout".

(** [const ( ConnOK uint32 = iota; ConnClosed )] *)
Definition ConnOK : Z := 0.
Definition ConnClosed : Z := 1.

(** Modelled from the spec: the [Event] struct and its [EventType] are
    declared in another file of the package; the fields are the ones
    [readEvents] logs, the kinds are the two of the data model (Notification,
    Response). *)
Inductive EventType := EventTypeNotification | EventTypeResponse.

Record Event := mkEvent {
  Keyword : string;
  Type' : EventType;
  Client : string;
  ProcessID : Z;
  InvokeID : Z;
  Segments : Z;
  Incomplete : bool
}.

(** Modelled from the spec: the two frame terminators are declared in
    another file of the package; they are the ASCII control bytes end-of-text
    (final record) and end-of-transmission-block (continuation record). *)
Definition ETX : byte := x03.
Definition ETB : byte := x17.

Inductive LogLevel := LogLevelDebug | LogLevelInfo | LogLevelError | LogLevelNone.

Inductive LogValue :=
| LVError (e : error)
| LVString (s : string)
| LVInt (z : Z)
| LVBool (b : bool)
| LVType (t : EventType).

Record LogEntry := mkLogEntry {
  Level : LogLevel;
  Message : string;
  Fields : list (string * LogValue)
}.

Definition newLogEntry (l : LogLevel) (m : string) (f : list (string * LogValue)) : LogEntry :=
  mkLogEntry l m f.

(** [Options]; the handler only decides where an entry is printed, the model
    records every call of [c.logger.log] instead. *)
Record Options := mkOptions {
  Timeout : option Z;
  OptLogLevel : LogLevel
}.

(** A Go channel: its buffer, oldest element first, and whether it was closed. *)
Record chan (A : Type) := mkChan { buf : list A; closed : bool }.
Arguments mkChan {A} _ _.
Arguments buf {A} _.
Arguments closed {A} _.

Definition make {A} : chan A := mkChan [] false.
Definition push {A} (x : A) (c : chan A) : chan A := mkChan (buf c ++ [x]) (closed c).
Definition pop {A} (c : chan A) : chan A := mkChan (tail (buf c)) (closed c).
Definition close {A} (c : chan A) : chan A := mkChan (buf c) true.

(** [make(chan Event, 128)] *)
Definition chan_cap : nat := 128.

(** The channels of a request.  They are made where the request is, in the
    command invocation; each has one receiver, the invocation that made the
    request, so a channel is named by the invoke id of that invocation. *)
Inductive req_chan := EventChanOf (k : Z) | DoneOf (k : Z).

(** [type request struct { eventChan chan Event; done chan struct{} }] *)
Record request := mkRequest { eventChan : req_chan; done : req_chan }.

Definition owner (c : req_chan) : Z :=
  match c with EventChanOf k => k | DoneOf k => k end.

(** Modelled from the spec: the request a command makes is in another file
    of the package; its two channels are the single-use completion signal of
    the PendingRequest, unbuffered. *)
Definition new_request (k : Z) : request := mkRequest (EventChanOf k) (DoneOf k).

Global Instance error_eq_dec : EqDecision error.
Proof. solve_decision. Defined.
Global Instance EventType_eq_dec : EqDecision EventType.
Proof. solve_decision. Defined.
Global Instance Event_eq_dec : EqDecision Event.
Proof. solve_decision. Defined.
Global Instance req_chan_eq_dec : EqDecision req_chan.
Proof. solve_decision. Defined.
Global Instance request_eq_dec : EqDecision request.
Proof. solve_decision. Defined.

(* ===================================================================== *)
(** ** Goroutines *)
(* ===================================================================== *)

(** The reader goroutine of [NewClient]: [readEvents] and what follows it. *)
Inductive ReaderPC :=
| R_deadline              (* top of the loop, before [SetDeadline] *)
| R_read                  (* at [decoder.Read(buf)] *)
| R_send (ev : Event)     (* at [c.events <- event] *)
| R_failed (e : error)    (* [readEvents] returned [e] *)
| R_shutdown              (* at [c.shutdown <- struct{}{}] *)
| R_exit                  (* the goroutine is over *)
| R_panic.                (* run-time panic: the goroutine goes no further *)

(** The caller of [NewClient], after the dial. *)
Inductive NewClientPC :=
| N_recv                                            (* at [event := <-c.events] *)
| N_returned (client : bool) (err : option error).  (* [return c, nil] is [N_returned true None] *)

(** The goroutine running [Start]. *)
Inductive StartPC :=
| S_idle                                   (* [Start] not called yet *)
| S_select                                 (* at the [select] *)
| S_notify (ev : Event)                    (* at [c.notification <- event] *)
| S_lookup (ev : Event)                    (* at [c.mu.RLock()] *)
| S_deliver (r : request) (ev : Event)     (* at [r.eventChan <- event] *)
| S_store                                  (* at [c.state.Store(ConnClosed)] *)
| S_conn_close                             (* at [c.conn.Close()] *)
| S_close_notification                     (* at [close(c.notification)] *)
| S_close_events                           (* at [close(c.events)] *)
| S_drain (visited : list Z)               (* at the head of [for _, r := range c.requests] *)
| S_done (k : Z) (r : request) (visited : list Z)   (* at [r.done <- struct{}{}] *)
| S_returned (e : error)
| S_panic.

(** Modelled from the spec: command invocation is in another file of the
    package.  An invocation checks the Connection State and fails at once
    when it is Closed; otherwise it registers its PendingRequest under
    exclusive access and blocks on its completion signal; on completion it
    removes the request from the table.  The check and the registration are
    two moves: [c.state] is an atomic of its own, and the shutdown branch of
    [Start] takes no lock, so [c.mu] cannot hold the two together. *)
Inductive InvokerPC :=
| I_checked                          (* the state was Open; about to register *)
| I_wait                             (* registered, blocked on [eventChan] and [done] *)
| I_finished (res : Event + error).  (* returned *)

Global Instance ReaderPC_eq_dec : EqDecision ReaderPC.
Proof. solve_decision. Defined.
Global Instance NewClientPC_eq_dec : EqDecision NewClientPC.
Proof. solve_decision. Defined.
Global Instance StartPC_eq_dec : EqDecision StartPC.
Proof. solve_decision. Defined.
Global Instance InvokerPC_eq_dec : EqDecision InvokerPC.
Proof. solve_decision. Defined.

(** Which case of the [select] of [Start] fires. *)
Inductive select_case :=
| FromEvents      (* [case event := <-c.events] *)
| FromReader      (* [case <-c.shutdown], sent by the reader goroutine *)
| FromStop.       (* [case <-c.shutdown], sent by a [Stop] *)

(** What an execution does, in order. *)
Inductive Label :=
| LLog (e : LogEntry)
| LPush (ev : Event)             (* reader: [c.events <- event] *)
| LHandshake (ev : Event)        (* NewClient: [event := <-c.events] *)
| LRecv (ev : Event)             (* Start: [event := <-c.events] *)
| LNotify (ev : Event)           (* Start: [c.notification <- event] *)
| LLookup (id : Z) (found : bool)  (* Start: [r, ok := c.requests[event.InvokeID]] *)
| LDeliver (k : Z) (ev : Event)  (* Start: [r.eventChan <- event] *)
| LShutdown (from : select_case) (* Start: [<-c.shutdown] *)
| LStore (v : Z)                 (* Start: [c.state.Store(v)] *)
| LConnClose                     (* Start: [c.conn.Close()] *)
| LCloseNotification             (* Start: [close(c.notification)] *)
| LCloseEvents                   (* Start: [close(c.events)] *)
| LDone (k : Z)                  (* Start: [r.done <- struct{}{}] *)
| LReturn (e : error)            (* Start: [return e] *)
| LRegister (k : Z)              (* invocation: [c.requests[k] = r] *)
| LRefused (k : Z)               (* invocation: found the state Closed *)
| LConsume (ev : Event).         (* a subscriber: [<-c.Notifications()] *)

(** The [Client] struct, the stream behind [c.conn], and every goroutine. *)
Record State := mkState {
  opts : Options;
  state : Z;                              (* c.state *)
  conn_closed : bool;                     (* c.conn, after Close *)
  events : chan Event;                    (* c.events *)
  notification : chan Event;              (* c.notification *)
  requests : gmap Z request;              (* c.requests *)
  deadlines : list (option error);        (* results of the coming SetDeadline calls *)
  reads : list (list byte + error);       (* decoded bytes, or the error, the stream yields next *)
  reader : ReaderPC;
  newclient : NewClientPC;
  start : StartPC;
  stops : nat;                            (* Stop calls blocked at [c.shutdown <- struct{}{}] *)
  invokers : gmap Z InvokerPC;
  trace : list Label
}.

(** The state [NewClient] builds after a successful dial. *)
Definition init (o : Options) (ds : list (option error)) (rs : list (list byte + error)) : State :=
  mkState o ConnOK false make make ∅ ds rs R_deadline N_recv S_idle 0%nat ∅ [].

Definition set_state v s := mkState (opts s) v (conn_closed s) (events s) (notification s) (requests s) (deadlines s) (reads s) (reader s) (newclient s) (start s) (stops s) (invokers s) (trace s).
Definition set_conn_closed v s := mkState (opts s) (state s) v (events s) (notification s) (requests s) (deadlines s) (reads s) (reader s) (newclient s) (start s) (stops s) (invokers s) (trace s).
Definition set_events v s := mkState (opts s) (state s) (conn_closed s) v (notification s) (requests s) (deadlines s) (reads s) (reader s) (newclient s) (start s) (stops s) (invokers s) (trace s).
Definition set_notification v s := mkState (opts s) (state s) (conn_closed s) (events s) v (requests s) (deadlines s) (reads s) (reader s) (newclient s) (start s) (stops s) (invokers s) (trace s).
Definition set_requests v s := mkState (opts s) (state s) (conn_closed s) (events s) (notification s) v (deadlines s) (reads s) (reader s) (newclient s) (start s) (stops s) (invokers s) (trace s).
Definition set_deadlines v s := mkState (opts s) (state s) (conn_closed s) (events s) (notification s) (requests s) v (reads s) (reader s) (newclient s) (start s) (stops s) (invokers s) (trace s).
Definition set_reads v s := mkState (opts s) (state s) (conn_closed s) (events s) (notification s) (requests s) (deadlines s) v (reader s) (newclient s) (start s) (stops s) (invokers s) (trace s).
Definition set_reader v s := mkState (opts s) (state s) (conn_closed s) (events s) (notification s) (requests s) (deadlines s) (reads s) v (newclient s) (start s) (stops s) (invokers s) (trace s).
Definition set_newclient v s := mkState (opts s) (state s) (conn_closed s) (events s) (notification s) (requests s) (deadlines s) (reads s) (reader s) v (start s) (stops s) (invokers s) (trace s).
Definition set_start v s := mkState (opts s) (state s) (conn_closed s) (events s) (notification s) (requests s) (deadlines s) (reads s) (reader s) (newclient s) v (stops s) (invokers s) (trace s).
Definition set_stops v s := mkState (opts s) (state s) (conn_closed s) (events s) (notification s) (requests s) (deadlines s) (reads s) (reader s) (newclient s) (start s) v (invokers s) (trace s).
Definition set_invokers v s := mkState (opts s) (state s) (conn_closed s) (events s) (notification s) (requests s) (deadlines s) (reads s) (reader s) (newclient s) (start s) (stops s) v (trace s).

(** Append one label to the trace. *)
Definition emit (l : Label) s := mkState (opts s) (state s) (conn_closed s) (events s) (notification s) (requests s) (deadlines s) (reads s) (reader s) (newclient s) (start s) (stops s) (invokers s) (trace s ++ [l]).

(** [c.logger.log(entry)] *)
Definition log (e : LogEntry) (s : State) : State := emit (LLog e) s.

(* ===================================================================== *)
(** ** The engine *)
(* ===================================================================== *)

(** [buf := make([]byte, 4096)] *)
Definition buf_size : nat := 4096.

(** [b == ETX || b == ETB] *)
Definition is_terminator (b : byte) : bool := Byte.eqb b ETX || Byte.eqb b ETB.

(** The fields of the "Event has decoded." entry. *)
Definition decoded_fields (event : Event) : list (string * LogValue) :=
  [ ("keyword", LVString (Keyword event));
    ("type", LVType (Type' event));
    ("client", LVString (Client event));
    ("process_id", LVInt (ProcessID event));
    ("invoke_id", LVInt (InvokeID event));
    ("segments", LVInt (Segments event));
    ("incomplete", LVBool (Incomplete event)) ].

Definition log_received (rawEvent : string) : LogEntry :=
  newLogEntry LogLevelDebug "Event has received." [("raw", LVString rawEvent)].
Definition log_decode_failed (err : error) : LogEntry :=
  newLogEntry LogLevelError "Error while decoding an event!" [("error", LVError err)].
Definition log_decoded (event : Event) : LogEntry :=
  newLogEntry LogLevelInfo "Event has decoded." (decoded_fields event).
Definition log_deadline_failed (err : error) : LogEntry :=
  newLogEntry LogLevelError "Error while setting a deadline!" [("error", LVError err)].
Definition log_reader_failed (err : error) : LogEntry :=
  if decide (err = EOF)
  then newLogEntry LogLevelError "EOF received!" [("error", LVError err)]
  else newLogEntry LogLevelError "Error received!" [("error", LVError err)].
Definition log_no_hello : LogEntry :=
  newLogEntry LogLevelError "Server cannot accept new clients!" [].

(** [client != nil && err == nil]: [NewClient] has handed out the client. *)
Definition client_ready (s : State) : bool :=
  match newclient s with
  | N_returned true None => true
  | _ => false
  end.

(** The next entry [range c.requests] yields: one of the table as it is now
    that the loop has not yielded before.  Go leaves the order open, and
    leaves open whether an entry inserted during the loop is yielded; here it
    is, when it is there at the head of the loop. *)
Definition next_unvisited (m : gmap Z request) (visited : list Z) : option (Z * request) :=
  head (filter (λ kr, kr.1 ∉ visited) (map_to_list m)).

(** What is left of the stream after a [Read] into [buf] took its share of
    the [data] at the head. *)
Definition after_read (data : list byte) (rest : list (list byte + error)) :
    list (list byte + error) :=
  if decide (length data ≤ buf_size)%nat then rest else inl (drop buf_size data) :: rest.

(** The moves of a schedule. *)
Inductive move :=
| RunReader                 (* the reader goroutine goes on to its next blocking point *)
| RunNewClient              (* [NewClient] receives the first event and returns *)
| CallStart                 (* the owner of the client calls [Start] *)
| Select (c : select_case)  (* a case of the [select] of [Start] fires *)
| RunStart                  (* [Start] goes on from any other point *)
| CallStop                  (* somebody calls [Stop] *)
| CallInvoke (k : Z)        (* somebody issues a command; the pool hands out id [k] *)
| RunInvoker (k : Z)        (* invocation [k] registers *)
| RunConsumer.              (* a subscriber receives from [Notifications()] *)

Section Engine.

(** [decodeEvent] and [Event.IsStart] are declared in another file of the
    package; the engine is parametric in them. *)
Variable decodeEvent : string → Event + error.
Variable IsStart : Event → bool.

(** [readEvents], from the test of the last byte to the end of the loop body,
    on the [n = length chunk] bytes the [Read] returned. *)
Definition on_chunk (chunk : list byte) (s : State) : State :=
  match last chunk with
  | None => set_reader R_panic s           (* n = 0: [buf[n-1]] is out of range *)
  | Some b =>
      if is_terminator b then
        let rawEvent := string_of_list_byte chunk in
        let s := log (log_received rawEvent) s in
        match decodeEvent rawEvent with
        | inr err => set_reader R_deadline (log (log_decode_failed err) s)
        | inl event => set_reader (R_send event) (log (log_decoded event) s)
        end
      else set_reader R_deadline s
  end.

(** [readEvents]: the loop, from one blocking point to the next.  A [Read]
    takes at most [buf_size] of the bytes the stream has ready and leaves the
    others for the next [Read]. *)
Definition readEvents (s : State) : option State :=
  match reader s with
  | R_deadline =>
      match Timeout (opts s) with
      | None => Some (set_reader R_read s)
      | Some _ =>
          match deadlines s with
          | Some err :: ds =>
              Some (set_reader (R_failed err) (log (log_deadline_failed err) (set_deadlines ds s)))
          | None :: ds => Some (set_reader R_read (set_deadlines ds s))
          | [] => Some (set_reader R_read s)
          end
      end
  | R_read =>
      match reads s with
      | [] => None                                         (* blocked in Read *)
      | inr err :: rs => Some (set_reader (R_failed err) (set_reads rs s))
      | inl data :: rs =>
          Some (on_chunk (take buf_size data) (set_reads (after_read data rs) s))
      end
  | R_send event =>
      if closed (events s) then Some (set_reader R_panic s)
      else if decide (length (buf (events s)) < chan_cap)%nat
      then Some (set_reader R_deadline (emit (LPush event) (set_events (push event (events s)) s)))
      else None                                            (* the queue is full *)
  | _ => None
  end.

(** The goroutine [NewClient] starts: [readEvents], and when it has returned
    an error, the log entry and the send on [c.shutdown]. *)
Definition reader_goroutine (s : State) : option State :=
  match reader s with
  | R_failed err => Some (set_reader R_shutdown (log (log_reader_failed err) s))
  | R_shutdown => None                                     (* until Start receives *)
  | R_exit | R_panic => None
  | _ => readEvents s
  end.

(** [NewClient], from [event := <-c.events] on.  The queue is not closed
    before [Start] runs, so the receive never yields the zero [Event]. *)
Definition NewClient (s : State) : option State :=
  match newclient s with
  | N_recv =>
      match buf (events s) with
      | [] => None                                         (* blocked in the receive *)
      | event :: _ =>
          let s := emit (LHandshake event) (set_events (pop (events s)) s) in
          if negb (String.eqb (Keyword event) "AGTSTART") || negb (IsStart event)
          then Some (set_newclient (N_returned false (Some ErrHelloNotReceived)) (log log_no_hello s))
          else Some (set_newclient (N_returned true None) s)
      end
  | N_returned _ _ => None
  end.

(** The [select] of [Start].  [Start] closes the queue only on its way out,
    so at the [select] the queue is open ([ci_queue] below) and a receive
    takes a queued event or waits. *)
Definition Start_select (c : select_case) (s : State) : option State :=
  match start s with
  | S_select =>
      match c with
      | FromEvents =>
          match buf (events s) with
          | [] => None
          | event :: _ =>
              let s := emit (LRecv event) (set_events (pop (events s)) s) in
              if decide (Type' event = EventTypeNotification)
              then Some (set_start (S_notify event) s)
              else Some (set_start (S_lookup event) s)
          end
      | FromReader =>
          match reader s with
          | R_shutdown => Some (set_start S_store (emit (LShutdown FromReader) (set_reader R_exit s)))
          | _ => None
          end
      | FromStop =>
          match stops s with
          | S n => Some (set_start S_store (emit (LShutdown FromStop) (set_stops n s)))
          | O => None
          end
      end
  | _ => None
  end.

(** Modelled from the spec: the receiving end of the channels of a request
    is the command invocation, in another file of the package.  A send on
    such a channel goes through when the invocation that owns the request is
    blocked on its completion signal; the invocation then removes its request
    from the table and returns [res]. *)
Definition complete (k : Z) (res : Event + error) (s : State) : option State :=
  match invokers s !! k with
  | Some I_wait =>
      Some (set_requests (delete k (requests s))
             (set_invokers (<[k := I_finished res]> (invokers s)) s))
  | _ => None
  end.

(** [Start] outside its [select]. *)
Definition Start_step (s : State) : option State :=
  match start s with
  | S_idle | S_select => None
  | S_notify event =>
      if closed (notification s) then Some (set_start S_panic s)
      else if decide (length (buf (notification s)) < chan_cap)%nat
      then Some (set_start S_select
                   (emit (LNotify event) (set_notification (push event (notification s)) s)))
      else None                                            (* the sink is full *)
  | S_lookup event =>
      match requests s !! InvokeID event with
      | Some r => Some (set_start (S_deliver r event) (emit (LLookup (InvokeID event) true) s))
      | None => Some (set_start S_select (emit (LLookup (InvokeID event) false) s))
      end
  | S_deliver r event =>
      match complete (owner (eventChan r)) (inl event) s with
      | Some s' => Some (set_start S_select (emit (LDeliver (owner (eventChan r)) event) s'))
      | None => None                                       (* nobody receives *)
      end
  | S_store => Some (set_start S_conn_close (emit (LStore ConnClosed) (set_state ConnClosed s)))
  | S_conn_close => Some (set_start S_close_notification (emit LConnClose (set_conn_closed true s)))
  | S_close_notification =>
      if closed (notification s) then Some (set_start S_panic s)
      else Some (set_start S_close_events
                   (emit LCloseNotification (set_notification (close (notification s)) s)))
  | S_close_events =>
      if closed (events s) then Some (set_start S_panic s)
      else Some (set_start (S_drain []) (emit LCloseEvents (set_events (close (events s)) s)))
  | S_drain visited =>
      match next_unvisited (requests s) visited with
      | Some (k, r) => Some (set_start (S_done k r visited) s)
      | None => Some (set_start (S_returned ErrConnectionClosed) (emit (LReturn ErrConnectionClosed) s))
      end
  | S_done k r visited =>
      match complete (owner (done r)) (inr ErrConnectionClosed) s with
      | Some s' => Some (set_start (S_drain (k :: visited)) (emit (LDone (owner (done r))) s'))
      | None => None                                       (* nobody receives *)
      end
  | S_returned _ | S_panic => None
  end.

(** Modelled from the spec: a command is issued.  "Once Closed, no further
    command may be newly registered; any attempt fails immediately with a
    closed-connection error rather than blocking." *)
Definition invoke_call (k : Z) (s : State) : option State :=
  if client_ready s then
    match invokers s !! k with
    | Some I_checked | Some I_wait => None       (* id [k] is held by a pending command *)
    | _ =>
        if decide (state s = ConnClosed)
        then Some (emit (LRefused k)
                     (set_invokers (<[k := I_finished (inr ErrConnectionClosed)]> (invokers s)) s))
        else Some (set_invokers (<[k := I_checked]> (invokers s)) s)
    end
  else None.

(** Modelled from the spec: "Register a PendingRequest for that id in the
    Request Table under exclusive access", then block on its completion
    signal. *)
Definition invoker_step (k : Z) (s : State) : option State :=
  match invokers s !! k with
  | Some I_checked =>
      Some (emit (LRegister k)
              (set_requests (<[k := new_request k]> (requests s))
                 (set_invokers (<[k := I_wait]> (invokers s)) s)))
  | _ => None
  end.

(** A subscriber of [Notifications()] receives one event. *)
Definition Notifications_recv (s : State) : option State :=
  if client_ready s then
    match buf (notification s) with
    | [] => None
    | event :: _ => Some (emit (LConsume event) (set_notification (pop (notification s)) s))
    end
  else None.

(** The owner of the client calls [Start], once. *)
Definition Start_call (s : State) : option State :=
  if client_ready s then
    match start s with
    | S_idle => Some (set_start S_select s)
    | _ => None
    end
  else None.

(** [Stop]: blocked at [c.shutdown <- struct{}{}] until [Start] receives. *)
Definition Stop (s : State) : option State :=
  if client_ready s then Some (set_stops (S (stops s)) s) else None.

Definition step (m : move) (s : State) : option State :=
  match m with
  | RunReader => reader_goroutine s
  | RunNewClient => NewClient s
  | CallStart => Start_call s
  | Select c => Start_select c s
  | RunStart => Start_step s
  | CallStop => Stop s
  | CallInvoke k => invoke_call k s
  | RunInvoker k => invoker_step k s
  | RunConsumer => Notifications_recv s
  end.

Fixpoint run (sched : list move) (s : State) : option State :=
  match sched with
  | [] => Some s
  | m :: sched =>
      match step m s with
      | Some s' => run sched s'
      | None => None
      end
  end.

(** The states an execution of the engine can be in. *)
Definition reachable (s : State) : Prop :=
  ∃ o ds rs sched, run sched (init o ds rs) = Some s.

End Engine.

(* ===================================================================== *)
(** ** Invariants of the executions *)
(* ===================================================================== *)

(** One move, unfolded to the code of its goroutine. *)
Ltac unfold_step H :=
  cbn [step] in H;
  unfold reader_goroutine, readEvents, NewClient, Start_select, Start_step, Stop,
    Start_call, invoke_call,
    invoker_step, Notifications_recv, complete in H.

(** Where [Start] is once the Connection State has been stored. *)
Definition stored (pc : StartPC) : bool :=
  match pc with
  | S_conn_close | S_close_notification | S_close_events
  | S_drain _ | S_done _ _ _ | S_returned _ => true
  | _ => false
  end.

Definition conn_closed_at (pc : StartPC) : bool :=
  match pc with
  | S_close_notification | S_close_events
  | S_drain _ | S_done _ _ _ | S_returned _ => true
  | _ => false
  end.

Definition sink_closed_at (pc : StartPC) : bool :=
  match pc with
  | S_close_events | S_drain _ | S_done _ _ _ | S_returned _ => true
  | _ => false
  end.

Definition queue_closed_at (pc : StartPC) : bool :=
  match pc with
  | S_drain _ | S_done _ _ _ | S_returned _ => true
  | _ => false
  end.

(** The control invariant: the shared flags follow the program counter of
    [Start], [Start] never panics and only ever returns [ErrConnectionClosed]. *)
Record ctrl_inv (s : State) : Prop := {
  ci_state : state s = if stored (start s) then ConnClosed else ConnOK;
  ci_conn : conn_closed s = conn_closed_at (start s);
  ci_sink : closed (notification s) = sink_closed_at (start s);
  ci_queue : closed (events s) = queue_closed_at (start s);
  ci_nopanic : start s ≠ S_panic;
  ci_ret : ∀ e, start s = S_returned e → e = ErrConnectionClosed;
  ci_ready : start s ≠ S_idle → client_ready s = true;
  ci_stops : stops s ≠ 0%nat → client_ready s = true;
  ci_invokers : ∀ k pc, invokers s !! k = Some pc → client_ready s = true;
  ci_newclient : ∀ c e, newclient s = N_returned c e →
                 (c = true ∧ e = None) ∨ (c = false ∧ e = Some ErrHelloNotReceived)
}.

(** The table and the invocations agree: the table holds exactly the
    requests of the invocations blocked on their completion signal, and the
    request [Start] is about to send on is in the table. *)
Record req_inv (s : State) : Prop := {
  ri_table : ∀ k, requests s !! k =
                  match invokers s !! k with
                  | Some I_wait => Some (new_request k)
                  | _ => None
                  end;
  ri_deliver : ∀ r ev, start s = S_deliver r ev →
               r = new_request (InvokeID ev) ∧ invokers s !! InvokeID ev = Some I_wait;
  ri_done : ∀ k r v, start s = S_done k r v →
            r = new_request k ∧ invokers s !! k = Some I_wait
}.

(** What a trace says of each channel. *)
Definition pushed (tr : list Label) : list Event :=
  omap (λ l, match l with LPush ev => Some ev | _ => None end) tr.
Definition handshaken (tr : list Label) : list Event :=
  omap (λ l, match l with LHandshake ev => Some ev | _ => None end) tr.
Definition received (tr : list Label) : list Event :=
  omap (λ l, match l with LRecv ev => Some ev | _ => None end) tr.
Definition notified (tr : list Label) : list Event :=
  omap (λ l, match l with LNotify ev => Some ev | _ => None end) tr.
Definition consumed (tr : list Label) : list Event :=
  omap (λ l, match l with LConsume ev => Some ev | _ => None end) tr.
Definition logged (tr : list Label) : list LogEntry :=
  omap (λ l, match l with LLog e => Some e | _ => None end) tr.

(** The notification [Start] holds while it is blocked on the sink. *)
Definition in_flight (pc : StartPC) : list Event :=
  match pc with
  | S_notify ev => [ev]
  | _ => []
  end.

(** Nothing of the Session Loop or of a subscriber happens before the
    receive of [NewClient]. *)
Fixpoint hello_first (tr : list Label) : bool :=
  match tr with
  | [] => true
  | LHandshake _ :: _ => true
  | LRecv _ :: _ | LNotify _ :: _ | LConsume _ :: _ => false
  | _ :: tr => hello_first tr
  end.

(** The history invariant: [c.events] is a queue from the reader to
    [NewClient] first and to [Start] after it, [c.notification] a queue from
    [Start] to the subscribers. *)
Record hist_inv (IsStart : Event → bool) (s : State) : Prop := {
  hi_queue : pushed (trace s) = handshaken (trace s) ++ received (trace s) ++ buf (events s);
  hi_hello : match newclient s with
             | N_recv => handshaken (trace s) = []
             | N_returned c _ =>
                 ∃ first, handshaken (trace s) = [first] ∧
                   (c = true → Keyword first = "AGTSTART" ∧ IsStart first = true)
             end;
  hi_idle : start s = S_idle → received (trace s) = [];
  hi_sink : filter (λ ev, Type' ev = EventTypeNotification) (received (trace s))
            = notified (trace s) ++ in_flight (start s);
  hi_consumed : notified (trace s) = consumed (trace s) ++ buf (notification s);
  hi_order : hello_first (trace s) = true
}.

(** The table holds exactly the requests of the blocked invocations. *)
Definition table_ok (s : State) : Prop :=
  ∀ k, requests s !! k =
       match invokers s !! k with
       | Some I_wait => Some (new_request k)
       | _ => None
       end.

(** What the drain of [Start] leaves alone. *)
Definition frame (s : State) :=
  (opts s, state s, conn_closed s, events s, notification s,
   deadlines s, reads s, reader s, newclient s, stops s).

(** The invocations after the drain has signalled those of [ks]. *)
Definition signalled (ks : list Z) (inv : gmap Z InvokerPC) (k : Z) : option InvokerPC :=
  if decide (k ∈ ks) then Some (I_finished (inr ErrConnectionClosed)) else inv !! k.

(** The labels of one run of the shutdown branch over the requests [ks]. *)
Definition shutdown_labels (ks : list Z) : list Label :=
  [LStore ConnClosed; LConnClose; LCloseNotification; LCloseEvents]
  ++ (LDone <$> ks) ++ [LReturn ErrConnectionClosed].

(** The events sent on [eventChan] channels. *)
Definition delivered (tr : list Label) : list Event :=
  omap (λ l, match l with LDeliver _ ev => Some ev | _ => None end) tr.

(** The signals sent on [done] channels. *)
Definition done_sent (tr : list Label) : list Z :=
  omap (λ l, match l with LDone k => Some k | _ => None end) tr.

(** The values [Start] has returned. *)
Definition returned (tr : list Label) : list error :=
  omap (λ l, match l with LReturn e => Some e | _ => None end) tr.

(** What [Start] has returned when it is at [pc]. *)
Definition returns_at (pc : StartPC) : list error :=
  match pc with
  | S_returned e => [e]
  | _ => []
  end.

(** Only events that are not notifications reach the lookup. *)
Record match_inv (s : State) : Prop := {
  mi_lookup : ∀ ev, start s = S_lookup ev → Type' ev ≠ EventTypeNotification;
  mi_deliver : ∀ r ev, start s = S_deliver r ev → Type' ev ≠ EventTypeNotification;
  mi_delivered : Forall (λ ev, Type' ev ≠ EventTypeNotification) (delivered (trace s))
}.

(** The entries of the log that report a decode failure. *)
Definition decode_failures (tr : list Label) : list LogEntry :=
  filter (λ e, Message e = "Error while decoding an event!") (logged tr).

(* ===================================================================== *)
(** ** Options, the stream as a whole, the shutdown as a whole *)
(* ===================================================================== *)

(** [type Option func]: a function that updates the [Options] it is given. *)
Definition Option := Options → Options.

(** [WithTimeout]: [options.Timeout = &timeout]. *)
Definition WithTimeout (timeout : Z) : Option :=
  λ options, mkOptions (Some timeout) (OptLogLevel options).

(** The head of [NewClient]: [options := &Options{}], then
    [for _, opt := range opts { opt(options) }].  [LogLevel] is declared in
    another file of the package, so which of its constants the zero
    [Options] holds is a parameter. *)
Definition NewClient_options (zero : LogLevel) (opts : list Option) : Options :=
  fold_left (λ options opt, opt options) opts (mkOptions None zero).

Global Instance select_case_eq_dec : EqDecision select_case.
Proof. solve_decision. Defined.
Global Instance move_eq_dec : EqDecision move.
Proof. solve_decision. Defined.

(** The chunks the [Read]s of [readEvents] cut the bytes [data] into: every
    [Read] takes [buf_size] bytes at most ([take] in [readEvents]) and leaves
    the others ([after_read]).  The fuel is the number of bytes, more than
    the number of chunks. *)
Fixpoint chunks_fuel (fuel : nat) (data : list byte) : list (list byte) :=
  match fuel with
  | O => [take buf_size data]
  | S fuel =>
      take buf_size data ::
        if decide (length data ≤ buf_size)%nat then []
        else chunks_fuel fuel (drop buf_size data)
  end.

Definition chunks (data : list byte) : list (list byte) :=
  chunks_fuel (length data) data.

(** The stream as the results of the [Read]s to come. *)
Definition expand (rs : list (list byte + error)) : list (list byte + error) :=
  rs ≫= λ r, match r with
             | inl data => inl <$> chunks data
             | inr e => [inr e]
             end.

(** The events the loop of [readEvents] queues on the results [cs] of its
    [Read]s when nothing stops it from outside: it ends at the first error
    and at the first empty chunk, drops a chunk that does not end a record
    and skips a record that does not decode. *)
Fixpoint frames (decodeEvent : string → Event + error) (cs : list (list byte + error)) :
    list Event :=
  match cs with
  | [] => []
  | inr _ :: _ => []
  | inl chunk :: cs =>
      match last chunk with
      | None => []
      | Some b =>
          (if is_terminator b
           then match decodeEvent (string_of_list_byte chunk) with
                | inl event => [event]
                | inr _ => []
                end
           else []) ++ frames decodeEvent cs
      end
  end.

Definition expected (decodeEvent : string → Event + error) (rs : list (list byte + error)) :
    list Event :=
  frames decodeEvent (expand rs).

(** What the reader has yet to queue: the event it holds, and the events of
    the stream ahead; nothing once [readEvents] is over. *)
Definition reader_todo (decodeEvent : string → Event + error) (s : State) :
    option (list Event) :=
  match reader s with
  | R_deadline | R_read => Some (expected decodeEvent (reads s))
  | R_send event => Some (event :: expected decodeEvent (reads s))
  | _ => None
  end.

(** The queue follows the stream: while [readEvents] runs, the events queued
    and the events to come make up the events of the stream. *)
Definition frames_inv (decodeEvent : string → Event + error)
    (rs : list (list byte + error)) (s : State) : Prop :=
  match reader_todo decodeEvent s with
  | Some todo => expected decodeEvent rs = pushed (trace s) ++ todo
  | None => pushed (trace s) `prefix_of` expected decodeEvent rs
  end.

(** The stream an execution has left comes from the stream it began with. *)
Record script_inv (o : Options) (ds : list (option error)) (rs : list (list byte + error))
    (s : State) : Prop := {
  si_opts : opts s = o;
  si_errors : ∀ e, inr e ∈ reads s → inr e ∈ rs;
  si_empty : inl [] ∈ reads s → inl [] ∈ rs;
  si_deadlines : deadlines s `suffix_of` ds;
  si_untouched : Timeout o = None → deadlines s = ds;
  si_failed : ∀ e, reader s = R_failed e →
              inr e ∈ rs ∨ (Timeout o ≠ None ∧ Some e ∈ ds);
  si_reported : ∀ e, LLog (log_reader_failed e) ∈ trace s →
              inr e ∈ rs ∨ (Timeout o ≠ None ∧ Some e ∈ ds);
  si_deadline_logged : ∀ e, LLog (log_deadline_failed e) ∈ trace s →
              Timeout o ≠ None ∧ Some e ∈ ds;
  si_panic : reader s = R_panic → closed (events s) = true ∨ inl [] ∈ rs
}.

(** The statements of the shutdown branch of [Start], and the receive that
    leads to it. *)
Definition is_shutdown_label (l : Label) : bool :=
  match l with
  | LShutdown _ | LStore _ | LConnClose | LCloseNotification | LCloseEvents
  | LDone _ | LReturn _ => true
  | _ => false
  end.

Definition shutdown_view (tr : list Label) : list Label :=
  filter (λ l, is_shutdown_label l = true) tr.

(** The shutdown statements [Start] has behind it at [pc]. *)
Definition shutdown_inv (s : State) : Prop :=
  match start s with
  | S_idle | S_select | S_notify _ | S_lookup _ | S_deliver _ _ | S_panic =>
      shutdown_view (trace s) = []
  | S_store =>
      ∃ c, c ≠ FromEvents ∧ shutdown_view (trace s) = [LShutdown c]
  | S_conn_close =>
      ∃ c, c ≠ FromEvents ∧ shutdown_view (trace s) = [LShutdown c; LStore ConnClosed]
  | S_close_notification =>
      ∃ c, c ≠ FromEvents ∧
        shutdown_view (trace s) = [LShutdown c; LStore ConnClosed; LConnClose]
  | S_close_events =>
      ∃ c, c ≠ FromEvents ∧
        shutdown_view (trace s)
        = [LShutdown c; LStore ConnClosed; LConnClose; LCloseNotification]
  | S_drain visited =>
      NoDup visited ∧
      ∃ c, c ≠ FromEvents ∧
        shutdown_view (trace s)
        = [LShutdown c; LStore ConnClosed; LConnClose; LCloseNotification; LCloseEvents]
          ++ (LDone <$> reverse visited)
  | S_done k _ visited =>
      NoDup (k :: visited) ∧
      ∃ c, c ≠ FromEvents ∧
        shutdown_view (trace s)
        = [LShutdown c; LStore ConnClosed; LConnClose; LCloseNotification; LCloseEvents]
          ++ (LDone <$> reverse visited)
  | S_returned _ =>
      ∃ c ks, c ≠ FromEvents ∧ NoDup ks ∧
        shutdown_view (trace s) = LShutdown c :: shutdown_labels ks
  end.

(** [Start] has left its [select] for good: it has taken a shutdown signal,
    or it has panicked. *)
Definition left_select (pc : StartPC) : bool :=
  match pc with
  | S_store | S_conn_close | S_close_notification | S_close_events
  | S_drain _ | S_done _ _ _ | S_returned _ | S_panic => true
  | _ => false
  end.

(** The [Stop] calls of a schedule. *)
Definition stop_calls (sched : list move) : nat :=
  length (filter (λ m, m = CallStop) sched).

(** The entries of the log by their message. *)
Definition entries (msg : string) (tr : list Label) : list LogEntry :=
  filter (λ e, Message e = msg) (logged tr).

(** What [NewClient] has made of the first event. *)
Definition hello_inv (IsStart : Event → bool) (s : State) : Prop :=
  match newclient s with
  | N_recv => entries "Server cannot accept new clients!" (trace s) = []
  | N_returned c err =>
      ∃ first, handshaken (trace s) = [first] ∧
        if String.eqb (Keyword first) "AGTSTART" && IsStart first
        then c = true ∧ err = None ∧
             entries "Server cannot accept new clients!" (trace s) = []
        else c = false ∧ err = Some ErrHelloNotReceived ∧
             entries "Server cannot accept new clients!" (trace s) = [log_no_hello]
  end.

(** The event the reader holds between its decoding and its queueing. *)
Definition in_hand (pc : ReaderPC) : list Event :=
  match pc with
  | R_send event => [event]
  | _ => []
  end.

(** The log of the reader follows its loop: a record logged as received is
    logged as decoded or as failed next, and the events logged as decoded are
    the events queued, the one in hand, and the one lost to a panic. *)
Definition log_inv (s : State) : Prop :=
  (length (entries "Event has received." (trace s))
   = length (entries "Event has decoded." (trace s))
     + length (entries "Error while decoding an event!" (trace s)))%nat ∧
  ∃ pending,
    entries "Event has decoded." (trace s) = log_decoded <$> (pushed (trace s) ++ pending) ∧
    match reader s with
    | R_send event => pending = [event]
    | R_panic => (length pending ≤ 1)%nat
    | _ => pending = []
    end.

(** What the stream has ahead, counted so that every [Read] makes it less:
    a [Read] takes the error at the head, or at least one byte of the bytes
    at the head, or the empty result at the head. *)
Fixpoint weight (rs : list (list byte + error)) : nat :=
  match rs with
  | [] => 0
  | inl data :: rs => S (length data + weight rs)
  | inr _ :: rs => S (weight rs)
  end.

(** A session at rest: the client is handed out, [Start] is at its
    [select], the reader at the top of its loop, both channels are empty and
    open, no command is pending and no [SetDeadline] is going to fail. *)
Record at_rest (s : State) : Prop := {
  ar_reader : reader s = R_deadline;
  ar_deadlines : deadlines s = [];
  ar_start : start s = S_select;
  ar_ready : client_ready s = true;
  ar_events : events s = make;
  ar_sink : notification s = make;
  ar_requests : requests s = ∅
}.

(** The entries of the reader goroutine on the error [readEvents] returned. *)
Definition reader_reports (tr : list Label) : list LogEntry :=
  filter (λ e, Message e = "EOF received!" ∨ Message e = "Error received!") (logged tr).

(** The reader goroutine reports once, after [readEvents] has returned. *)
Definition report_inv (s : State) : Prop :=
  match reader s with
  | R_shutdown | R_exit => ∃ e, reader_reports (trace s) = [log_reader_failed e]
  | _ => reader_reports (trace s) = []
  end.

(** [readEvents] has returned [e]: the goroutine has reported nothing yet,
    or it has reported [e] and nothing else. *)
Definition reported (e : error) (s : State) : Prop :=
  (reader s = R_failed e ∧ reader_reports (trace s) = []) ∨
  ((reader s = R_shutdown ∨ reader s = R_exit) ∧
   reader_reports (trace s) = [log_reader_failed e]).

(* ===================================================================== *)
(** ** Worked inputs *)
(* ===================================================================== *)

(** Events and a decoder for the worked executions below; the decoder reads
    the first byte of a record: S, N, R and E give the four events, anything
    else does not decode. *)
Definition ev_agtstart : Event := mkEvent "AGTSTART" EventTypeNotification "c1" 42 0 1 false.
Definition ev_callnotify : Event := mkEvent "AGTCallNotify" EventTypeNotification "c1" 42 0 1 false.
Definition ev_response : Event := mkEvent "AGTLogon" EventTypeResponse "c1" 42 7 1 false.
Definition ev_error : Event := mkEvent "ERROR" EventTypeNotification "c1" 42 0 1 false.

Definition sample_decodeEvent (raw : string) : Event + error :=
  match list_byte_of_string raw with
  | x53 :: _ => inl ev_agtstart
  | x4e :: _ => inl ev_callnotify
  | x52 :: _ => inl ev_response
  | x45 :: _ => inl ev_error
  | _ => inr (ErrOther "cannot decode")
  end.

Definition sample_IsStart (event : Event) : bool := String.eqb (Keyword event) "AGTSTART".

Definition rec_agtstart : list byte := [x53; ETX].
Definition rec_callnotify : list byte := [x4e; ETX].
Definition rec_response : list byte := [x52; ETX].
Definition rec_error : list byte := [x45; ETX].
Definition rec_malformed : list byte := [x3f; x3f; ETB].

Definition no_timeout : Options := mkOptions None LogLevelDebug.
Definition with_timeout : Options := mkOptions (Some 30) LogLevelDebug.

(** The engine on the sample decoder. *)
Definition sample_run (sched : list move) (s : State) : option State :=
  run sample_decodeEvent sample_IsStart sched s.

(** The state a schedule leads to on the sample decoder. *)
Definition state_after (sched : list move) (s : State) : State :=
  default s (sample_run sched s).

(** The reader queues one record and [NewClient] receives it. *)
Definition hello : list move := [RunReader; RunReader; RunReader; RunNewClient].

(** The reader goes once round its loop on a record that decodes. *)
Definition read_one : list move := [RunReader; RunReader; RunReader].

(** The shutdown branch of [Start] with an empty table, up to the return. *)
Definition shutdown_empty : list move := replicate 5 RunStart.

(** A response nobody waits for. *)
Definition unmatched_init : State := init no_timeout [] [inl rec_agtstart; inl rec_response].
Definition unmatched_sched : list move := hello ++ [CallStart] ++ read_one ++ [Select FromEvents].

(** A first event that is not AGTSTART; a stream that fails at once. *)
Definition error_first_init : State := init no_timeout [] [inl rec_error].
Definition eof_first_init : State := init no_timeout [] [inr EOF].

(** A command that has passed the check of the Connection State when a
    [Stop] arrives, and registers after [Start] has returned. *)
Definition late_init : State := init no_timeout [] [inl rec_agtstart].
Definition late_sched : list move :=
  hello ++ [CallStart; CallInvoke 7; CallStop; Select FromStop] ++ shutdown_empty
  ++ [RunInvoker 7].

(** A session: a command waits, a notification arrives, the stream times out. *)
Definition session_init : State :=
  init with_timeout [] [inl rec_agtstart; inl rec_callnotify; inr ErrTimeout].
Definition session_sched : list move :=
  hello ++ [CallStart; CallInvoke 7; RunInvoker 7] ++ read_one.

(** A record split over two reads, a malformed record before a good one. *)
Definition split_init : State := init no_timeout [] [inl [x52; x41]; inl [x42; ETX]].
Definition malformed_init : State := init no_timeout [] [inl rec_malformed; inl rec_callnotify].

(** [Start] has returned after a [Stop]. *)
Definition stopped_sched : list move :=
  hello ++ [CallStart; CallStop; Select FromStop] ++ shutdown_empty.

(** The session, on to the subscriber getting its notification. *)
Definition notified_sched : list move :=
  session_sched ++ [Select FromEvents; RunStart; RunConsumer].

(** The session, on to the failure of the stream. *)
Definition timeout_sched : list move := session_sched ++ [RunReader; RunReader].

(** The session with [Start] running and the reader holding the call
    notification it has decoded. *)
Definition in_hand_sched : list move := hello ++ [CallStart; RunReader; RunReader].

(** The session with its notification forwarded and no subscriber yet. *)
Definition forwarded_sched : list move := session_sched ++ [Select FromEvents; RunStart].

(** A stream whose second [Read] returns no bytes and no error. *)
Definition empty_read_init : State := init no_timeout [] [inl rec_agtstart; inl []].

(** A stream of 129 call notifications and nobody receiving from
    [Notifications]: [Start] forwards 128 of them and holds the last. *)
Definition flood_init : State :=
  init no_timeout [] (inl rec_agtstart :: replicate 129 (inl rec_callnotify)).
Definition flood_sched : list move :=
  hello ++ [CallStart]
  ++ mjoin (replicate 128 (read_one ++ [Select FromEvents; RunStart]))
  ++ read_one ++ [Select FromEvents].

(** A stream of 129 call notifications and nobody receiving from [c.events]:
    the reader queues 128 of them and holds the last. *)
Definition backlog_init : State := init no_timeout [] (replicate 129 (inl rec_callnotify)).
Definition backlog_sched : list move :=
  mjoin (replicate 128 read_one) ++ [RunReader; RunReader].

(** A command has passed the check of the Connection State, a [Stop] has
    arrived and [Start] has returned; the command has not registered yet. *)
Definition checked_sched : list move :=
  hello ++ [CallStart; CallInvoke 7; CallStop; Select FromStop] ++ shutdown_empty.

(* ===================================================================== *)
(** ** Executions *)
(* ===================================================================== *)

Section Properties.

Context (decodeEvent : string → Event + error) (IsStart : Event → bool).

Local Abbreviation step := (step decodeEvent IsStart).
Local Abbreviation run := (run decodeEvent IsStart).
Local Abbreviation reachable := (reachable decodeEvent IsStart).

Lemma run_app (a b : list move) (s : State) :
  run (a ++ b) s = run a s ≫= run b.
Proof.
  revert s. induction a as [|m a IH]; intros s; simpl; [done|].
  destruct (step m s); simpl; auto.
Qed.

Lemma run_snoc (a : list move) (m : move) (s s' : State) :
  run (a ++ [m]) s = Some s' ↔ ∃ s1, run a s = Some s1 ∧ step m s1 = Some s'.
Proof.
  rewrite run_app. split.
  - destruct (run a s) as [s1|] eqn:E; simpl; [|done].
    destruct (step m s1) eqn:E'; [|done]. intros; simplify_eq. eauto.
  - intros (s1 & -> & H). simpl. by rewrite H.
Qed.

Lemma reachable_init o ds rs : reachable (init o ds rs).
Proof. by exists o, ds, rs, []. Qed.

Lemma reachable_step m s s' : reachable s → step m s = Some s' → reachable s'.
Proof.
  intros (o & ds & rs & sched & H) Hs. exists o, ds, rs, (sched ++ [m]).
  apply run_snoc. eauto.
Qed.

Lemma reachable_run sched s s' : reachable s → run sched s = Some s' → reachable s'.
Proof.
  revert s. induction sched as [|m sched IH]; intros s Hr H; simpl in H.
  - by simplify_eq.
  - destruct (step m s) as [s1|] eqn:E; [|done]. eauto using reachable_step.
Qed.

(** Induction over executions: a property of the initial states that every
    move preserves holds in every reachable state. *)
Lemma reachable_ind (P : State → Prop) :
  (∀ o ds rs, P (init o ds rs)) →
  (∀ m s s', reachable s → P s → step m s = Some s' → P s') →
  ∀ s, reachable s → P s.
Proof.
  intros Hinit Hstep s (o & ds & rs & sched & H).
  revert s H. induction sched as [|m sched IH] using rev_ind; intros s H.
  - simpl in H. simplify_eq. apply Hinit.
  - apply run_snoc in H as (s1 & H1 & H2).
    eapply Hstep; [|by apply IH|done]. by exists o, ds, rs, sched.
Qed.

(** The four ways through the body of the loop of [readEvents]. *)
Lemma on_chunk_cases chunk s :
  (last chunk = None ∧ on_chunk decodeEvent chunk s = set_reader R_panic s) ∨
  (∃ b, last chunk = Some b ∧ is_terminator b = false ∧
        on_chunk decodeEvent chunk s = set_reader R_deadline s) ∨
  (∃ b err, last chunk = Some b ∧ is_terminator b = true ∧
        decodeEvent (string_of_list_byte chunk) = inr err ∧
        on_chunk decodeEvent chunk s =
          set_reader R_deadline
            (log (log_decode_failed err) (log (log_received (string_of_list_byte chunk)) s))) ∨
  (∃ b event, last chunk = Some b ∧ is_terminator b = true ∧
        decodeEvent (string_of_list_byte chunk) = inl event ∧
        on_chunk decodeEvent chunk s =
          set_reader (R_send event)
            (log (log_decoded event) (log (log_received (string_of_list_byte chunk)) s))).
Proof.
  unfold on_chunk. destruct (last chunk) as [b|]; [|by left].
  destruct (is_terminator b) eqn:Hb; [|right; left; eauto].
  destruct (decodeEvent _) as [event|err] eqn:Hd.
  - do 3 right. eauto 10.
  - right; right; left. eauto 10.
Qed.

(** Case analysis on one move. *)
Ltac step_cases H :=
  match type of H with
  | _ ?m _ = Some _ => destruct m
  end;
  unfold_step H;
  repeat case_match; try discriminate H;
  try match type of H with
      | context [on_chunk _ ?c ?s] =>
          let Hoc := fresh "Hoc" in
          destruct (on_chunk_cases c s)
            as [(?&Hoc)|[(?&?&?&Hoc)|[(?&?&?&?&?&Hoc)|(?&?&?&?&?&Hoc)]]];
          rewrite Hoc in H; clear Hoc
      end;
  simplify_eq/=; try done.

Lemma ctrl_inv_reachable s : reachable s → ctrl_inv s.
Proof.
  revert s. apply reachable_ind.
  - intros o ds rs. split; simpl; try done.
  - intros m s s' Hr IH H.
    step_cases H; destruct IH as [I1 I2 I3 I4 I5 I6 I7 I8 I9 I10];
      unfold client_ready in *; split; simpl in *;
      repeat match goal with
             | E : start _ = _ |- _ => rewrite E in *; clear E
             | E : newclient _ = _ |- _ => rewrite E in *; clear E
             end; simpl in *;
      try done; try congruence; eauto; naive_solver.
Qed.

Lemma next_unvisited_Some (m : gmap Z request) visited k r :
  next_unvisited m visited = Some (k, r) → m !! k = Some r ∧ k ∉ visited.
Proof.
  unfold next_unvisited. intros H. apply head_Some_elem_of in H.
  apply list_elem_of_filter in H as [H1 H2]. by apply elem_of_map_to_list in H2.
Qed.

Lemma next_unvisited_None (m : gmap Z request) visited k r :
  next_unvisited m visited = None → m !! k = Some r → k ∈ visited.
Proof.
  unfold next_unvisited. intros H Hk. apply head_None in H.
  destruct (decide (k ∈ visited)) as [|Hn]; [done|].
  assert ((k, r) ∈ filter (λ kr : Z * request, kr.1 ∉ visited) (map_to_list m)) as Hin.
  { apply list_elem_of_filter. split; [done|]. by apply elem_of_map_to_list. }
  rewrite H in Hin. by apply elem_of_nil in Hin.
Qed.

Lemma req_inv_reachable s : reachable s → req_inv s.
Proof.
  revert s. apply reachable_ind.
  - intros o ds rs. split; simpl; try done.
  - intros m s s' Hr IH H.
    step_cases H; destruct IH as [I1 I2 I3];
      split; simpl in *; try done; try congruence; eauto.
    all: intros; simplify_eq.
    all: try match goal with
         | E : start _ = S_deliver _ _ |- _ => destruct (I2 _ _ E) as [? ?]
         | E : start _ = S_done _ _ _ |- _ => destruct (I3 _ _ _ E) as [? ?]
         end.
    all: try match goal with
         | E : requests _ !! ?k = Some _ |- _ => pose proof (I1 k) as Hk; rewrite E in Hk
         | E : next_unvisited _ _ = Some (?k, _) |- _ =>
             apply next_unvisited_Some in E as [E _]; pose proof (I1 k) as Hk; rewrite E in Hk
         end.
    all: simplify_eq/=; rewrite ?lookup_insert, ?lookup_delete, ?I1.
    all: repeat case_decide; simplify_eq/=; try done.
    all: repeat case_match; simplify_eq/=; try done; eauto.
Qed.

Lemma hello_first_snoc tr l :
  hello_first tr = true →
  (handshaken tr = [] → match l with LRecv _ | LNotify _ | LConsume _ => False | _ => True end) →
  hello_first (tr ++ [l]) = true.
Proof.
  induction tr as [|l' tr IH]; simpl; intros H1 H2.
  - destruct l; try done; by destruct H2.
  - destruct l'; simpl in *; try done; apply IH; try done.
Qed.

Lemma pushed_snoc tr l :
  pushed (tr ++ [l]) = pushed tr ++ match l with LPush ev => [ev] | _ => [] end.
Proof. unfold pushed. rewrite omap_app. by destruct l. Qed.
Lemma handshaken_snoc tr l :
  handshaken (tr ++ [l]) = handshaken tr ++ match l with LHandshake ev => [ev] | _ => [] end.
Proof. unfold handshaken. rewrite omap_app. by destruct l. Qed.
Lemma received_snoc tr l :
  received (tr ++ [l]) = received tr ++ match l with LRecv ev => [ev] | _ => [] end.
Proof. unfold received. rewrite omap_app. by destruct l. Qed.
Lemma notified_snoc tr l :
  notified (tr ++ [l]) = notified tr ++ match l with LNotify ev => [ev] | _ => [] end.
Proof. unfold notified. rewrite omap_app. by destruct l. Qed.
Lemma consumed_snoc tr l :
  consumed (tr ++ [l]) = consumed tr ++ match l with LConsume ev => [ev] | _ => [] end.
Proof. unfold consumed. rewrite omap_app. by destruct l. Qed.
Lemma logged_snoc tr l :
  logged (tr ++ [l]) = logged tr ++ match l with LLog e => [e] | _ => [] end.
Proof. unfold logged. rewrite omap_app. by destruct l. Qed.

Lemma hist_inv_reachable s : reachable s → hist_inv IsStart s.
Proof.
  revert s. apply reachable_ind.
  - intros o ds rs. split; simpl; try done.
  - intros m s s' Hr IH H. pose proof (ctrl_inv_reachable s Hr) as Hc.
    step_cases H; destruct IH as [I1 I2 I3 I4 I5 I6]; destruct Hc as [_ _ C3 C4 _ _ C7 _ _ _];
      unfold client_ready in *; split; simpl;
      rewrite ?pushed_snoc, ?handshaken_snoc, ?received_snoc, ?notified_snoc, ?consumed_snoc;
      simpl; rewrite ?app_nil_r;
      try done.
    all: try (repeat (apply hello_first_snoc; [|by intros _]); done).
    all: repeat match goal with
         | E : start _ = _ |- _ => rewrite E in *; clear E
         | E : buf _ = _ |- _ => rewrite E in *; clear E
         end; simpl in *; rewrite ?app_nil_r in *.
    all: try (rewrite I1; by rewrite <- ?app_assoc).
    all: try (rewrite I5; by rewrite <- ?app_assoc).
    all: try done.
    all: try match goal with
         | E : newclient _ = N_recv |- _ =>
             rewrite E in I2, C7;
             assert (start s = S_idle) as Hidle
               by (destruct (decide (start s = S_idle)); [done|by specialize (C7 ltac:(done))]);
             rewrite (I3 Hidle), I2 in I1; rewrite ?(I3 Hidle), ?I2; simpl in *
         end.
    all: try done.
    all: try (eexists; split; [done|]; intros; try done;
              match goal with
              | E : negb _ || negb _ = false |- _ =>
                  apply orb_false_iff in E as [E1 E2];
                  apply negb_false_iff in E1, E2; by apply String.eqb_eq in E1
              end).
    all: try (apply hello_first_snoc; [done|]; intros Hh; exfalso;
              try specialize (C7 ltac:(done));
              destruct (newclient s) as [|[] []]; try done;
              destruct I2 as (? & ? & ?); congruence).
    all: try congruence.
    all: rewrite ?filter_app, ?filter_cons, ?filter_nil, ?I4; simpl;
         repeat case_decide; try done; rewrite ?app_nil_r; try done.
Qed.

Lemma run_cons m sched s :
  run (m :: sched) s = step m s ≫= run sched.
Proof. simpl. by destruct (step m s). Qed.

Lemma filter_all {A} (P : A → Prop) `{!∀ x, Decision (P x)} (l : list A) :
  Forall P l → filter P l = l.
Proof.
  induction 1 as [|x l Hx _ IH]; [done|]. by rewrite filter_cons_True, IH.
Qed.

Lemma next_unvisited_fresh (m : gmap Z request) visited :
  (∀ k, k ∈ visited → m !! k = None) →
  next_unvisited m visited = head (map_to_list m).
Proof.
  intros H. unfold next_unvisited. f_equal.
  apply filter_all, Forall_forall. intros [k r] Hin. simpl.
  apply elem_of_map_to_list in Hin. intros Hv. apply H in Hv. congruence.
Qed.

(** The loop over the table, run alone: every request gets its signal. *)
Lemma drain_completes n : ∀ s visited,
  table_ok s → start s = S_drain visited → size (requests s) = n →
  (∀ k, k ∈ visited → requests s !! k = None) →
  ∃ ks s', run (replicate (2 * n + 1) RunStart) s = Some s' ∧
    start s' = S_returned ErrConnectionClosed ∧
    trace s' = trace s ++ (LDone <$> ks) ++ [LReturn ErrConnectionClosed] ∧
    ks ≡ₚ (map_to_list (requests s)).*1 ∧
    requests s' = ∅ ∧
    (∀ k, invokers s' !! k = signalled ks (invokers s) k) ∧
    frame s' = frame s.
Proof.
  induction n as [|n IH]; intros s visited Ht Hpc Hsz Hv.
  - apply map_size_empty_inv in Hsz.
    assert (step RunStart s =
            Some (set_start (S_returned ErrConnectionClosed)
                    (emit (LReturn ErrConnectionClosed) s))) as H1.
    { cbn [step]. unfold Start_step. rewrite Hpc. unfold next_unvisited.
      by rewrite Hsz, map_to_list_empty. }
    eexists [], _. split.
    { cbn [replicate Nat.mul Nat.add]. by rewrite run_cons, H1. }
    simpl. rewrite Hsz, map_to_list_empty. split_and!; try done.
  - destruct (map_to_list (requests s)) as [|[k r] l] eqn:Hl.
    { apply map_to_list_empty_iff in Hl. rewrite Hl, map_size_empty in Hsz. done. }
    assert (requests s !! k = Some r) as Hk.
    { apply elem_of_map_to_list. rewrite Hl. left. }
    pose proof (Ht k) as Hk'. rewrite Hk in Hk'.
    destruct (invokers s !! k) as [[| |]|] eqn:Hi; simplify_eq.
    set (s1 := set_start (S_done k (new_request k) visited) s).
    set (s2 := set_start (S_drain (k :: visited))
                 (emit (LDone k)
                    (set_requests (delete k (requests s))
                       (set_invokers (<[k := I_finished (inr ErrConnectionClosed)]> (invokers s)) s1)))).
    destruct (IH s2 (k :: visited)) as (ks & s' & Hrun & Hst & Htr & Hperm & Hreq & Hinv & Hfr).
    + intros k'. unfold s2, s1; simpl. rewrite lookup_delete, lookup_insert.
      case_decide; [done|]. apply Ht.
    + done.
    + unfold s2, s1; simpl. rewrite map_size_delete, Hk, Hsz. done.
    + intros k' Hin. unfold s2, s1; simpl. rewrite lookup_delete. case_decide; [done|].
      apply elem_of_cons in Hin as [?|?]; [congruence|]. by apply Hv.
    + exists (k :: ks), s'. split_and!; try done.
      * replace (2 * S n + 1)%nat with (S (S (2 * n + 1))) by lia.
        assert (step RunStart s = Some s1) as H1.
        { cbn [step]. unfold Start_step. rewrite Hpc.
          by rewrite next_unvisited_fresh, Hl. }
        assert (step RunStart s1 = Some s2) as H2.
        { cbn [step]. unfold Start_step, complete, s1. simpl. by rewrite Hi. }
        cbn [replicate]. rewrite run_cons, H1. cbn [mbind option_bind].
        rewrite run_cons, H2. exact Hrun.
      * rewrite Htr. unfold s2, s1; simpl. by rewrite <- app_assoc.
      * unfold s2, s1 in Hperm; simpl in Hperm. rewrite Hperm. cbn [fmap list_fmap fst].
        apply perm_skip, fmap_Permutation.
        apply (Permutation_cons_inv (a := (k, new_request k))).
        rewrite <- Hl. by apply map_to_list_delete.
      * intros k'. rewrite Hinv. unfold signalled, s2, s1; simpl.
        rewrite lookup_insert.
        destruct (decide (k' ∈ ks)) as [Hin|Hin], (decide (k' ∈ k :: ks)) as [Hin'|Hin'],
          (decide (k = k')) as [->|Hne]; try done.
        all: rewrite elem_of_cons in Hin'; intuition congruence.
Qed.

Lemma delivered_snoc tr l :
  delivered (tr ++ [l]) = delivered tr ++ match l with LDeliver _ ev => [ev] | _ => [] end.
Proof. unfold delivered. rewrite omap_app. by destruct l. Qed.

Lemma match_inv_reachable s : reachable s → match_inv s.
Proof.
  revert s. apply reachable_ind.
  - intros o ds rs. by split.
  - intros m s s' Hr IH H.
    step_cases H; destruct IH as [I1 I2 I3]; split; simpl;
      rewrite ?delivered_snoc; simpl; rewrite ?app_nil_r; try done.
    all: try (intros; simplify_eq; eauto; fail).
    all: apply Forall_app; split; [done|]; constructor; [|constructor]; eauto.
Qed.

(** The shutdown branch of [Start], run alone from its first statement. *)
Lemma shutdown_completes s :
  reachable s → start s = S_store →
  ∃ ks s', run (replicate (2 * size (requests s) + 5) RunStart) s = Some s' ∧
    start s' = S_returned ErrConnectionClosed ∧
    state s' = ConnClosed ∧ conn_closed s' = true ∧
    closed (notification s') = true ∧ closed (events s') = true ∧
    trace s' = trace s ++ shutdown_labels ks ∧
    ks ≡ₚ (map_to_list (requests s)).*1 ∧
    requests s' = ∅ ∧
    (∀ k, invokers s' !! k = signalled ks (invokers s) k).
Proof.
  intros Hr Hpc.
  destruct (ctrl_inv_reachable s Hr) as [_ _ C3 C4 _ _ _ _ _ _].
  destruct (req_inv_reachable s Hr) as [Ht _ _].
  rewrite Hpc in C3, C4. simpl in C3, C4.
  set (s1 := set_start S_conn_close (emit (LStore ConnClosed) (set_state ConnClosed s))).
  set (s2 := set_start S_close_notification (emit LConnClose (set_conn_closed true s1))).
  set (s3 := set_start S_close_events
               (emit LCloseNotification (set_notification (close (notification s2)) s2))).
  set (s4 := set_start (S_drain []) (emit LCloseEvents (set_events (close (events s3)) s3))).
  assert (step RunStart s = Some s1) as H1.
  { cbn [step]. unfold Start_step. by rewrite Hpc. }
  assert (step RunStart s1 = Some s2) as H2 by done.
  assert (step RunStart s2 = Some s3) as H3.
  { cbn [step]. unfold Start_step. simpl. by rewrite C3. }
  assert (step RunStart s3 = Some s4) as H4.
  { cbn [step]. unfold Start_step. simpl. by rewrite C4. }
  destruct (drain_completes (size (requests s)) s4 [])
    as (ks & s' & Hrun & Hst & Htr & Hperm & Hreq & Hinv & Hfr); try done.
  { intros k Hk. by apply elem_of_nil in Hk. }
  exists ks, s'. split_and!; try done.
  - replace (2 * size (requests s) + 5)%nat
      with (S (S (S (S (2 * size (requests s) + 1))))) by lia.
    cbn [replicate].
    rewrite run_cons, H1; cbn [mbind option_bind].
    rewrite run_cons, H2; cbn [mbind option_bind].
    rewrite run_cons, H3; cbn [mbind option_bind].
    rewrite run_cons, H4; cbn [mbind option_bind]. exact Hrun.
  - by injection Hfr.
  - by injection Hfr.
  - injection Hfr. intros. by replace (notification s') with (notification s4).
  - injection Hfr. intros. by replace (events s') with (events s4).
  - rewrite Htr. unfold shutdown_labels. simpl. by rewrite <- !app_assoc.
Qed.

(** [Start] outside its [select] leaves the reader goroutine alone. *)
Lemma blocked_frame_reader s s' n :
  run (replicate n RunStart) s = Some s' → reader s' = reader s.
Proof.
  revert s. induction n as [|n IH]; intros s H.
  - simpl in H. by simplify_eq.
  - cbn [replicate] in H. rewrite run_cons in H.
    destruct (step RunStart s) as [s1|] eqn:Hs; [|done]. cbn [mbind option_bind] in H.
    rewrite (IH _ H). clear IH H.
    unfold_step Hs. repeat case_match; by simplify_eq/=.
Qed.

(** Once [Start] has returned, nobody sends on a request any more: an
    invocation blocked on its completion signal stays blocked. *)
Lemma blocked_after_return sched : ∀ s s' k e,
  start s = S_returned e → invokers s !! k = Some I_wait →
  run sched s = Some s' →
  start s' = S_returned e ∧ invokers s' !! k = Some I_wait.
Proof.
  induction sched as [|m sched IH]; intros s s' k e Hpc Hk Hrun.
  - simpl in Hrun. by simplify_eq.
  - rewrite run_cons in Hrun. destruct (step m s) as [s1|] eqn:Hs; [|done].
    simpl in Hrun. eapply IH; [| |exact Hrun].
    + step_cases Hs; congruence.
    + step_cases Hs; try done; try congruence.
      all: rewrite lookup_insert;
        match goal with |- context [decide (?a = ?b)] => destruct (decide (a = b)) as [->|] end;
        [congruence|done].
Qed.

(* ===================================================================== *)
(** ** The Frame Reader *)
(* ===================================================================== *)

Lemma is_terminator_spec b : is_terminator b = true ↔ b = ETX ∨ b = ETB.
Proof.
  unfold is_terminator. rewrite orb_true_iff. split.
  - intros [H|H]; apply Byte.byte_dec_bl in H; auto.
  - intros [->| ->]; [left|right]; by apply Byte.byte_dec_lb.
Qed.

Lemma readEvents_read s data rest :
  reader s = R_read → reads s = inl data :: rest →
  step RunReader s
  = Some (on_chunk decodeEvent (take buf_size data) (set_reads (after_read data rest) s)).
Proof. intros Hpc Hr. cbn [step]. unfold reader_goroutine, readEvents. by rewrite Hpc, Hr. Qed.

Lemma readEvents_deadline_quiet s :
  reader s = R_deadline → deadlines s = [] →
  step RunReader s = Some (set_reader R_read s).
Proof.
  intros Hpc Hd. cbn [step]. unfold reader_goroutine, readEvents. rewrite Hpc, Hd.
  by destruct (Timeout (opts s)).
Qed.

(** C4: a chunk is taken for a complete record exactly when its last byte is
    ETX or ETB, and then the text handed to [decodeEvent] is that one chunk;
    a chunk with any other last byte is dropped with nothing kept of it, so
    the reader goes on as if the chunk had never been read and a record split
    over two reads is never put together again. *)
Theorem readEvents_complete_iff_terminated s data rest b :
  reader s = R_read → reads s = inl data :: rest →
  last (take buf_size data) = Some b →
  (is_terminator b = true ↔ b = ETX ∨ b = ETB) ∧
  (∃ s', step RunReader s = Some s' ∧ reads s' = after_read data rest ∧
     if is_terminator b
     then match decodeEvent (string_of_list_byte (take buf_size data)) with
          | inl event =>
              reader s' = R_send event ∧
              trace s' = trace s ++ [LLog (log_received (string_of_list_byte (take buf_size data)));
                                     LLog (log_decoded event)]
          | inr err =>
              reader s' = R_deadline ∧
              trace s' = trace s ++ [LLog (log_received (string_of_list_byte (take buf_size data)));
                                     LLog (log_decode_failed err)]
          end
     else s' = set_reader R_deadline (set_reads (after_read data rest) s)) ∧
  (is_terminator b = false → deadlines s = [] →
   ∀ sched, run (RunReader :: RunReader :: sched) s
            = run sched (set_reads (after_read data rest) s)).
Proof.
  intros Hpc Hr Hb. split; [apply is_terminator_spec|]. split.
  - eexists. split; [by apply readEvents_read|]. unfold on_chunk. rewrite Hb.
    destruct (is_terminator b); [|done].
    destruct (decodeEvent _); simpl; by rewrite <- app_assoc.
  - intros Hn Hd sched. rewrite run_cons, (readEvents_read _ _ _ Hpc Hr).
    cbn [mbind option_bind]. unfold on_chunk. rewrite Hb, Hn.
    rewrite run_cons, readEvents_deadline_quiet by done. cbn [mbind option_bind].
    f_equal. destruct s; simpl in *. by subst.
Qed.

Lemma after_read_short data rest :
  (length data ≤ buf_size)%nat → after_read data rest = rest.
Proof. intros. unfold after_read. by rewrite decide_True. Qed.

(** One turn of the loop on a complete record that does not decode. *)
Lemma reader_round_failed s data rest b err :
  reader s = R_deadline → deadlines s = [] → reads s = inl data :: rest →
  (length data ≤ buf_size)%nat → last data = Some b → is_terminator b = true →
  decodeEvent (string_of_list_byte data) = inr err →
  run [RunReader; RunReader] s
  = Some (set_reader R_deadline
            (log (log_decode_failed err)
               (log (log_received (string_of_list_byte data)) (set_reads rest s)))).
Proof.
  intros Hpc Hdl Hr Hl Hb Ht Hd.
  rewrite run_cons, readEvents_deadline_quiet by done. cbn [mbind option_bind].
  rewrite run_cons. erewrite readEvents_read by done. cbn [mbind option_bind].
  rewrite after_read_short, take_ge by done. unfold on_chunk. rewrite Hb, Ht, Hd.
  done.
Qed.

(** One turn of the loop on a complete record that decodes. *)
Lemma reader_round_decoded s data rest b event :
  reader s = R_deadline → deadlines s = [] → reads s = inl data :: rest →
  (length data ≤ buf_size)%nat → last data = Some b → is_terminator b = true →
  decodeEvent (string_of_list_byte data) = inl event →
  closed (events s) = false → (length (buf (events s)) < chan_cap)%nat →
  run [RunReader; RunReader; RunReader] s
  = Some (set_reader R_deadline
            (emit (LPush event)
               (set_events (push event (events s))
                  (log (log_decoded event)
                     (log (log_received (string_of_list_byte data)) (set_reads rest s)))))).
Proof.
  intros Hpc Hdl Hr Hl Hb Ht Hd Hc Hcap.
  rewrite run_cons, readEvents_deadline_quiet by done. cbn [mbind option_bind].
  rewrite run_cons. erewrite readEvents_read by done. cbn [mbind option_bind].
  rewrite after_read_short, take_ge by done. unfold on_chunk. rewrite Hb, Ht, Hd.
  rewrite run_cons. cbn [step]. unfold reader_goroutine, readEvents. simpl.
  rewrite Hc, decide_True by done. done.
Qed.

(** C5: a complete record that does not decode is logged and skipped: the
    reader is back at the top of its loop, nothing is queued, the error goes
    nowhere else; and a malformed record followed by a well-formed one gives
    one decode-failure entry and one queued event, the reader still running. *)
Theorem readEvents_decode_failure_skipped s data rest b err :
  reader s = R_read → reads s = inl data :: rest →
  last (take buf_size data) = Some b → is_terminator b = true →
  decodeEvent (string_of_list_byte (take buf_size data)) = inr err →
  step RunReader s
  = Some (set_reader R_deadline
            (log (log_decode_failed err)
               (log (log_received (string_of_list_byte (take buf_size data)))
                  (set_reads (after_read data rest) s)))) ∧
  ∀ o good b' event,
    (length data ≤ buf_size)%nat → (length good ≤ buf_size)%nat →
    last good = Some b' → is_terminator b' = true →
    decodeEvent (string_of_list_byte good) = inl event →
    ∃ s', run (replicate 5 RunReader) (init o [] [inl data; inl good]) = Some s' ∧
      reader s' = R_deadline ∧
      decode_failures (trace s') = [log_decode_failed err] ∧
      pushed (trace s') = [event] ∧
      buf (events s') = [event] ∧
      reads s' = [].
Proof.
  intros Hpc Hr Hb Ht Hd. split.
  - rewrite (readEvents_read _ _ _ Hpc Hr). unfold on_chunk. by rewrite Hb, Ht, Hd.
  - intros o good b' event Hl Hl' Hb' Ht' Hd'.
    rewrite take_ge in Hb, Hd by done.
    eexists. split.
    + change (replicate 5 RunReader)
        with ([RunReader; RunReader] ++ [RunReader; RunReader; RunReader]).
      rewrite run_app. erewrite reader_round_failed by done. cbn [mbind option_bind].
      erewrite (reader_round_decoded _ good [] b' event); simpl; try done.
      unfold chan_cap. lia.
    + done.
Qed.

(** C6, as the code has it: every failure of the stream, a disconnect as
    well as an expired deadline, ends [readEvents] with that error; the reader
    goroutine logs it and offers the shutdown signal; a Session Loop at its
    [select] takes it, runs the shutdown and returns [ErrConnectionClosed],
    every blocked invocation with it; the signal, once offered, stays
    offered until a Session Loop takes it; and a Session Loop that comes to
    its [select] while the signal is offered takes it and shuts down the
    same. *)
Theorem io_failure_shuts_down s e :
  (∀ rest, reader s = R_read → reads s = inr e :: rest →
     step RunReader s = Some (set_reader (R_failed e) (set_reads rest s))) ∧
  (∀ t ds, reader s = R_deadline → Timeout (opts s) = Some t → deadlines s = Some e :: ds →
     step RunReader s
     = Some (set_reader (R_failed e) (log (log_deadline_failed e) (set_deadlines ds s)))) ∧
  (reachable s → reader s = R_failed e → start s = S_select →
   ∃ ks s',
     run ([RunReader; Select FromReader] ++ replicate (2 * size (requests s) + 5) RunStart) s
     = Some s' ∧
     reader s' = R_exit ∧
     start s' = S_returned ErrConnectionClosed ∧
     state s' = ConnClosed ∧ conn_closed s' = true ∧
     closed (notification s') = true ∧ closed (events s') = true ∧
     trace s' = trace s ++ [LLog (log_reader_failed e); LShutdown FromReader] ++ shutdown_labels ks ∧
     ks ≡ₚ (map_to_list (requests s)).*1 ∧
     ∀ k, invokers s !! k = Some I_wait →
          invokers s' !! k = Some (I_finished (inr ErrConnectionClosed))) ∧
  (reader s = R_shutdown →
   ∀ m s', step m s = Some s' →
     reader s' = R_shutdown ∨ (m = Select FromReader ∧ reader s' = R_exit ∧ start s' = S_store)) ∧
  (reachable s → reader s = R_shutdown → start s = S_select →
   ∃ ks s',
     run (Select FromReader :: replicate (2 * size (requests s) + 5) RunStart) s = Some s' ∧
     reader s' = R_exit ∧
     start s' = S_returned ErrConnectionClosed ∧
     state s' = ConnClosed ∧ conn_closed s' = true ∧
     closed (notification s') = true ∧ closed (events s') = true ∧
     trace s' = trace s ++ [LShutdown FromReader] ++ shutdown_labels ks ∧
     ks ≡ₚ (map_to_list (requests s)).*1 ∧
     ∀ k, invokers s !! k = Some I_wait →
          invokers s' !! k = Some (I_finished (inr ErrConnectionClosed))).
Proof.
  split_and!; cycle 3.
  { intros Hpc m s' Hs. step_cases Hs; auto; congruence. }
  { intros Hreach Hpc Hst.
    set (s2 := set_start S_store (emit (LShutdown FromReader) (set_reader R_exit s))).
    assert (step (Select FromReader) s = Some s2) as H2.
    { cbn [step]. unfold Start_select. by rewrite Hst, Hpc. }
    assert (reachable s2) as Hreach2 by eauto using reachable_step.
    destruct (shutdown_completes s2 Hreach2)
      as (ks & s' & Hrun & Hpc' & Hstate & Hconn & Hsink & Hqueue & Htr & Hperm & Hreq & Hinv);
      [done|].
    exists ks, s'. split_and!; try done.
    + rewrite run_cons, H2. cbn [mbind option_bind]. exact Hrun.
    + by rewrite (blocked_frame_reader _ _ _ Hrun).
    + rewrite Htr. simpl. by rewrite <- !app_assoc.
    + intros k Hk. rewrite Hinv. unfold signalled. rewrite decide_True; [done|].
      rewrite Hperm. apply list_elem_of_fmap. exists (k, new_request k). split; [done|].
      apply elem_of_map_to_list. simpl.
      destruct (req_inv_reachable s Hreach) as [Ht _ _]. by rewrite Ht, Hk. }
  - intros rest Hpc Hr. cbn [step]. unfold reader_goroutine, readEvents. by rewrite Hpc, Hr.
  - intros t ds Hpc Ht Hd. cbn [step]. unfold reader_goroutine, readEvents. by rewrite Hpc, Ht, Hd.
  - intros Hreach Hpc Hst.
    set (s1 := set_reader R_shutdown (log (log_reader_failed e) s)).
    set (s2 := set_start S_store (emit (LShutdown FromReader) (set_reader R_exit s1))).
    assert (step RunReader s = Some s1) as H1.
    { cbn [step]. unfold reader_goroutine, readEvents. by rewrite Hpc. }
    assert (step (Select FromReader) s1 = Some s2) as H2.
    { cbn [step]. unfold Start_select. simpl. by rewrite Hst. }
    assert (reachable s2) as Hreach2 by eauto using reachable_step.
    destruct (shutdown_completes s2 Hreach2)
      as (ks & s' & Hrun & Hpc' & Hstate & Hconn & Hsink & Hqueue & Htr & Hperm & Hreq & Hinv);
      [done|].
    exists ks, s'. split_and!; try done.
    + rewrite run_app. cbn [app]. rewrite run_cons, H1. cbn [mbind option_bind].
      rewrite run_cons, H2. cbn [mbind option_bind]. exact Hrun.
    + by rewrite (blocked_frame_reader _ _ _ Hrun).
    + rewrite Htr. simpl. by rewrite <- !app_assoc.
    + intros k Hk. rewrite Hinv. unfold signalled. rewrite decide_True; [done|].
      rewrite Hperm. apply list_elem_of_fmap. exists (k, new_request k). split; [done|].
      apply elem_of_map_to_list. simpl.
      destruct (req_inv_reachable s Hreach) as [Ht _ _]. by rewrite Ht, Hk.
Qed.

(* ===================================================================== *)
(** ** The Session Loop *)
(* ===================================================================== *)

Lemma returned_snoc tr l :
  returned (tr ++ [l]) = returned tr ++ match l with LReturn e => [e] | _ => [] end.
Proof. unfold returned. rewrite omap_app. by destruct l. Qed.

(** [Start] returns once at most, and the trace has the value it returned. *)
Lemma returned_reachable s :
  reachable s → returned (trace s) = returns_at (start s).
Proof.
  revert s. apply reachable_ind.
  - done.
  - intros m s s' Hr IH H.
    step_cases H; rewrite ?returned_snoc; simpl; rewrite ?app_nil_r;
      try match goal with
          | E : start _ = _ |- _ => rewrite E in IH; clear E
          end; try done.
    all: by rewrite IH.
Qed.

(** C9: whenever [Start] has returned, the value it returned is
    [ErrConnectionClosed]: it is the only value [Start] ever returns in an
    execution; and whether the shutdown comes from a [Stop] or from the
    reader goroutine, [Start] goes through its shutdown branch to that
    return. *)
Theorem Start_returns_ErrConnectionClosed s :
  reachable s →
  (∀ e, start s = S_returned e → e = ErrConnectionClosed) ∧
  (∀ e, e ∈ returned (trace s) → e = ErrConnectionClosed) ∧
  (∀ c s1, c ≠ FromEvents → step (Select c) s = Some s1 →
     ∃ ks s', run (replicate (2 * size (requests s) + 5) RunStart) s1 = Some s' ∧
       start s' = S_returned ErrConnectionClosed ∧
       returned (trace s') = [ErrConnectionClosed] ∧
       trace s' = trace s ++ [LShutdown c] ++ shutdown_labels ks).
Proof.
  intros Hr. pose proof (ci_ret s (ctrl_inv_reachable s Hr)) as Hret. split_and!.
  - exact Hret.
  - intros e. rewrite (returned_reachable s Hr).
    destruct (start s) eqn:Hpc; simpl; intros Hin; try by apply elem_of_nil in Hin.
    apply list_elem_of_singleton in Hin as ->. by apply Hret.
  - intros c s1 Hc Hs. pose proof (reachable_step _ _ _ Hr Hs) as Hr1.
    assert (start s1 = S_store ∧ requests s1 = requests s ∧
            trace s1 = trace s ++ [LShutdown c]) as (Hpc & Hreq & Htr).
    { unfold_step Hs. repeat case_match; by simplify_eq/=. }
    destruct (shutdown_completes s1 Hr1 Hpc)
      as (ks & s' & Hrun & Hpc' & _ & _ & _ & _ & Htr' & _).
    exists ks, s'. rewrite <- Hreq. split_and!; try done.
    + rewrite (returned_reachable s' (reachable_run _ _ _ Hr1 Hrun)). by rewrite Hpc'.
    + rewrite Htr', Htr. by rewrite <- app_assoc.
Qed.

(** C7: a Notification the Session Loop receives goes to the send on
    [c.notification] and nowhere else: the table is neither read nor changed,
    the send is the only thing [Start] can do next, and it appends the event
    to the sink as soon as the sink has room; over a whole execution the
    notifications received are the ones forwarded, in order, and no event
    delivered on a request is a notification. *)
Theorem notification_forwarded_unmatched s event rest :
  reachable s → start s = S_select → buf (events s) = event :: rest →
  Type' event = EventTypeNotification →
  ∃ s1, step (Select FromEvents) s = Some s1 ∧
    s1 = set_start (S_notify event) (emit (LRecv event) (set_events (pop (events s)) s)) ∧
    (∀ c, step (Select c) s1 = None) ∧
    (step RunStart s1
     = if decide (length (buf (notification s)) < chan_cap)%nat
       then Some (set_start S_select
                    (emit (LNotify event) (set_notification (push event (notification s)) s1)))
       else None) ∧
    filter (λ ev, Type' ev = EventTypeNotification) (received (trace s1))
    = notified (trace s1) ++ [event] ∧
    Forall (λ ev, Type' ev ≠ EventTypeNotification) (delivered (trace s1)).
Proof.
  intros Hr Hpc Hb Ht.
  assert (step (Select FromEvents) s
          = Some (set_start (S_notify event)
                    (emit (LRecv event) (set_events (pop (events s)) s)))) as H1.
  { cbn [step]. unfold Start_select. rewrite Hpc, Hb. by rewrite decide_True. }
  eexists. split; [exact H1|]. split; [done|].
  pose proof (reachable_step _ _ _ Hr H1) as Hr1.
  destruct (ctrl_inv_reachable _ Hr) as [_ _ C3 _ _ _ _ _ _ _].
  rewrite Hpc in C3. simpl in C3. split_and!.
  - by intros [].
  - cbn [step]. unfold Start_step. simpl. by rewrite C3.
  - by destruct (hist_inv_reachable _ Hr1).
  - by destruct (match_inv_reachable _ Hr1).
Qed.

(** C1, as the code has it: a Response the Session Loop receives is looked
    up by its invoke id; when a request is registered under that id the event
    is delivered on the [eventChan] of that request, to the invocation that
    waits on it; when none is, the event is dropped: [Start] is back at its
    [select], and nothing is logged. *)
Theorem response_matched_or_dropped s event :
  reachable s →
  (∀ rest, start s = S_select → buf (events s) = event :: rest →
     Type' event = EventTypeResponse →
     step (Select FromEvents) s
     = Some (set_start (S_lookup event) (emit (LRecv event) (set_events (pop (events s)) s)))) ∧
  (start s = S_lookup event →
     step RunStart s
     = match requests s !! InvokeID event with
       | Some r => Some (set_start (S_deliver r event) (emit (LLookup (InvokeID event) true) s))
       | None => Some (set_start S_select (emit (LLookup (InvokeID event) false) s))
       end ∧
     (requests s !! InvokeID event = None →
      ∀ s', step RunStart s = Some s' →
        start s' = S_select ∧ logged (trace s') = logged (trace s) ∧
        delivered (trace s') = delivered (trace s) ∧ invokers s' = invokers s)) ∧
  (∀ r, start s = S_deliver r event →
     r = new_request (InvokeID event) ∧
     requests s !! InvokeID event = Some r ∧
     ∃ s', step RunStart s = Some s' ∧
       start s' = S_select ∧
       trace s' = trace s ++ [LDeliver (InvokeID event) event] ∧
       invokers s' !! InvokeID event = Some (I_finished (inl event))).
Proof.
  intros Hr. split_and!.
  - intros rest Hpc Hb Ht. cbn [step]. unfold Start_select. rewrite Hpc, Hb.
    rewrite decide_False; [done|]. by rewrite Ht.
  - intros Hpc.
    assert (step RunStart s
            = match requests s !! InvokeID event with
              | Some r => Some (set_start (S_deliver r event) (emit (LLookup (InvokeID event) true) s))
              | None => Some (set_start S_select (emit (LLookup (InvokeID event) false) s))
              end) as H1.
    { cbn [step]. unfold Start_step. rewrite Hpc. by destruct (requests s !! InvokeID event). }
    split; [exact H1|]. intros Hn s' Hs. rewrite H1, Hn in Hs. simplify_eq. simpl.
    rewrite logged_snoc, delivered_snoc. simpl. by rewrite !app_nil_r.
  - intros r Hpc. destruct (req_inv_reachable s Hr) as [Ht Hd _].
    destruct (Hd r event Hpc) as [-> Hw]. split; [done|]. split.
    { by rewrite Ht, Hw. }
    eexists. split.
    { cbn [step]. unfold Start_step, complete. rewrite Hpc. simpl. by rewrite Hw. }
    simpl. by rewrite lookup_insert_eq.
Qed.

(* ===================================================================== *)
(** ** Client construction *)
(* ===================================================================== *)

(** While the reader goroutine has failed before queueing anything, the
    receive of [NewClient] stays blocked. *)
Lemma NewClient_blocked_forever sched : ∀ s s',
  newclient s = N_recv → start s = S_idle → buf (events s) = [] →
  (reader s = R_shutdown ∨ ∃ e, reader s = R_failed e) →
  run sched s = Some s' →
  newclient s' = N_recv.
Proof.
  induction sched as [|m sched IH]; intros s s' Hn Hst Hb Hrd Hrun.
  - simpl in Hrun. by simplify_eq.
  - rewrite run_cons in Hrun. destruct (step m s) as [s1|] eqn:Hs; [|done].
    cbn [mbind option_bind] in Hrun.
    assert (client_ready s = false) as Hnr by (unfold client_ready; by rewrite Hn).
    apply (IH s1 s'); [..|done]; clear IH Hrun.
    all: destruct m; unfold_step Hs; try rewrite Hnr in Hs; try rewrite Hn in Hs;
      try rewrite Hst in Hs; try rewrite Hb in Hs; try done.
    all: destruct Hrd as [Hrd|[e Hrd]]; try rewrite Hrd in Hs;
      repeat case_match; simplify_eq/=; eauto.
Qed.

(** After a failed handshake nobody holds the client: [Start] is never
    called and the connection is never closed. *)
Lemma conn_left_open sched : ∀ s s' e,
  newclient s = N_returned false e → start s = S_idle → conn_closed s = false →
  run sched s = Some s' →
  conn_closed s' = false.
Proof.
  induction sched as [|m sched IH]; intros s s' e Hn Hst Hc Hrun.
  - simpl in Hrun. by simplify_eq.
  - rewrite run_cons in Hrun. destruct (step m s) as [s1|] eqn:Hs; [|done].
    cbn [mbind option_bind] in Hrun.
    assert (client_ready s = false) as Hnr by (unfold client_ready; by rewrite Hn).
    apply (IH s1 s' e); [..|done]; clear IH Hrun.
    all: step_cases Hs; congruence.
Qed.

(** C2, as the code has it: when the first event [NewClient] receives is not
    an AGTSTART start event, construction fails: [NewClient] logs the refusal
    and returns no client and [ErrHelloNotReceived]; and in every execution in
    which [NewClient] has returned, the event it received is the first one the
    reader queued, and when that event is not an AGTSTART start event what
    [NewClient] returned is no client and [ErrHelloNotReceived]. *)
Theorem NewClient_handshake_failure s :
  (∀ event rest,
     newclient s = N_recv → buf (events s) = event :: rest →
     Keyword event ≠ "AGTSTART" ∨ IsStart event = false →
     ∃ s', step RunNewClient s = Some s' ∧
       newclient s' = N_returned false (Some ErrHelloNotReceived) ∧
       client_ready s' = false ∧
       trace s' = trace s ++ [LHandshake event; LLog log_no_hello]) ∧
  (reachable s → ∀ c err, newclient s = N_returned c err →
     ∃ first rest,
       pushed (trace s) = first :: rest ∧ handshaken (trace s) = [first] ∧
       (Keyword first ≠ "AGTSTART" ∨ IsStart first = false →
        c = false ∧ err = Some ErrHelloNotReceived ∧ client_ready s = false)).
Proof.
  split.
  - intros event rest Hn Hb Hbad.
    assert (negb (Keyword event =? "AGTSTART")%string || negb (IsStart event) = true) as Hc.
    { apply orb_true_iff. destruct Hbad as [Hk| ->]; [left|by right].
      apply negb_true_iff, String.eqb_neq. done. }
    eexists. split.
    { cbn [step]. unfold NewClient. by rewrite Hn, Hb, Hc. }
    simpl. by rewrite <- app_assoc.
  - intros Hr c err Hn.
    destruct (hist_inv_reachable s Hr) as [I1 I2 _ _ _ _].
    destruct (ctrl_inv_reachable s Hr) as [_ _ _ _ _ _ _ _ _ C10].
    rewrite Hn in I2. destruct I2 as (first & Hh & Hgood).
    exists first, (received (trace s) ++ buf (events s)).
    rewrite I1, Hh. split_and!; try done.
    intros Hbad. destruct (C10 c err Hn) as [[-> ->]|[-> ->]].
    + destruct (Hgood eq_refl) as [Hk Hs]. destruct Hbad; congruence.
    + unfold client_ready. by rewrite Hn.
Qed.

(** C10: once [NewClient] has returned the client, the first event the
    reader queued is the one [NewClient] received, an AGTSTART start event;
    that receive comes before anything the Session Loop or a subscriber does;
    what the Session Loop received, what it forwarded to the sink and what the
    subscribers got are all taken, in order, from the events queued after that
    first one. *)
Theorem handshake_event_not_forwarded s :
  reachable s → client_ready s = true →
  ∃ first rest,
    pushed (trace s) = first :: rest ∧
    handshaken (trace s) = [first] ∧
    Keyword first = "AGTSTART" ∧ IsStart first = true ∧
    hello_first (trace s) = true ∧
    received (trace s) `prefix_of` rest ∧
    notified (trace s) `prefix_of` filter (λ ev, Type' ev = EventTypeNotification) rest ∧
    consumed (trace s) `prefix_of` notified (trace s).
Proof.
  intros Hr Hc. destruct (hist_inv_reachable s Hr) as [I1 I2 I3 I4 I5 I6].
  unfold client_ready in Hc. destruct (newclient s) as [|[] []]; try done.
  destruct I2 as (first & Hh & Hk). destruct (Hk eq_refl) as [Hkw Hst].
  exists first, (received (trace s) ++ buf (events s)). rewrite I1, Hh.
  split_and!; try done.
  - by eexists.
  - rewrite filter_app, I4, <- app_assoc. by eexists.
  - rewrite I5. by eexists.
Qed.

(* ===================================================================== *)
(** ** The Connection State *)
(* ===================================================================== *)

(** A move changes [c.state] only at the store of [Start]. *)
Lemma state_changes_at_store m s s' :
  step m s = Some s' → state s' ≠ state s →
  m = RunStart ∧ start s = S_store ∧ state s' = ConnClosed.
Proof.
  intros H Hne. step_cases H.
Qed.

(** Once Closed, the state stays Closed. *)
Lemma closed_state_stays sched : ∀ s s',
  state s = ConnClosed → run sched s = Some s' → state s' = ConnClosed.
Proof.
  induction sched as [|m sched IH]; intros s s' Hc Hrun.
  - simpl in Hrun. by simplify_eq.
  - rewrite run_cons in Hrun. destruct (step m s) as [s1|] eqn:Hs; [|done].
    cbn [mbind option_bind] in Hrun. apply (IH s1 s'); [|done].
    destruct (decide (state s1 = state s)) as [->|Hne]; [done|].
    by destruct (state_changes_at_store _ _ _ Hs Hne) as (_ & _ & ?).
Qed.

(** A command refused because the state is Closed is never registered later. *)
Lemma refused_stays_out sched : ∀ s s' k,
  state s = ConnClosed → (∃ res, invokers s !! k = Some (I_finished res)) →
  requests s !! k = None →
  run sched s = Some s' →
  state s' = ConnClosed ∧ (∃ res, invokers s' !! k = Some (I_finished res)) ∧
  requests s' !! k = None.
Proof.
  induction sched as [|m sched IH]; intros s s' k Hst [res Hk] Hreq Hrun.
  - simpl in Hrun. simplify_eq. eauto.
  - rewrite run_cons in Hrun. destruct (step m s) as [s1|] eqn:Hs; [|done].
    cbn [mbind option_bind] in Hrun.
    apply (IH s1 s' k); [..|done]; clear IH Hrun.
    + destruct (decide (state s1 = state s)) as [->|Hne]; [done|].
      by destruct (state_changes_at_store _ _ _ Hs Hne) as (_ & _ & ?).
    + step_cases Hs; eauto.
      all: rewrite lookup_insert;
        match goal with |- context [decide (?a = ?b)] => destruct (decide (a = b)) as [Heq|] end;
        eauto; congruence.
    + step_cases Hs; eauto.
      * rewrite lookup_delete. by case_decide.
      * rewrite lookup_delete. by case_decide.
      * rewrite lookup_insert.
        match goal with |- context [decide (?a = ?b)] => destruct (decide (a = b)) as [Heq|] end;
          [congruence|done].
Qed.

(** The Connection State, a command caught between its check and its
    registration apart: in every execution the state is [ConnOK] or
    [ConnClosed]; the only move that changes it is the store of the Session
    Loop, from [ConnOK] to [ConnClosed]; and once it is [ConnClosed] it stays
    so, and a command issued then, under an invoke id no pending command
    holds, returns [ErrConnectionClosed] at once, is not registered, and is
    never registered later. *)
Theorem connection_state_one_way s :
  reachable s →
  (state s = ConnOK ∨ state s = ConnClosed) ∧
  (∀ m s', step m s = Some s' → state s' ≠ state s →
     m = RunStart ∧ start s = S_store ∧ state s = ConnOK ∧ state s' = ConnClosed) ∧
  (state s = ConnClosed →
     (∀ sched s', run sched s = Some s' → state s' = ConnClosed) ∧
     (∀ k, invokers s !! k ≠ Some I_checked → invokers s !! k ≠ Some I_wait →
        ∃ s', step (CallInvoke k) s = Some s' ∧
          invokers s' !! k = Some (I_finished (inr ErrConnectionClosed)) ∧
          requests s' = requests s ∧
          trace s' = trace s ++ [LRefused k] ∧
          ∀ sched s'', run sched s' = Some s'' →
            requests s'' !! k = None ∧ ∃ res, invokers s'' !! k = Some (I_finished res))).
Proof.
  intros Hr. pose proof (ctrl_inv_reachable s Hr) as [C1 _ _ _ _ _ C7 _ _ _].
  split_and!.
  - rewrite C1. destruct (stored (start s)); auto.
  - intros m s' Hs Hne. destruct (state_changes_at_store _ _ _ Hs Hne) as (-> & Hpc & Hc).
    split_and!; try done. rewrite C1, Hpc. done.
  - intros Hc. split.
    + intros sched. induction sched as [|m sched IH] using rev_ind; intros s' Hrun.
      * simpl in Hrun. by simplify_eq.
      * apply run_snoc in Hrun as (s1 & Hrun & Hs). specialize (IH s1 Hrun).
        destruct (decide (state s' = state s1)) as [->|Hne]; [done|].
        by destruct (state_changes_at_store _ _ _ Hs Hne) as (_ & _ & ?).
    + intros k Hk1 Hk2.
      assert (client_ready s = true) as Hready.
      { apply C7. intros Hidle. rewrite Hidle, Hc in C1. discriminate C1. }
      assert (requests s !! k = None) as Hreq.
      { destruct (req_inv_reachable s Hr) as [Ht _ _]. rewrite Ht.
        by destruct (invokers s !! k) as [[]|]. }
      eexists. split.
      { cbn [step]. unfold invoke_call. rewrite Hready, decide_True by done.
        by destruct (invokers s !! k) as [[]|]. }
      simpl. rewrite lookup_insert_eq. split_and!; try done.
      intros sched s'' Hrun.
      eapply refused_stays_out in Hrun as (_ & ? & ?); simpl; eauto.
      rewrite lookup_insert_eq. eauto.
Qed.

(* ===================================================================== *)
(** ** The stream, end to end *)
(* ===================================================================== *)

(** Induction over the executions on one stream. *)
Lemma run_from_ind (P : State → Prop) o ds rs :
  P (init o ds rs) →
  (∀ m s s', reachable s → P s → step m s = Some s' → P s') →
  ∀ sched s, run sched (init o ds rs) = Some s → P s.
Proof.
  intros Hinit Hstep sched.
  induction sched as [|m sched IH] using rev_ind; intros s H.
  - simpl in H. simplify_eq. apply Hinit.
  - apply run_snoc in H as (s1 & H1 & H2).
    eapply Hstep; [|by apply IH|done]. by exists o, ds, rs, sched.
Qed.

Lemma buf_size_pos : (0 < buf_size)%nat.
Proof. unfold buf_size. lia. Qed.

Lemma chunks_fuel_enough n : ∀ m data,
  (length data ≤ n)%nat → (length data ≤ m)%nat →
  chunks_fuel n data = chunks_fuel m data.
Proof.
  pose proof buf_size_pos as Hpos.
  induction n as [|n IH]; intros [|m] data Hn Hm; cbn [chunks_fuel]; try done.
  - rewrite decide_True by lia. done.
  - rewrite decide_True by lia. done.
  - case_decide; [done|]. f_equal. apply IH; rewrite length_drop; lia.
Qed.

Lemma chunks_short data :
  (length data ≤ buf_size)%nat → chunks data = [take buf_size data].
Proof.
  intros Hl. unfold chunks. destruct (length data) as [|n] eqn:Hn; cbn [chunks_fuel];
    rewrite <- ?Hn; [done|]. rewrite decide_True by lia. done.
Qed.

Lemma chunks_long data :
  ¬ (length data ≤ buf_size)%nat →
  chunks data = take buf_size data :: chunks (drop buf_size data).
Proof.
  intros Hl. pose proof buf_size_pos as Hpos.
  unfold chunks at 1. destruct (length data) as [|n] eqn:Hn; cbn [chunks_fuel];
    rewrite <- ?Hn; [lia|]. rewrite decide_False by lia. f_equal.
  apply chunks_fuel_enough; rewrite length_drop; lia.
Qed.

Lemma after_read_long data rest :
  ¬ (length data ≤ buf_size)%nat → after_read data rest = inl (drop buf_size data) :: rest.
Proof. intros. unfold after_read. by rewrite decide_False. Qed.

Lemma expand_cons_inl data rest :
  expand (inl data :: rest) = (inl <$> chunks data) ++ expand rest.
Proof. reflexivity. Qed.

Lemma expand_read data rest :
  expand (inl data :: rest) = inl (take buf_size data) :: expand (after_read data rest).
Proof.
  destruct (decide (length data ≤ buf_size)%nat) as [Hl|Hl].
  - rewrite expand_cons_inl, (chunks_short _ Hl), (after_read_short _ _ Hl). reflexivity.
  - rewrite expand_cons_inl, (chunks_long _ Hl), (after_read_long _ _ Hl), expand_cons_inl.
    rewrite fmap_cons, <- app_comm_cons. reflexivity.
Qed.

Lemma expected_read data rest :
  expected decodeEvent (inl data :: rest)
  = match last (take buf_size data) with
    | None => []
    | Some b =>
        (if is_terminator b
         then match decodeEvent (string_of_list_byte (take buf_size data)) with
              | inl event => [event]
              | inr _ => []
              end
         else []) ++ expected decodeEvent (after_read data rest)
    end.
Proof. unfold expected. rewrite expand_read. done. Qed.

Lemma expected_error e rest : expected decodeEvent (inr e :: rest) = [].
Proof. done. Qed.

(** The events queued, the event in hand and the events of the stream ahead
    are the events of the stream the execution began with. *)
Lemma frames_inv_run o ds rs sched s :
  run sched (init o ds rs) = Some s → frames_inv decodeEvent rs s.
Proof.
  revert sched s. apply run_from_ind; [done|].
  intros m s s' _ IH H.
  step_cases H; unfold frames_inv, reader_todo in *; simpl;
    rewrite ?pushed_snoc; simpl; rewrite ?app_nil_r;
    repeat match goal with
           | E : reader _ = _ |- _ => rewrite E in *; clear E
           | E : reads _ = _ |- _ => rewrite E in *; clear E
           end; simpl in *; try done.
  all: try rewrite expected_read in IH.
  all: repeat match goal with
           | E : last _ = _ |- _ => rewrite E in *; clear E
           | E : is_terminator _ = _ |- _ => rewrite E in *; clear E
           | E : decodeEvent _ = _ |- _ => rewrite E in *; clear E
           end; simpl in *; rewrite ?app_nil_r in *; try done.
  all: try (rewrite IH; by eexists).
  all: try (rewrite IH; by rewrite <- app_assoc).
  all: rewrite IH; first [reflexivity | by apply prefix_app_r].
Qed.

Lemma pushed_prefix_expected o ds rs sched s :
  run sched (init o ds rs) = Some s →
  pushed (trace s) `prefix_of` expected decodeEvent rs.
Proof.
  intros H. apply frames_inv_run in H. unfold frames_inv in H.
  destruct (reader_todo decodeEvent s); [|done]. rewrite H. by apply prefix_app_r.
Qed.

(** X1: the events the reader queues are, in the order of the stream, the
    events of its complete records that decode, as far as the reader has
    come: a chunk that does not end in ETX or ETB and a record that does not
    decode give nothing, nothing is queued twice or out of order, and nothing
    is queued after the first error or empty read of the stream.  While
    [readEvents] runs, the events queued, the event in hand and the events of
    the stream still to be read are all the events of the stream; so once the
    reader has read the stream to its end or to its first error, every event
    of the stream is in the queue or has been taken from it. *)
Theorem readEvents_queues_the_frames o ds rs sched s :
  run sched (init o ds rs) = Some s →
  pushed (trace s) `prefix_of` expected decodeEvent rs ∧
  (∀ todo, reader_todo decodeEvent s = Some todo →
     expected decodeEvent rs = pushed (trace s) ++ todo) ∧
  (reader s = R_read → reads s = [] → pushed (trace s) = expected decodeEvent rs) ∧
  (∀ e rest, reader s = R_read → reads s = inr e :: rest →
     pushed (trace s) = expected decodeEvent rs).
Proof.
  intros H. split; [by eapply pushed_prefix_expected|].
  apply frames_inv_run in H. unfold frames_inv in H. split_and!.
  - intros todo Ht. by rewrite Ht in H.
  - intros Hpc Hr. unfold reader_todo in H. rewrite Hpc, Hr in H.
    by rewrite app_nil_r in H.
  - intros e rest Hpc Hr. unfold reader_todo in H. rewrite Hpc, Hr in H.
    by rewrite expected_error, app_nil_r in H.
Qed.

(** X2: from the stream to the subscribers.  Of the events of the stream,
    the first is the one [NewClient] receives and the others are the ones
    [Start] receives, in the order of the stream; what [Start] forwards and
    what the subscribers of [Notifications] get are, in that same order, the
    notifications among those others.  So a subscriber never sees the first
    event, never sees an event that is not a notification, and sees the
    notifications in the order the server sent them. *)
Theorem subscribers_get_stream_notifications o ds rs sched s :
  run sched (init o ds rs) = Some s →
  handshaken (trace s) `prefix_of` take 1 (expected decodeEvent rs) ∧
  received (trace s) `prefix_of` tail (expected decodeEvent rs) ∧
  notified (trace s)
    `prefix_of` filter (λ ev, Type' ev = EventTypeNotification)
                  (tail (expected decodeEvent rs)) ∧
  consumed (trace s)
    `prefix_of` filter (λ ev, Type' ev = EventTypeNotification)
                  (tail (expected decodeEvent rs)).
Proof.
  intros H.
  assert (reachable s) as Hr by (by exists o, ds, rs, sched).
  destruct (pushed_prefix_expected _ _ _ _ _ H) as [k Hk].
  destruct (hist_inv_reachable s Hr) as [I1 I2 I3 I4 I5 _].
  destruct (ctrl_inv_reachable s Hr) as [_ _ _ _ _ _ C7 _ _ _].
  rewrite I1 in Hk. rewrite Hk. clear Hk.
  destruct (newclient s) as [|c err] eqn:Hn.
  - assert (start s = S_idle) as Hidle.
    { destruct (decide (start s = S_idle)) as [|Hne]; [done|].
      specialize (C7 Hne). unfold client_ready in C7. by rewrite Hn in C7. }
    rewrite I2, (I3 Hidle) in *. rewrite Hidle in I4. simpl in I4.
    symmetry in I4. apply app_eq_nil in I4 as [I4 _]. rewrite I4 in *.
    symmetry in I5. apply app_eq_nil in I5 as [I5 _]. rewrite I5.
    split_and!; apply prefix_nil.
  - destruct I2 as (first & -> & _). simpl. rewrite take_0, <- !app_assoc.
    assert (notified (trace s)
              `prefix_of` filter (λ ev, Type' ev = EventTypeNotification)
                            (received (trace s) ++ buf (events s) ++ k)) as Hnot.
    { rewrite filter_app, I4, <- app_assoc. by apply prefix_app_r. }
    split_and!.
    + done.
    + by apply prefix_app_r.
    + done.
    + etrans; [|exact Hnot]. rewrite I5. by apply prefix_app_r.
Qed.

(* ===================================================================== *)
(** ** The channels and the shutdown, over whole executions *)
(* ===================================================================== *)

(** X3: neither [c.events] nor [c.notification] ever holds more than the
    128 events it was made for: the reader and [Start] wait at their sends
    when the channel is full. *)
Theorem channels_within_capacity s :
  reachable s →
  (length (buf (events s)) ≤ chan_cap)%nat ∧
  (length (buf (notification s)) ≤ chan_cap)%nat.
Proof.
  revert s. apply reachable_ind.
  - intros o ds rs. simpl. unfold chan_cap. lia.
  - intros m s s' _ IH H.
    step_cases H; destruct IH as [I1 I2]; simpl;
      repeat match goal with
             | E : buf _ = _ |- _ => rewrite E in *; clear E
             end;
      rewrite ?length_app; simpl in *; lia.
Qed.

Lemma shutdown_view_snoc tr l :
  shutdown_view (tr ++ [l]) = shutdown_view tr ++ if is_shutdown_label l then [l] else [].
Proof.
  unfold shutdown_view. rewrite filter_app. f_equal.
  destruct (is_shutdown_label l) eqn:Hl.
  - by rewrite filter_cons_True.
  - rewrite filter_cons_False; [done|]. by rewrite Hl.
Qed.

(** The shutdown statements in the trace are the ones [Start] has behind it. *)
Lemma shutdown_inv_reachable s : reachable s → shutdown_inv s.
Proof.
  revert s. apply reachable_ind.
  - done.
  - intros m s s' Hr IH H.
    pose proof (ri_done s (req_inv_reachable s Hr)) as Hdone.
    destruct (ctrl_inv_reachable s Hr) as [_ _ C3 C4 _ _ _ _ _ _].
    step_cases H; unfold shutdown_inv in *; simpl;
      rewrite ?shutdown_view_snoc; simpl; rewrite ?app_nil_r;
      repeat match goal with
             | E : start _ = _ |- _ => rewrite E in *; clear E
             end; try done; try (simpl in *; congruence).
    + exists FromReader. by rewrite IH.
    + exists FromStop. by rewrite IH.
    + destruct IH as (c & ? & ->). eauto.
    + destruct IH as (c & ? & ->). eauto.
    + destruct IH as (c & ? & ->). eauto.
    + destruct IH as (c & ? & ->). split; [constructor|]. eauto.
    + destruct IH as (Hnd & c & ? & Hv).
      match goal with
      | E : next_unvisited _ _ = Some _ |- _ => apply next_unvisited_Some in E as [_ E]
      end.
      split; [by constructor|]. eauto.
    + destruct IH as (Hnd & c & ? & ->).
      exists c, (reverse visited). split_and!; [done|by rewrite reverse_Permutation|].
      unfold shutdown_labels. simpl. by rewrite <- ?app_assoc.
    + destruct IH as (Hnd & c & ? & ->).
      destruct (Hdone _ _ _ eq_refl) as [-> _]. simpl.
      split; [done|]. exists c. split; [done|].
      rewrite reverse_cons, fmap_app. simpl. by rewrite <- ?app_assoc.
Qed.

(** X4: over a whole execution the shutdown of [Start] runs once at most,
    and its statements run in the order of the source: one receive on
    [c.shutdown], never more, then the store of [ConnClosed], the close of
    the connection, the close of [c.notification], the close of [c.events],
    the [done] signals, each to another request, and the return of
    [ErrConnectionClosed].  None of them has run while [Start] is in its loop,
    and when [Start] has returned all of them have. *)
Theorem shutdown_runs_once_in_order s :
  reachable s →
  ∃ c ks, c ≠ FromEvents ∧ NoDup ks ∧
    shutdown_view (trace s) `prefix_of` LShutdown c :: shutdown_labels ks ∧
    (shutdown_view (trace s) = [] ↔ left_select (start s) = false) ∧
    (∀ e, start s = S_returned e →
       shutdown_view (trace s) = LShutdown c :: shutdown_labels ks).
Proof.
  intros Hr. pose proof (shutdown_inv_reachable s Hr) as H.
  pose proof (ci_nopanic s (ctrl_inv_reachable s Hr)) as Hnp.
  unfold shutdown_inv in H. unfold shutdown_labels.
  destruct (start s) eqn:Hpc; simpl; try done.
  1-5: exists FromStop, []; rewrite H; split_and!;
         [done|constructor|apply prefix_nil|done|done].
  - destruct H as (c & ? & ->). exists c, []. split_and!; try done; [constructor|].
    by apply (prefix_app_r [_] [_]).
  - destruct H as (c & ? & ->). exists c, []. split_and!; try done; [constructor|].
    by apply (prefix_app_r [_; _] [_; _]).
  - destruct H as (c & ? & ->). exists c, []. split_and!; try done; [constructor|].
    by apply (prefix_app_r [_; _; _] [_; _; _]).
  - destruct H as (c & ? & ->). exists c, []. split_and!; try done; [constructor|].
    by apply (prefix_app_r [_; _; _; _] [_; _; _; _]).
  - destruct H as (Hnd & c & ? & ->). exists c, (reverse visited).
    split_and!; try done; [by rewrite reverse_Permutation|].
    exists [LReturn ErrConnectionClosed]. simpl. by rewrite <- ?app_assoc.
  - destruct H as (Hnd & c & ? & ->). exists c, (reverse visited).
    apply NoDup_cons in Hnd as [_ Hnd].
    split_and!; try done; [by rewrite reverse_Permutation|].
    exists [LReturn ErrConnectionClosed]. simpl. by rewrite <- ?app_assoc.
  - destruct H as (c & ks & ? & ? & ->). exists c, ks. split_and!; done.
Qed.

(** X5: the flags of the client close in one order, whatever the other
    goroutines do meanwhile: when [c.events] is closed [c.notification] is,
    when [c.notification] is closed the connection is, when the connection is
    closed the Connection State is [ConnClosed]; so a subscriber that finds
    [Notifications] closed finds the state Closed.  And [Start] never
    panics: it closes no channel twice and sends on no closed channel. *)
Theorem shutdown_flags_ordered s :
  reachable s →
  (closed (events s) = true → closed (notification s) = true) ∧
  (closed (notification s) = true → conn_closed s = true) ∧
  (conn_closed s = true → state s = ConnClosed) ∧
  (state s = ConnClosed → left_select (start s) = true) ∧
  (left_select (start s) = false →
     state s = ConnOK ∧ conn_closed s = false ∧
     closed (notification s) = false ∧ closed (events s) = false) ∧
  start s ≠ S_panic.
Proof.
  intros Hr. destruct (ctrl_inv_reachable s Hr) as [C1 C2 C3 C4 C5 _ _ _ _ _].
  rewrite C1, C2, C3, C4. destruct (start s); simpl; split_and!; done.
Qed.

Lemma stop_calls_cons m sched :
  stop_calls (m :: sched) = ((if decide (m = CallStop) then 1 else 0) + stop_calls sched)%nat.
Proof. unfold stop_calls. rewrite filter_cons. by case_decide. Qed.

(** X6: [Start], called once, receives on [c.shutdown] once.  Once it has
    taken a shutdown signal, every later send on [c.shutdown] blocks for
    ever: a [Stop] that was pending stays pending, every [Stop] called from
    then on is one more caller blocked, and a reader goroutine that reports
    its failure then never gets past its send. *)
Theorem Stop_after_shutdown_blocks sched : ∀ s s',
  left_select (start s) = true → run sched s = Some s' →
  left_select (start s') = true ∧
  stops s' = (stops s + stop_calls sched)%nat ∧
  (reader s = R_shutdown → reader s' = R_shutdown).
Proof.
  induction sched as [|m sched IH]; intros s s' Hl Hrun.
  - simpl in Hrun. simplify_eq. unfold stop_calls. simpl. split_and!; [done|lia|done].
  - rewrite run_cons in Hrun. destruct (step m s) as [s1|] eqn:Hs; [|done].
    cbn [mbind option_bind] in Hrun.
    assert (left_select (start s1) = true ∧
            stops s1 = (stops s + if decide (m = CallStop) then 1 else 0)%nat ∧
            (reader s = R_shutdown → reader s1 = R_shutdown)) as (A & B & C).
    { step_cases Hs;
        repeat match goal with
               | E : start _ = _ |- _ => rewrite E in *; clear E
               end; simpl in *; try done; split_and!; try done; try lia; congruence. }
    destruct (IH s1 s' A Hrun) as (A' & B' & C').
    split_and!; [done| |auto]. rewrite B', B, stop_calls_cons. lia.
Qed.

Lemma done_sent_snoc tr l :
  done_sent (tr ++ [l]) = done_sent tr ++ match l with LDone k => [k] | _ => [] end.
Proof. unfold done_sent. rewrite omap_app. by destruct l. Qed.

(** X7: once [Start] has returned, the client processes nothing any more:
    [Start] stays returned, the state stays [ConnClosed], [c.events] is
    closed and keeps the events that were queued and not yet received, which
    nobody will ever receive; no event is queued, received, forwarded or
    delivered and no [done] signal is sent, whatever the other goroutines
    do. *)
Theorem nothing_processed_after_return sched : ∀ s s' e,
  reachable s → start s = S_returned e → run sched s = Some s' →
  start s' = S_returned e ∧ state s' = ConnClosed ∧
  events s' = events s ∧ closed (events s') = true ∧
  closed (notification s') = true ∧
  pushed (trace s') = pushed (trace s) ∧
  received (trace s') = received (trace s) ∧
  notified (trace s') = notified (trace s) ∧
  delivered (trace s') = delivered (trace s) ∧
  done_sent (trace s') = done_sent (trace s).
Proof.
  induction sched as [|m sched IH]; intros s s' e Hr Hpc Hrun.
  - simpl in Hrun. simplify_eq.
    destruct (ctrl_inv_reachable s' Hr) as [C1 _ C3 C4 _ _ _ _ _ _].
    rewrite Hpc in *. by split_and!.
  - rewrite run_cons in Hrun. destruct (step m s) as [s1|] eqn:Hs; [|done].
    cbn [mbind option_bind] in Hrun.
    pose proof (reachable_step _ _ _ Hr Hs) as Hr1.
    destruct (ctrl_inv_reachable s Hr) as [_ _ _ C4 _ _ C7 _ _ _].
    rewrite Hpc in C4, C7. simpl in C4. specialize (C7 ltac:(done)).
    unfold client_ready in C7.
    assert (start s1 = S_returned e ∧ events s1 = events s ∧
            pushed (trace s1) = pushed (trace s) ∧
            received (trace s1) = received (trace s) ∧
            notified (trace s1) = notified (trace s) ∧
            delivered (trace s1) = delivered (trace s) ∧
            done_sent (trace s1) = done_sent (trace s)) as (A & B & P1 & P2 & P3 & P4 & P5).
    { step_cases Hs;
        rewrite ?pushed_snoc, ?received_snoc, ?notified_snoc, ?delivered_snoc, ?done_sent_snoc;
        simpl; rewrite ?app_nil_r; try done; try congruence.
      all: match goal with
           | E : newclient _ = _ |- _ => by rewrite E in C7
           end. }
    destruct (IH s1 s' e Hr1 A Hrun) as (? & ? & ? & ? & ? & ? & ? & ? & ? & ?).
    split_and!; try done; congruence.
Qed.

(** A reader goroutine that has panicked goes no further. *)
Lemma panicked_reader_stays sched : ∀ s s',
  reader s = R_panic → run sched s = Some s' →
  reader s' = R_panic ∧ pushed (trace s') = pushed (trace s).
Proof.
  induction sched as [|m sched IH]; intros s s' Hpc Hrun.
  - simpl in Hrun. by simplify_eq.
  - rewrite run_cons in Hrun. destruct (step m s) as [s1|] eqn:Hs; [|done].
    cbn [mbind option_bind] in Hrun.
    assert (reader s1 = R_panic ∧ pushed (trace s1) = pushed (trace s)) as [A B].
    { step_cases Hs; rewrite ?pushed_snoc; simpl; rewrite ?app_nil_r; try done; congruence. }
    destruct (IH s1 s' A Hrun) as [? ?]. split; congruence.
Qed.

(** X8: the reader and the shutdown race on [c.events].  When the reader has
    decoded an event and is about to queue it while [Start] is at its
    [select], a [Stop] that [Start] takes first makes [Start] close
    [c.events], and the send of the reader then panics, a send on a closed
    channel; the event is never queued. *)
Theorem reader_panics_on_closed_queue s event :
  reachable s → reader s = R_send event → start s = S_select →
  ∃ s', run ([CallStop; Select FromStop] ++ replicate 4 RunStart ++ [RunReader]) s = Some s' ∧
    reader s' = R_panic ∧
    start s' = S_drain [] ∧
    closed (events s') = true ∧
    buf (events s') = buf (events s) ∧
    pushed (trace s') = pushed (trace s) ∧
    ∀ sched s'', run sched s' = Some s'' →
      reader s'' = R_panic ∧ pushed (trace s'') = pushed (trace s).
Proof.
  intros Hr Hpc Hst.
  destruct (ctrl_inv_reachable s Hr) as [_ _ C3 C4 _ _ C7 _ _ _].
  rewrite Hst in C3, C4, C7. simpl in C3, C4. specialize (C7 ltac:(done)).
  set (s1 := set_stops (S (stops s)) s).
  set (s2 := set_start S_store (emit (LShutdown FromStop) (set_stops (stops s) s1))).
  set (s3 := set_start S_conn_close (emit (LStore ConnClosed) (set_state ConnClosed s2))).
  set (s4 := set_start S_close_notification (emit LConnClose (set_conn_closed true s3))).
  set (s5 := set_start S_close_events
               (emit LCloseNotification (set_notification (close (notification s4)) s4))).
  set (s6 := set_start (S_drain []) (emit LCloseEvents (set_events (close (events s5)) s5))).
  set (s7 := set_reader R_panic s6).
  assert (step CallStop s = Some s1) as H1.
  { cbn [step]. unfold Stop. by rewrite C7. }
  assert (step (Select FromStop) s1 = Some s2) as H2.
  { cbn [step]. unfold Start_select. simpl. by rewrite Hst. }
  assert (step RunStart s2 = Some s3) as H3 by done.
  assert (step RunStart s3 = Some s4) as H4 by done.
  assert (step RunStart s4 = Some s5) as H5.
  { cbn [step]. unfold Start_step. simpl. by rewrite C3. }
  assert (step RunStart s5 = Some s6) as H6.
  { cbn [step]. unfold Start_step. simpl. by rewrite C4. }
  assert (step RunReader s6 = Some s7) as H7.
  { cbn [step]. unfold reader_goroutine, readEvents. simpl. by rewrite Hpc. }
  assert (pushed (trace s7) = pushed (trace s)) as Hp.
  { simpl. rewrite !pushed_snoc. simpl. by rewrite !app_nil_r. }
  exists s7. split_and!; try done.
  - cbn [app replicate].
    rewrite run_cons, H1; cbn [mbind option_bind].
    rewrite run_cons, H2; cbn [mbind option_bind].
    rewrite run_cons, H3; cbn [mbind option_bind].
    rewrite run_cons, H4; cbn [mbind option_bind].
    rewrite run_cons, H5; cbn [mbind option_bind].
    rewrite run_cons, H6; cbn [mbind option_bind].
    rewrite run_cons, H7; cbn [mbind option_bind]. done.
  - intros sched s'' Hrun. rewrite <- Hp.
    by apply (panicked_reader_stays sched s7 s'').
Qed.

(** The subscribers empty the sink. *)
Lemma drain_sink n : ∀ s,
  client_ready s = true → length (buf (notification s)) = n →
  ∃ s', run (replicate n RunConsumer) s = Some s' ∧
    buf (notification s') = [] ∧
    closed (notification s') = closed (notification s) ∧
    consumed (trace s') = consumed (trace s) ++ buf (notification s) ∧
    notified (trace s') = notified (trace s).
Proof.
  induction n as [|n IH]; intros s Hc Hl.
  - exists s. destruct (buf (notification s)) eqn:Hb; [|done].
    split_and!; try done. by rewrite app_nil_r.
  - destruct (buf (notification s)) as [|event l] eqn:Hb; [done|].
    set (s1 := emit (LConsume event) (set_notification (pop (notification s)) s)).
    assert (step RunConsumer s = Some s1) as H1.
    { cbn [step]. unfold Notifications_recv. by rewrite Hc, Hb. }
    destruct (IH s1) as (s' & Hrun & A & B & C & D).
    { done. }
    { unfold s1. simpl. rewrite Hb. simpl in *. lia. }
    exists s'. split_and!; try done.
    + cbn [replicate]. by rewrite run_cons, H1.
    + rewrite C. unfold s1. simpl. rewrite consumed_snoc, Hb. simpl.
      by rewrite <- app_assoc.
    + rewrite D. unfold s1. simpl. rewrite notified_snoc. simpl. by rewrite app_nil_r.
Qed.

(** X9: the close of [c.notification] loses no notification.  Whatever
    [Start] has forwarded and no subscriber has received yet is still in the
    channel, before the shutdown as after it, and the subscribers can receive
    all of it: after as many receives as the channel holds events, the
    subscribers have got every notification [Start] ever forwarded, in the
    order it forwarded them. *)
Theorem subscribers_can_drain s :
  reachable s → client_ready s = true →
  notified (trace s) = consumed (trace s) ++ buf (notification s) ∧
  ∃ s', run (replicate (length (buf (notification s))) RunConsumer) s = Some s' ∧
    buf (notification s') = [] ∧
    closed (notification s') = closed (notification s) ∧
    consumed (trace s') = notified (trace s) ∧
    notified (trace s') = notified (trace s).
Proof.
  intros Hr Hc. pose proof (hi_consumed _ _ (hist_inv_reachable s Hr)) as Hn.
  split; [done|].
  destruct (drain_sink _ s Hc eq_refl) as (s' & Hrun & A & B & C & D).
  exists s'. split_and!; try done. by rewrite C, Hn.
Qed.

(* ===================================================================== *)
(** ** How the reader goroutine ends *)
(* ===================================================================== *)

Lemma elem_of_after_read r data rest :
  r ∈ after_read data rest →
  r ∈ rest ∨ (r = inl (drop buf_size data) ∧ (buf_size < length data)%nat).
Proof.
  unfold after_read. case_decide; [by left|].
  intros [->|?]%elem_of_cons; [right|by left]. split; [done|lia].
Qed.

Lemma last_take_None (data : list byte) : last (take buf_size data) = None → data = [].
Proof.
  intros H. apply last_None in H. destruct data as [|b data]; [done|].
  pose proof buf_size_pos. destruct buf_size; [lia|done].
Qed.

Lemma elem_of_snoc_log (e : LogEntry) tr l :
  LLog e ∈ tr ++ [l] ↔ LLog e ∈ tr ∨ l = LLog e.
Proof.
  rewrite elem_of_app, list_elem_of_singleton.
  split; (intros [H|H]; [by left|by right]).
Qed.

Lemma log_reader_failed_inj e e' : log_reader_failed e = log_reader_failed e' → e = e'.
Proof. unfold log_reader_failed. intros H. repeat case_decide; by simplify_eq. Qed.

Lemma log_reader_failed_Message e :
  Message (log_reader_failed e) = "EOF received!"
  ∨ Message (log_reader_failed e) = "Error received!".
Proof. unfold log_reader_failed. case_decide; auto. Qed.

(** The labels of one move that are entries of the reader goroutine on the
    end of [readEvents]. *)
Ltac log_cases Hin :=
  rewrite ?elem_of_snoc_log in Hin;
  repeat match type of Hin with
         | _ ∨ _ => destruct Hin as [Hin|Hin]
         end;
  try discriminate Hin;
  try (exfalso; injection Hin as Hin;
       match type of Hin with
       | _ = log_reader_failed ?e =>
           destruct (log_reader_failed_Message e) as [Hm|Hm];
           rewrite <- Hin in Hm; discriminate Hm
       | log_reader_failed ?e = _ =>
           destruct (log_reader_failed_Message e) as [Hm|Hm];
           rewrite Hin in Hm; discriminate Hm
       | _ => discriminate Hin
       end).

Lemma script_inv_run o ds rs sched s :
  run sched (init o ds rs) = Some s → script_inv o ds rs s.
Proof.
  revert sched s. apply run_from_ind.
  - split; simpl; try done. intros e Hin. by apply elem_of_nil in Hin.
    intros e Hin. by apply elem_of_nil in Hin.
  - intros m s s' _ IH H.
    step_cases H; destruct IH as [I1 I2 I3 I4 I5 I6 I7 I8 I9]; split; simpl;
      try done; try congruence.
    all: repeat match goal with
           | E : reader _ = _ |- _ => rewrite E in *; clear E
           | E : reads _ = _ |- _ => rewrite E in *; clear E
           | E : deadlines _ = _ |- _ => rewrite E in *; clear E
           end.
    all: try (let e' := fresh "e" in let Hin := fresh "Hin" in
              intros e' Hin; log_cases Hin; eauto; fail).
    all: try (let e' := fresh "e" in let Hin := fresh "Hin" in
              intros e' Hin; apply elem_of_after_read in Hin as [Hin|[Hin _]];
              [apply I2; by right|done]).
    all: try (intros Hin; apply elem_of_after_read in Hin as [Hin|[Hin Hlen]];
              [apply I3; by right|];
              injection Hin as Hin; symmetry in Hin; apply drop_nil_inv in Hin; lia).
    all: try (intros; apply I2; by right).
    all: try (intros; apply I3; by right).
    all: try (etrans; [|exact I4]; by apply suffix_cons_r).
    all: try (intros Hn; rewrite I1, Hn in *; done).
    all: try (intros; simplify_eq; left; apply I2; left; fail).
    all: try (intros; simplify_eq; right; split;
              [congruence|];
              destruct I4 as [k ->]; apply elem_of_app; right; left; fail).
    all: try (intros _; by left).
    all: try (intros _; right; apply I3;
              match goal with
              | E : last (take buf_size _) = None |- _ => apply last_take_None in E as ->
              end; left; fail).
    + intros e' Hin. log_cases Hin; eauto. injection Hin as <-. split; [congruence|].
      destruct I4 as [k ->]. apply elem_of_app. right. left.
    + intros e' Hin. log_cases Hin; eauto. injection Hin as Hin.
      apply log_reader_failed_inj in Hin as <-. by apply I6.
Qed.

(** The reader goroutine is past [readEvents] only after it has logged the
    error [readEvents] returned. *)
Lemma reported_reachable s :
  reachable s → reader s = R_shutdown ∨ reader s = R_exit →
  ∃ e, LLog (log_reader_failed e) ∈ trace s.
Proof.
  revert s.
  apply (reachable_ind (λ s, reader s = R_shutdown ∨ reader s = R_exit →
                             ∃ e, LLog (log_reader_failed e) ∈ trace s)).
  - intros o ds rs [?|?]; done.
  - intros m s s' _ IH H.
    step_cases H; intros [Hpc|Hpc]; try done; try congruence.
    all: try (destruct IH as [e' He]; [auto; fail|]; exists e';
              rewrite ?elem_of_snoc_log; auto; fail).
    all: try (eexists; apply elem_of_snoc_log; by right).
    all: destruct IH as [e' He]; [left; congruence|]; exists e';
      rewrite ?elem_of_snoc_log; auto.
Qed.

(** X10: the reader goroutine panics in two situations only: a [Read] that
    returns no bytes and no error, where [buf[n-1]] is out of range, and a send
    on [c.events] after [Start] has closed it.  On a stream without an empty
    read the reader does not panic as long as [c.events] is open. *)
Theorem reader_panic_causes o ds rs sched s :
  run sched (init o ds rs) = Some s →
  (reader s = R_panic → closed (events s) = true ∨ inl [] ∈ rs) ∧
  ((∀ data, inl data ∈ rs → data ≠ []) → closed (events s) = false →
   reader s ≠ R_panic).
Proof.
  intros H. pose proof (si_panic _ _ _ _ (script_inv_run _ _ _ _ _ H)) as Hp.
  split; [done|]. intros Hne Hc Hpc.
  destruct (Hp Hpc) as [?|Hin]; [congruence|]. by apply Hne in Hin.
Qed.

Lemma reader_reports_snoc tr l :
  reader_reports (tr ++ [l])
  = reader_reports tr
    ++ match l with
       | LLog e =>
           if decide (Message e = "EOF received!" ∨ Message e = "Error received!")
           then [e] else []
       | _ => []
       end.
Proof.
  unfold reader_reports. rewrite logged_snoc, filter_app. f_equal.
  destruct l; try done; rewrite filter_cons, filter_nil; by case_decide.
Qed.

Lemma reader_reports_elem x tr : x ∈ reader_reports tr → LLog x ∈ tr.
Proof.
  unfold reader_reports, logged. intros [_ Hin]%list_elem_of_filter.
  apply list_elem_of_omap in Hin as (l & Hl & Hx). destruct l; by simplify_eq.
Qed.

(** The reports of the reader goroutine after a move: only the entry on the
    error of [readEvents] is one. *)
Ltac reports_simpl :=
  rewrite ?reader_reports_snoc;
  cbn [Message log_received log_decode_failed log_decoded log_deadline_failed
       log_no_hello newLogEntry];
  repeat match goal with
         | |- context [decide (Message (log_reader_failed ?e) = ?a
                               ∨ Message (log_reader_failed ?e) = ?b)] =>
             rewrite (decide_True (P := Message (log_reader_failed e) = a
                                        ∨ Message (log_reader_failed e) = b))
               by apply log_reader_failed_Message
         | |- context [decide (?p ∨ ?q)] =>
             rewrite (decide_False (P := p ∨ q)) by (intros [?|?]; discriminate)
         end;
  rewrite ?app_nil_r.

Lemma report_inv_reachable s : reachable s → report_inv s.
Proof.
  revert s. apply reachable_ind.
  - done.
  - intros m s s' _ IH H.
    step_cases H; unfold report_inv in *; simpl; reports_simpl;
      repeat match goal with
             | E : reader _ = _ |- _ => rewrite E in *; clear E
             end; simpl in *; try done.
    rewrite IH. eauto.
Qed.

(** Once [readEvents] has returned [e], what the goroutine reports is [e]. *)
Lemma reported_stays e sched : ∀ s s',
  reported e s → run sched s = Some s' → reported e s'.
Proof.
  induction sched as [|m sched IH]; intros s s' Hrep Hrun.
  - simpl in Hrun. by simplify_eq.
  - rewrite run_cons in Hrun. destruct (step m s) as [s1|] eqn:Hs; [|done].
    cbn [mbind option_bind] in Hrun. apply (IH s1 s'); [|done]. clear IH Hrun.
    step_cases Hs; unfold reported in *; simpl; reports_simpl;
      destruct Hrep as [[Hpc Hrp]|[[Hpc|Hpc] Hrp]]; try congruence; auto.
    right. split; [by left|]. rewrite Hrp. simpl. congruence.
Qed.

(** X11: the error [readEvents] returns is an error of the connection: the
    error of a [Read], or the error of a [SetDeadline] when a timeout is set;
    an error of [decodeEvent] never ends the reader.  The reader goroutine
    logs that same error: while [readEvents] runs, and when it has just
    returned, the goroutine has reported nothing; when [readEvents] has
    returned [e], the next step of the goroutine logs the entry of [e], and
    in every continuation the goroutine has reported nothing yet or has
    reported [e] and nothing else; and it is past [readEvents] only with that
    one report in the log. *)
Theorem readEvents_returns_connection_error o ds rs sched s :
  run sched (init o ds rs) = Some s →
  (∀ e, reader s = R_failed e → inr e ∈ rs ∨ (Timeout o ≠ None ∧ Some e ∈ ds)) ∧
  (∀ e, LLog (log_reader_failed e) ∈ trace s →
     inr e ∈ rs ∨ (Timeout o ≠ None ∧ Some e ∈ ds)) ∧
  (reader s = R_shutdown ∨ reader s = R_exit →
     ∃ e, reader_reports (trace s) = [log_reader_failed e] ∧
       LLog (log_reader_failed e) ∈ trace s ∧
       (inr e ∈ rs ∨ (Timeout o ≠ None ∧ Some e ∈ ds))) ∧
  (reader s ≠ R_shutdown → reader s ≠ R_exit → reader_reports (trace s) = []) ∧
  (∀ e, reader s = R_failed e →
     step RunReader s = Some (set_reader R_shutdown (log (log_reader_failed e) s)) ∧
     ∀ sched' s', run sched' s = Some s' →
       (reader s' = R_failed e ∧ reader_reports (trace s') = []) ∨
       ((reader s' = R_shutdown ∨ reader s' = R_exit) ∧
        reader_reports (trace s') = [log_reader_failed e])).
Proof.
  intros H. destruct (script_inv_run _ _ _ _ _ H) as [_ _ _ _ _ I6 I7 _ _].
  assert (reachable s) as Hr by (by exists o, ds, rs, sched).
  pose proof (report_inv_reachable s Hr) as Hrep. unfold report_inv in Hrep.
  assert (reader s ≠ R_shutdown → reader s ≠ R_exit → reader_reports (trace s) = [])
    as Hquiet by (by destruct (reader s)).
  split_and!; [done|done| |done|].
  - intros Hpc.
    assert (∃ e, reader_reports (trace s) = [log_reader_failed e]) as [e He]
      by (by destruct Hpc as [Hpc|Hpc]; rewrite Hpc in Hrep).
    assert (LLog (log_reader_failed e) ∈ trace s) as Hin.
    { apply reader_reports_elem. rewrite He. left. }
    exists e. auto.
  - intros e Hpc. split.
    { cbn [step]. unfold reader_goroutine. by rewrite Hpc. }
    intros sched' s' Hrun.
    apply (reported_stays e sched' s s'); [|done].
    left. split; [done|]. apply Hquiet; congruence.
Qed.

(** A reader goroutine that has failed before [NewClient] has received a
    first event offers its signal to nobody: [NewClient] stays at its
    receive, [Start] is never called, and nothing is shut down. *)
Lemma failure_before_hello_unheard sched : ∀ s s',
  newclient s = N_recv → start s = S_idle → buf (events s) = [] →
  (reader s = R_shutdown ∨ ∃ e, reader s = R_failed e) →
  run sched s = Some s' →
  newclient s' = N_recv ∧ start s' = S_idle ∧
  (reader s' = R_shutdown ∨ ∃ e, reader s' = R_failed e) ∧
  (reader s = R_shutdown → reader s' = R_shutdown) ∧
  state s' = state s ∧ conn_closed s' = conn_closed s ∧
  closed (notification s') = closed (notification s) ∧
  closed (events s') = closed (events s).
Proof.
  induction sched as [|m sched IH]; intros s s' Hn Hst Hb Hrd Hrun.
  - simpl in Hrun. by simplify_eq.
  - rewrite run_cons in Hrun. destruct (step m s) as [s1|] eqn:Hs; [|done].
    cbn [mbind option_bind] in Hrun.
    assert (client_ready s = false) as Hnr by (unfold client_ready; by rewrite Hn).
    assert (newclient s1 = N_recv ∧ start s1 = S_idle ∧ buf (events s1) = [] ∧
            (reader s1 = R_shutdown ∨ ∃ e, reader s1 = R_failed e) ∧
            (reader s = R_shutdown → reader s1 = R_shutdown) ∧
            state s1 = state s ∧ conn_closed s1 = conn_closed s ∧
            closed (notification s1) = closed (notification s) ∧
            closed (events s1) = closed (events s)) as (A & B & C & D & D' & E & F & G & K).
    { destruct m; unfold_step Hs; try rewrite Hnr in Hs; try rewrite Hn in Hs;
        try rewrite Hst in Hs; try rewrite Hb in Hs; try done.
      all: destruct Hrd as [Hrd|[e Hrd]]; try rewrite Hrd in Hs;
        repeat case_match; simplify_eq/=; split_and!; eauto. }
    destruct (IH s1 s' A B C D Hrun) as (? & ? & ? & ? & ? & ? & ? & ?).
    split_and!; try done; try congruence. auto.
Qed.

(** X12: a client made without [WithTimeout] never sets a deadline: the
    reader never calls [SetDeadline], so no result of it is used up and no
    failure of it is logged, and [readEvents] returns only on the error of a
    [Read]. *)
Theorem no_timeout_no_deadline o ds rs sched s :
  Timeout o = None → run sched (init o ds rs) = Some s →
  deadlines s = ds ∧
  (∀ e, LLog (log_deadline_failed e) ∉ trace s) ∧
  (∀ e, reader s = R_failed e → inr e ∈ rs).
Proof.
  intros Ht H. destruct (script_inv_run _ _ _ _ _ H) as [_ _ _ _ I5 I6 _ I8 _].
  split_and!.
  - by apply I5.
  - intros e Hin. by destruct (I8 e Hin).
  - intros e Hpc. by destruct (I6 e Hpc) as [?|[? _]].
Qed.

Lemma NewClient_options_snoc zero opts opt :
  NewClient_options zero (opts ++ [opt]) = opt (NewClient_options zero opts).
Proof. unfold NewClient_options. by rewrite fold_left_app. Qed.

(** X13: [NewClient] applies its options in the order they are given, so the
    last [WithTimeout] is the one that counts, whatever options come before
    it, and it leaves the log level alone; without options no timeout is
    set.  With a timeout set, the first thing the reader does is the
    [SetDeadline], and when that fails [readEvents] logs the error and returns
    it before any [Read]. *)
Theorem WithTimeout_sets_deadline zero opts timeout :
  Timeout (NewClient_options zero []) = None ∧
  Timeout (NewClient_options zero (opts ++ [WithTimeout timeout])) = Some timeout ∧
  OptLogLevel (NewClient_options zero (opts ++ [WithTimeout timeout]))
  = OptLogLevel (NewClient_options zero opts) ∧
  ∀ e ds rs,
    ∃ s', run [RunReader]
            (init (NewClient_options zero (opts ++ [WithTimeout timeout])) (Some e :: ds) rs)
          = Some s' ∧
      reader s' = R_failed e ∧ reads s' = rs ∧ deadlines s' = ds ∧
      trace s' = [LLog (log_deadline_failed e)].
Proof.
  rewrite NewClient_options_snoc. split_and!; try done.
  intros e ds rs. eexists. split.
  { cbn [run step]. unfold reader_goroutine, readEvents. simpl. reflexivity. }
  by split_and!.
Qed.

(* ===================================================================== *)
(** ** The log *)
(* ===================================================================== *)

Lemma entries_snoc msg tr l :
  entries msg (tr ++ [l])
  = entries msg tr ++ match l with
                      | LLog e => if decide (Message e = msg) then [e] else []
                      | _ => []
                      end.
Proof.
  unfold entries. rewrite logged_snoc, filter_app. f_equal.
  destruct l; try done; rewrite filter_cons, filter_nil; by case_decide.
Qed.

(** The entries of one message after a move: the labels of the move that are
    not entries, or entries of another message, add nothing. *)
Ltac entries_simpl :=
  rewrite ?entries_snoc; cbn [Message log_received log_decode_failed log_decoded
    log_deadline_failed log_no_hello newLogEntry];
  repeat match goal with
         | |- context [decide (Message (log_reader_failed ?e) = ?m)] =>
             rewrite (decide_False (P := Message (log_reader_failed e) = m))
               by (let Hm := fresh in
                   intros Hm; destruct (log_reader_failed_Message e) as [Hx|Hx];
                   rewrite Hx in Hm; discriminate Hm)
         | |- context [decide (?a = ?b)] =>
             first [rewrite (decide_True (P := a = b)) by reflexivity
                   |rewrite (decide_False (P := a = b)) by discriminate]
         end;
  rewrite ?app_nil_r.

Lemma hello_inv_reachable s : reachable s → hello_inv IsStart s.
Proof.
  revert s. apply reachable_ind.
  - done.
  - intros m s s' Hr IH H.
    pose proof (hi_hello _ _ (hist_inv_reachable s Hr)) as Hh.
    step_cases H; unfold hello_inv in *; simpl;
      rewrite ?handshaken_snoc; simpl; rewrite ?app_nil_r;
      entries_simpl;
      repeat match goal with
             | E : newclient _ = _ |- _ => rewrite E in *; clear E
             end; try done.
    + rewrite Hh, IH. eexists. split; [done|].
      destruct (String.eqb (Keyword e) "AGTSTART"), (IsStart e); simpl in *; done.
    + rewrite Hh. eexists. split; [done|].
      destruct (String.eqb (Keyword e) "AGTSTART"), (IsStart e); simpl in *; done.
Qed.

(** X14: [NewClient] hands out the client exactly when the first event the
    reader queued is an AGTSTART start event, and then it logs nothing; in
    every other case it returns no client and [ErrHelloNotReceived] and logs
    the refusal once.  No other event is looked at. *)
Theorem NewClient_returns_client_iff_hello s c err :
  reachable s → newclient s = N_returned c err →
  ∃ first,
    head (pushed (trace s)) = Some first ∧
    handshaken (trace s) = [first] ∧
    ((c = true ∧ err = None) ↔ (Keyword first = "AGTSTART" ∧ IsStart first = true)) ∧
    ((c = false ∧ err = Some ErrHelloNotReceived)
     ↔ ¬ (Keyword first = "AGTSTART" ∧ IsStart first = true)) ∧
    entries "Server cannot accept new clients!" (trace s)
    = (if c then [] else [log_no_hello]).
Proof.
  intros Hr Hn. pose proof (hello_inv_reachable s Hr) as H.
  pose proof (hi_queue _ _ (hist_inv_reachable s Hr)) as Hq.
  unfold hello_inv in H. rewrite Hn in H. destruct H as (first & Hh & H).
  exists first. rewrite Hq, Hh. split; [done|]. split; [done|].
  destruct (String.eqb (Keyword first) "AGTSTART") eqn:Hk;
    [apply String.eqb_eq in Hk|apply String.eqb_neq in Hk];
    destruct (IsStart first) eqn:Hs; simpl in H; destruct H as (-> & -> & ->);
    split_and!; try done; try (split; [done|intros [? ?]; congruence]);
    split; try done; try (intros _; intros [? ?]; congruence); intros []; done.
Qed.

Lemma log_inv_reachable s : reachable s → log_inv s.
Proof.
  revert s. apply reachable_ind.
  - intros o ds rs. split; [done|]. by exists [].
  - intros m s s' _ IH H.
    step_cases H; destruct IH as (I1 & pending & I2 & I3); unfold log_inv; simpl;
      entries_simpl; rewrite ?pushed_snoc; simpl; rewrite ?app_nil_r;
      repeat match goal with
             | E : reader _ = _ |- _ => rewrite E in *; clear E
             end; subst;
      rewrite ?length_app; simpl.
    all: try (split; [lia|]; eexists; split; [exact I2|]; simpl; done).
    all: try (split; [lia|]; exists []; rewrite app_nil_r in *; split; [|done];
              rewrite I2, ?fmap_app; done).
    all: try (split; [lia|]; eexists; split; [|reflexivity]; rewrite app_nil_r in I2;
              rewrite I2, ?fmap_app; done).
    split; [done|]. exists []. split; [done|]. simpl. lia.
Qed.

(** X15: the log of the reader agrees with its queue.  Every complete record
    logged as received is logged next as decoded or as failing to decode; the
    events logged as decoded are, in order, the events queued, then the one
    the reader holds at its send, if any; only an event lost to the panic of
    that send is logged and never queued. *)
Theorem decoded_log_matches_queue s :
  reachable s →
  (length (entries "Event has received." (trace s))
   = length (entries "Event has decoded." (trace s))
     + length (entries "Error while decoding an event!" (trace s)))%nat ∧
  ∃ pending,
    entries "Event has decoded." (trace s) = log_decoded <$> (pushed (trace s) ++ pending) ∧
    (length pending ≤ 1)%nat ∧
    (reader s ≠ R_panic → pending = in_hand (reader s)).
Proof.
  intros Hr. destruct (log_inv_reachable s Hr) as (I1 & pending & I2 & I3).
  split; [done|]. exists pending. split; [done|].
  destruct (reader s); subst; simpl; split; try done; lia.
Qed.

(* ===================================================================== *)
(** ** Backpressure *)
(* ===================================================================== *)

(** While [Start] waits at its send on a full sink and no subscriber
    receives, [Start] stays there. *)
Lemma blocked_on_full_sink event sched : ∀ s s',
  start s = S_notify event → closed (notification s) = false →
  length (buf (notification s)) = chan_cap →
  run sched s = Some s' → RunConsumer ∉ sched →
  start s' = S_notify event ∧ notification s' = notification s ∧
  stops s' = (stops s + stop_calls sched)%nat ∧
  state s' = state s ∧ conn_closed s' = conn_closed s ∧
  received (trace s') = received (trace s) ∧
  notified (trace s') = notified (trace s).
Proof.
  induction sched as [|m sched IH]; intros s s' Hpc Hc Hl Hrun Hno.
  - simpl in Hrun. simplify_eq. unfold stop_calls. simpl. split_and!; try done; lia.
  - rewrite run_cons in Hrun. destruct (step m s) as [s1|] eqn:Hs; [|done].
    cbn [mbind option_bind] in Hrun.
    assert (m ≠ RunConsumer) as Hm by (intros ->; apply Hno; left).
    assert (RunConsumer ∉ sched) as Hno' by (intros ?; apply Hno; by right).
    assert (start s1 = S_notify event ∧ notification s1 = notification s ∧
            stops s1 = (stops s + if decide (m = CallStop) then 1 else 0)%nat ∧
            state s1 = state s ∧ conn_closed s1 = conn_closed s ∧
            received (trace s1) = received (trace s) ∧
            notified (trace s1) = notified (trace s)) as (A & B & C & D & E & F & G).
    { step_cases Hs; rewrite ?received_snoc, ?notified_snoc; simpl; rewrite ?app_nil_r;
        split_and!; try done; try lia; try congruence.
      all: exfalso; unfold chan_cap in *; lia. }
    destruct (IH s1 s') as (A' & B' & C' & D' & E' & F' & G'); try done; try congruence.
    split_and!; try congruence. rewrite C', C, stop_calls_cons. lia.
Qed.

(** X16: a full sink holds [Start] back.  When [Start] has a notification to
    forward and [c.notification] holds 128 events, [Start] can do nothing:
    not the send, and no case of its [select], so neither a queued event nor
    a [Stop] nor the failure of the reader is taken, and the connection stays
    open and the state [ConnOK], until a subscriber receives.  One receive of
    a subscriber lets the send through, and [Start] is back at its
    [select]. *)
Theorem full_sink_blocks_Start s event :
  reachable s → start s = S_notify event →
  length (buf (notification s)) = chan_cap →
  step RunStart s = None ∧
  (∀ c, step (Select c) s = None) ∧
  (∀ sched s', run sched s = Some s' → RunConsumer ∉ sched →
     start s' = S_notify event ∧ notification s' = notification s ∧
     stops s' = (stops s + stop_calls sched)%nat ∧
     state s' = ConnOK ∧ conn_closed s' = false ∧
     received (trace s') = received (trace s) ∧
     notified (trace s') = notified (trace s)) ∧
  ∃ s', run [RunConsumer; RunStart] s = Some s' ∧
    start s' = S_select ∧
    notified (trace s') = notified (trace s) ++ [event] ∧
    length (buf (notification s')) = chan_cap.
Proof.
  intros Hr Hpc Hl.
  destruct (ctrl_inv_reachable s Hr) as [C1 C2 C3 _ _ _ C7 _ _ _].
  rewrite Hpc in C1, C2, C3, C7. simpl in C1, C2, C3. specialize (C7 ltac:(done)).
  split_and!.
  - cbn [step]. unfold Start_step. rewrite Hpc, C3.
    rewrite decide_False; [done|]. lia.
  - intros c. cbn [step]. unfold Start_select. by rewrite Hpc.
  - intros sched s' Hrun Hno.
    destruct (blocked_on_full_sink event sched s s') as (A & B & C & D & E & F & G);
      try done.
    split_and!; try done; congruence.
  - destruct (buf (notification s)) as [|first l] eqn:Hb.
    { unfold chan_cap in Hl. simpl in Hl. lia. }
    set (s1 := emit (LConsume first) (set_notification (pop (notification s)) s)).
    assert (step RunConsumer s = Some s1) as H1.
    { cbn [step]. unfold Notifications_recv. by rewrite C7, Hb. }
    assert (buf (notification s1) = l) as Hb1 by (unfold s1; simpl; by rewrite Hb).
    eexists. split.
    + rewrite run_cons, H1. cbn [mbind option_bind run step]. unfold Start_step.
      replace (start s1) with (S_notify event) by done.
      replace (closed (notification s1)) with false by done.
      rewrite Hb1, decide_True; [done|]. simpl in Hl. lia.
    + simpl. rewrite !notified_snoc. simpl. rewrite app_nil_r, Hb. simpl.
      rewrite length_app. simpl in *. split_and!; try done. lia.
Qed.

(* ===================================================================== *)
(** ** Nothing is lost on the way *)
(* ===================================================================== *)

Lemma weight_after_read data rest :
  (weight (after_read data rest) < weight (inl data :: rest))%nat.
Proof.
  pose proof buf_size_pos as Hpos.
  destruct (decide (length data ≤ buf_size)%nat) as [Hl|Hl].
  - rewrite (after_read_short _ _ Hl). cbn [weight]. lia.
  - rewrite (after_read_long _ _ Hl). cbn [weight]. rewrite length_drop. lia.
Qed.

(** The reader from the top of its loop to the end of the loop body. *)
Lemma reader_turn s data rest :
  reader s = R_deadline → deadlines s = [] → reads s = inl data :: rest →
  run [RunReader; RunReader] s
  = Some (on_chunk decodeEvent (take buf_size data)
            (set_reads (after_read data rest) (set_reader R_read s))).
Proof.
  intros Hpc Hd Hr.
  rewrite run_cons, readEvents_deadline_quiet by done. cbn [mbind option_bind].
  rewrite run_cons. erewrite readEvents_read by done. done.
Qed.

(** The reader alone, up to the first event of the stream in the queue. *)
Lemma reader_queues_first first tl n : ∀ s,
  (weight (reads s) < n)%nat →
  reader s = R_deadline → deadlines s = [] → events s = make →
  expected decodeEvent (reads s) = first :: tl →
  ∃ sched s', run sched s = Some s' ∧
    reader s' = R_deadline ∧ deadlines s' = [] ∧
    events s' = push first make ∧
    expected decodeEvent (reads s') = tl ∧
    pushed (trace s') = pushed (trace s) ++ [first] ∧
    handshaken (trace s') = handshaken (trace s) ∧
    received (trace s') = received (trace s) ∧
    consumed (trace s') = consumed (trace s) ∧
    (opts s', notification s', requests s', newclient s', start s')
    = (opts s, notification s, requests s, newclient s, start s).
Proof.
  induction n as [|n IH]; intros s Hw Hpc Hd Hev Hex; [lia|].
  destruct (reads s) as [|[data|e] rest] eqn:Hreads; [done| |done].
  rewrite expected_read in Hex.
  pose proof (reader_turn s data rest Hpc Hd Hreads) as Hturn.
  pose proof (weight_after_read data rest) as Hlt.
  destruct (on_chunk_cases (take buf_size data)
              (set_reads (after_read data rest) (set_reader R_read s)))
    as [(Hlast & Hoc)|[(b & Hlast & Hterm & Hoc)|[(b & err & Hlast & Hterm & Hdec & Hoc)
       |(b & ev & Hlast & Hterm & Hdec & Hoc)]]];
    rewrite Hoc in Hturn; clear Hoc; rewrite Hlast in Hex; [done|..];
    rewrite Hterm in Hex; rewrite ?Hdec in Hex; simpl in Hex.
  - destruct (IH (set_reader R_deadline
                    (set_reads (after_read data rest) (set_reader R_read s))))
      as (sched & s' & Hrun & H'); simpl; try done; [lia|].
    exists ([RunReader; RunReader] ++ sched), s'.
    split; [by rewrite run_app, Hturn|exact H'].
  - destruct (IH (set_reader R_deadline
                    (log (log_decode_failed err)
                       (log (log_received (string_of_list_byte (take buf_size data)))
                          (set_reads (after_read data rest) (set_reader R_read s))))))
      as (sched & s' & Hrun & H'); simpl; try done; [lia|].
    exists ([RunReader; RunReader] ++ sched), s'.
    split; [by rewrite run_app, Hturn|].
    simpl in H'.
    rewrite !pushed_snoc, !handshaken_snoc, !received_snoc, !consumed_snoc in H'.
    simpl in H'. by rewrite !app_nil_r in H'.
  - injection Hex as -> Hex.
    set (s1 := set_reader (R_send first)
                 (log (log_decoded first)
                    (log (log_received (string_of_list_byte (take buf_size data)))
                       (set_reads (after_read data rest) (set_reader R_read s))))) in *.
    set (s2 := set_reader R_deadline
                 (emit (LPush first) (set_events (push first (events s1)) s1))).
    assert (step RunReader s1 = Some s2) as H2.
    { cbn [step]. unfold reader_goroutine, readEvents, s2. simpl. rewrite Hev. simpl.
      rewrite ?decide_True by (unfold chan_cap; lia). done. }
    exists ([RunReader; RunReader] ++ [RunReader]), s2.
    split.
    { rewrite run_app, Hturn. cbn [mbind option_bind]. by rewrite run_cons, H2. }
    unfold s2, s1. simpl.
    rewrite !pushed_snoc, !handshaken_snoc, !received_snoc, !consumed_snoc. simpl.
    rewrite !app_nil_r, Hev. by split_and!.
Qed.

(** From a session at rest, a schedule that takes every event of the stream
    ahead through the queue, [Start], the sink and a subscriber, one at a
    time. *)
Lemma served_to_the_end n : ∀ s,
  (weight (reads s) < n)%nat → at_rest s →
  ∃ sched s', run sched s = Some s' ∧
    start s' = S_select ∧
    pushed (trace s') = pushed (trace s) ++ expected decodeEvent (reads s) ∧
    handshaken (trace s') = handshaken (trace s) ∧
    received (trace s') = received (trace s) ++ expected decodeEvent (reads s) ∧
    consumed (trace s')
    = consumed (trace s)
      ++ filter (λ ev, Type' ev = EventTypeNotification) (expected decodeEvent (reads s)).
Proof.
  induction n as [|n IH]; intros s Hw Hrest; [lia|].
  destruct Hrest as [Hpc Hd Hst Hready Hev Hsink Hreq].
  destruct (reads s) as [|[data|e] rest] eqn:Hreads.
  { exists [], s. simpl. split_and!; try done; by rewrite ?app_nil_r. }
  2:{ exists [], s. rewrite expected_error. simpl.
      split_and!; try done; by rewrite ?app_nil_r. }
  rewrite expected_read.
  pose proof (reader_turn s data rest Hpc Hd Hreads) as Hturn.
  pose proof (weight_after_read data rest) as Hlt.
  destruct (on_chunk_cases (take buf_size data)
              (set_reads (after_read data rest) (set_reader R_read s)))
    as [(Hlast & Hoc)|[(b & Hlast & Hterm & Hoc)|[(b & err & Hlast & Hterm & Hdec & Hoc)
       |(b & ev & Hlast & Hterm & Hdec & Hoc)]]];
    rewrite Hoc in Hturn; clear Hoc; rewrite Hlast; rewrite ?Hterm, ?Hdec.
  - exists [], s. simpl. split_and!; try done; by rewrite ?app_nil_r.
  - destruct (IH (set_reader R_deadline
                    (set_reads (after_read data rest) (set_reader R_read s))))
      as (sched & s' & Hrun & H'); simpl; [lia|by split|].
    exists ([RunReader; RunReader] ++ sched), s'.
    split; [by rewrite run_app, Hturn|exact H'].
  - destruct (IH (set_reader R_deadline
                    (log (log_decode_failed err)
                       (log (log_received (string_of_list_byte (take buf_size data)))
                          (set_reads (after_read data rest) (set_reader R_read s))))))
      as (sched & s' & Hrun & H'); simpl; [lia|by split|].
    exists ([RunReader; RunReader] ++ sched), s'.
    split; [by rewrite run_app, Hturn|].
    simpl in H'.
    rewrite !pushed_snoc, !handshaken_snoc, !received_snoc, !consumed_snoc in H'.
    simpl in H'. by rewrite !app_nil_r in H'.
  - set (s1 := set_reader (R_send ev)
                 (log (log_decoded ev)
                    (log (log_received (string_of_list_byte (take buf_size data)))
                       (set_reads (after_read data rest) (set_reader R_read s))))) in *.
    set (s2 := set_reader R_deadline
                 (emit (LPush ev) (set_events (push ev (events s1)) s1))).
    assert (step RunReader s1 = Some s2) as H2.
    { cbn [step]. unfold reader_goroutine, readEvents, s2. simpl. rewrite Hev. simpl.
      rewrite ?decide_True by (unfold chan_cap; lia). done. }
    destruct (decide (Type' ev = EventTypeNotification)) as [Hty|Hty].
    + set (s3 := set_start (S_notify ev)
                   (emit (LRecv ev) (set_events (pop (events s2)) s2))).
      set (s4 := set_start S_select
                   (emit (LNotify ev) (set_notification (push ev (notification s3)) s3))).
      set (s5 := emit (LConsume ev) (set_notification (pop (notification s4)) s4)).
      assert (step (Select FromEvents) s2 = Some s3) as H3.
      { cbn [step]. unfold Start_select, s3. simpl. rewrite Hst, Hev. simpl.
        by rewrite decide_True. }
      assert (step RunStart s3 = Some s4) as H4.
      { cbn [step]. unfold Start_step, s4. simpl. rewrite Hsink. simpl.
        rewrite ?decide_True by (unfold chan_cap; lia). done. }
      assert (step RunConsumer s4 = Some s5) as H5.
      { cbn [step]. unfold Notifications_recv, s5.
        replace (client_ready s4) with true by done. simpl. by rewrite Hsink. }
      destruct (IH s5) as (sched & s' & Hrun & Hs' & P1 & P2 & P3 & P4).
      { simpl. lia. }
      { split; simpl; try done; [by rewrite Hev|by rewrite Hsink]. }
      exists ([RunReader; RunReader] ++ [RunReader; Select FromEvents; RunStart; RunConsumer]
              ++ sched), s'.
      split.
      { rewrite run_app, Hturn. cbn [mbind option_bind]. rewrite run_app.
        rewrite run_cons, H2. cbn [mbind option_bind].
        rewrite run_cons, H3. cbn [mbind option_bind].
        rewrite run_cons, H4. cbn [mbind option_bind].
        rewrite run_cons, H5. done. }
      simpl in P1, P2, P3, P4.
      rewrite !pushed_snoc in P1. rewrite !handshaken_snoc in P2.
      rewrite !received_snoc in P3. rewrite !consumed_snoc in P4.
      simpl in P1, P2, P3, P4. rewrite ?app_nil_r in P1; rewrite ?app_nil_r in P2;
        rewrite ?app_nil_r in P3; rewrite ?app_nil_r in P4.
      rewrite filter_app, filter_cons_True, filter_nil by done.
      rewrite P1, P2, P3, P4, <- !app_assoc. by split_and!.
    + set (s3 := set_start (S_lookup ev)
                   (emit (LRecv ev) (set_events (pop (events s2)) s2))).
      set (s4 := set_start S_select (emit (LLookup (InvokeID ev) false) s3)).
      assert (step (Select FromEvents) s2 = Some s3) as H3.
      { cbn [step]. unfold Start_select, s3. simpl. rewrite Hst, Hev. simpl.
        by rewrite decide_False. }
      assert (step RunStart s3 = Some s4) as H4.
      { cbn [step]. unfold Start_step, s4. simpl. by rewrite Hreq, lookup_empty. }
      destruct (IH s4) as (sched & s' & Hrun & Hs' & P1 & P2 & P3 & P4).
      { simpl. lia. }
      { split; simpl; try done. by rewrite Hev. }
      exists ([RunReader; RunReader] ++ [RunReader; Select FromEvents; RunStart] ++ sched), s'.
      split.
      { rewrite run_app, Hturn. cbn [mbind option_bind]. rewrite run_app.
        rewrite run_cons, H2. cbn [mbind option_bind].
        rewrite run_cons, H3. cbn [mbind option_bind].
        rewrite run_cons, H4. done. }
      simpl in P1, P2, P3, P4.
      rewrite !pushed_snoc in P1. rewrite !handshaken_snoc in P2.
      rewrite !received_snoc in P3. rewrite !consumed_snoc in P4.
      simpl in P1, P2, P3, P4. rewrite ?app_nil_r in P1; rewrite ?app_nil_r in P2;
        rewrite ?app_nil_r in P3; rewrite ?app_nil_r in P4.
      rewrite filter_app, filter_cons_False, filter_nil by done.
      rewrite P1, P2, P3, P4, <- !app_assoc. by split_and!.
Qed.

(** X17: nothing is lost on the way.  On a stream that begins with an
    AGTSTART start event, with no [SetDeadline] failing and no command
    issued, there is a schedule under which [NewClient] hands out the client
    on the first event, the reader queues every event of the stream, [Start]
    receives every one after the first, and the subscribers receive every
    notification among those, in the order of the stream: what the
    subscribers can get at most, they do get when every goroutine is given
    its turn. *)
Theorem fair_schedule_delivers_all o rs first :
  head (expected decodeEvent rs) = Some first →
  Keyword first = "AGTSTART" → IsStart first = true →
  ∃ sched s, run sched (init o [] rs) = Some s ∧
    client_ready s = true ∧ start s = S_select ∧
    handshaken (trace s) = [first] ∧
    pushed (trace s) = expected decodeEvent rs ∧
    received (trace s) = tail (expected decodeEvent rs) ∧
    consumed (trace s)
    = filter (λ ev, Type' ev = EventTypeNotification) (tail (expected decodeEvent rs)).
Proof.
  intros Hhead Hk His.
  destruct (expected decodeEvent rs) as [|first' tl] eqn:Hex; [done|].
  injection Hhead as ->.
  destruct (reader_queues_first first tl (S (weight rs)) (init o [] rs))
    as (sched1 & s1 & Hrun1 & Hpc & Hd & Hev & Hex1 & P1 & P2 & P3 & P4 & Hfr);
    simpl; try done; [lia|].
  simpl in P1, P2, P3, P4, Hfr. injection Hfr as Ho Hsink Hreq Hn Hst.
  set (s2 := set_newclient (N_returned true None)
               (emit (LHandshake first) (set_events (pop (events s1)) s1))).
  set (s3 := set_start S_select s2).
  assert (step RunNewClient s1 = Some s2) as H2.
  { cbn [step]. unfold NewClient, s2. rewrite Hn, Hev. simpl.
    apply String.eqb_eq in Hk. by rewrite Hk, His. }
  assert (step CallStart s2 = Some s3) as H3.
  { cbn [step]. unfold Start_call, s3, s2. simpl. by rewrite Hst. }
  destruct (served_to_the_end (S (weight (reads s3))) s3)
    as (sched2 & s' & Hrun2 & Hs' & Q1 & Q2 & Q3 & Q4); [lia| |].
  { split; simpl; try done. by rewrite Hev. }
  exists (sched1 ++ [RunNewClient; CallStart] ++ sched2), s'.
  split.
  { rewrite run_app, Hrun1. cbn [mbind option_bind]. rewrite run_app.
    rewrite run_cons, H2. cbn [mbind option_bind]. by rewrite run_cons, H3. }
  assert (client_ready s' = true) as Hready.
  { assert (reachable s3) as Hr3.
    { exists o, [], rs, (sched1 ++ [RunNewClient; CallStart]).
      rewrite run_app, Hrun1. cbn [mbind option_bind].
      rewrite run_cons, H2. cbn [mbind option_bind]. by rewrite run_cons, H3. }
    apply (ci_ready s' (ctrl_inv_reachable s' (reachable_run _ _ _ Hr3 Hrun2))).
    by rewrite Hs'. }
  simpl in Q1, Q2, Q3, Q4.
  rewrite pushed_snoc in Q1. rewrite handshaken_snoc in Q2.
  rewrite received_snoc in Q3. rewrite consumed_snoc in Q4.
  simpl in Q1, Q2, Q3, Q4. rewrite ?app_nil_r in Q1; rewrite ?app_nil_r in Q2;
    rewrite ?app_nil_r in Q3; rewrite ?app_nil_r in Q4.
  rewrite P1 in Q1. rewrite P2 in Q2. rewrite P3 in Q3. rewrite P4 in Q4.
  rewrite Hex1 in Q1, Q3, Q4. simpl. by split_and!.
Qed.

(** A closed [c.events] stays closed. *)
Lemma closed_events_stays sched : ∀ s s',
  closed (events s) = true → run sched s = Some s' → closed (events s') = true.
Proof.
  induction sched as [|m sched IH]; intros s s' Hc Hrun.
  - simpl in Hrun. by simplify_eq.
  - rewrite run_cons in Hrun. destruct (step m s) as [s1|] eqn:Hs; [|done].
    cbn [mbind option_bind] in Hrun. apply (IH s1 s'); [|done].
    step_cases Hs.
Qed.

(** While the reader waits at its send on a full queue and nobody receives
    from the queue, the reader stays there. *)
Lemma blocked_on_full_queue event sched : ∀ s s',
  reader s = R_send event → length (buf (events s)) = chan_cap →
  run sched s = Some s' → closed (events s') = false →
  Select FromEvents ∉ sched → RunNewClient ∉ sched →
  reader s' = R_send event ∧ reads s' = reads s ∧
  buf (events s') = buf (events s) ∧ pushed (trace s') = pushed (trace s).
Proof.
  induction sched as [|m sched IH]; intros s s' Hpc Hl Hrun Hopen Hno1 Hno2.
  - simpl in Hrun. by simplify_eq.
  - rewrite run_cons in Hrun. destruct (step m s) as [s1|] eqn:Hs; [|done].
    cbn [mbind option_bind] in Hrun.
    assert (closed (events s) = false) as Hc.
    { destruct (closed (events s)) eqn:Hc; [|done].
      assert (run (m :: sched) s = Some s') as Hrun' by (by rewrite run_cons, Hs).
      by rewrite (closed_events_stays _ _ _ Hc Hrun') in Hopen. }
    assert (m ≠ Select FromEvents) as Hm1 by (intros ->; apply Hno1; left).
    assert (m ≠ RunNewClient) as Hm2 by (intros ->; apply Hno2; left).
    assert (reader s1 = R_send event ∧ reads s1 = reads s ∧
            buf (events s1) = buf (events s) ∧
            pushed (trace s1) = pushed (trace s)) as (A & B & C & D).
    { step_cases Hs; rewrite ?pushed_snoc; simpl; rewrite ?app_nil_r;
        split_and!; try done; try congruence.
      all: exfalso; unfold chan_cap in *; lia. }
    destruct (IH s1 s') as (A' & B' & C' & D'); try done; try congruence.
    + intros ?. apply Hno1. by right.
    + intros ?. apply Hno2. by right.
    + split_and!; congruence.
Qed.

(** X18: a full queue holds the reader back.  When the reader has an event
    to queue and [c.events] holds 128 events, the reader can take no step, so
    it reads nothing more from the connection, for as long as neither
    [NewClient] nor [Start] receives from the queue and the queue is open;
    one receive lets the send through, and the reader is back at the top of
    its loop with the event queued. *)
Theorem full_queue_blocks_reader s event :
  reader s = R_send event → closed (events s) = false →
  length (buf (events s)) = chan_cap →
  step RunReader s = None ∧
  (∀ sched s', run sched s = Some s' → closed (events s') = false →
     Select FromEvents ∉ sched → RunNewClient ∉ sched →
     reader s' = R_send event ∧ reads s' = reads s ∧
     buf (events s') = buf (events s) ∧ pushed (trace s') = pushed (trace s)) ∧
  (∀ m s1, m = RunNewClient ∨ m = Select FromEvents → step m s = Some s1 →
     ∃ s2, step RunReader s1 = Some s2 ∧
       reader s2 = R_deadline ∧
       pushed (trace s2) = pushed (trace s) ++ [event] ∧
       buf (events s2) = tail (buf (events s)) ++ [event]).
Proof.
  intros Hpc Hc Hl. split_and!.
  - cbn [step]. unfold reader_goroutine, readEvents. rewrite Hpc, Hc.
    rewrite decide_False; [done|]. lia.
  - intros sched s' Hrun Hopen Hno1 Hno2.
    by apply (blocked_on_full_queue event sched s s').
  - intros m s1 Hm Hs.
    assert (reader s1 = R_send event ∧ closed (events s1) = false ∧
            buf (events s1) = tail (buf (events s)) ∧
            pushed (trace s1) = pushed (trace s)) as (A & B & C & D).
    { destruct Hm as [-> | ->]; unfold_step Hs; repeat case_match; simplify_eq/=;
        rewrite ?pushed_snoc; simpl; rewrite ?app_nil_r; split_and!; try congruence.
      all: match goal with
           | E : buf _ = _ |- _ => by rewrite E
           end. }
    assert (length (buf (events s1)) < chan_cap)%nat as Hlt.
    { rewrite C. destruct (buf (events s)); simpl in *; unfold chan_cap in *; lia. }
    eexists. split.
    { cbn [step]. unfold reader_goroutine, readEvents. rewrite A, B.
      by rewrite decide_True. }
    simpl. rewrite pushed_snoc. simpl. rewrite C, D. done.
Qed.

End Properties.

(* ===================================================================== *)
(** ** Worked executions *)
(* ===================================================================== *)

Ltac by_running :=
  lazymatch goal with
  | |- ∀ _, _ => fail
  | |- _ => vm_compute; reflexivity
  end.

Ltac reached_by o ds rs sched :=
  exists o, ds, rs, sched; by_running.

(** C1, against the logging: [Start] has received the response with invoke
    id 7, no request is registered under 7; the lookup drops the event and
    the log is what it was before. *)
Lemma C1_counterexample :
  sample_run unmatched_sched unmatched_init = Some (state_after unmatched_sched unmatched_init) ∧
  start (state_after unmatched_sched unmatched_init) = S_lookup ev_response ∧
  Type' ev_response = EventTypeResponse ∧
  requests (state_after unmatched_sched unmatched_init) !! InvokeID ev_response = None ∧
  ∃ s', sample_run [RunStart] (state_after unmatched_sched unmatched_init) = Some s' ∧
    start s' = S_select ∧
    trace s' = trace (state_after unmatched_sched unmatched_init) ++ [LLookup 7 false] ∧
    logged (trace s') = logged (trace (state_after unmatched_sched unmatched_init)).
Proof.
  split_and!; try by_running.
  eexists. split_and!; by_running.
Qed.

(** C1 on the same state: the lookup of [Start] at work. *)
Lemma C1_witness :
  reachable sample_decodeEvent sample_IsStart (state_after unmatched_sched unmatched_init) ∧
  start (state_after unmatched_sched unmatched_init) = S_lookup ev_response ∧
  step sample_decodeEvent sample_IsStart RunStart (state_after unmatched_sched unmatched_init)
  = match requests (state_after unmatched_sched unmatched_init) !! InvokeID ev_response with
    | Some r =>
        Some (set_start (S_deliver r ev_response)
                (emit (LLookup (InvokeID ev_response) true)
                   (state_after unmatched_sched unmatched_init)))
    | None =>
        Some (set_start S_select
                (emit (LLookup (InvokeID ev_response) false)
                   (state_after unmatched_sched unmatched_init)))
    end.
Proof.
  assert (reachable sample_decodeEvent sample_IsStart
            (state_after unmatched_sched unmatched_init)) as Hr
    by reached_by no_timeout (@nil (option error))
         [inl rec_agtstart; @inl (list byte) error rec_response] unmatched_sched.
  assert (start (state_after unmatched_sched unmatched_init) = S_lookup ev_response) as Hpc
    by by_running.
  split; [exact Hr|]. split; [exact Hpc|].
  exact (proj1 (proj1 (proj2 (response_matched_or_dropped sample_decodeEvent sample_IsStart
                                 _ ev_response Hr)) Hpc)).
Defined.

(** C2, against the closed connection and against the failure without a
    first event: after a first event ERROR [NewClient] has returned
    [ErrHelloNotReceived] and the connection is open, and stays open in every
    continuation; after a stream that fails at once nothing was queued, the
    reader goroutine is blocked on [c.shutdown], and [NewClient] has not
    returned in any continuation. *)
Lemma C2_counterexample :
  (sample_run hello error_first_init = Some (state_after hello error_first_init) ∧
   handshaken (trace (state_after hello error_first_init)) = [ev_error] ∧
   newclient (state_after hello error_first_init)
   = N_returned false (Some ErrHelloNotReceived) ∧
   conn_closed (state_after hello error_first_init) = false ∧
   ∀ sched s', sample_run sched (state_after hello error_first_init) = Some s' →
               conn_closed s' = false) ∧
  (sample_run read_one eof_first_init = Some (state_after read_one eof_first_init) ∧
   pushed (trace (state_after read_one eof_first_init)) = [] ∧
   reader (state_after read_one eof_first_init) = R_shutdown ∧
   ∀ sched s', sample_run sched (state_after read_one eof_first_init) = Some s' →
               newclient s' = N_recv).
Proof.
  split; split_and!; try by_running.
  - intros sched s'.
    apply (conn_left_open sample_decodeEvent sample_IsStart sched
             (state_after hello error_first_init) s' (Some ErrHelloNotReceived)); by_running.
  - intros sched s'.
    apply (NewClient_blocked_forever sample_decodeEvent sample_IsStart sched
             (state_after read_one eof_first_init) s');
      try by_running.
    left. by_running.
Qed.

(** C2 on a first event ERROR: at the receive, and once [NewClient] has
    returned. *)
Lemma C2_witness :
  (newclient (state_after read_one error_first_init) = N_recv ∧
   buf (events (state_after read_one error_first_init)) = [ev_error] ∧
   (Keyword ev_error ≠ "AGTSTART" ∨ sample_IsStart ev_error = false) ∧
   ∃ s', step sample_decodeEvent sample_IsStart RunNewClient
           (state_after read_one error_first_init) = Some s' ∧
     newclient s' = N_returned false (Some ErrHelloNotReceived) ∧
     client_ready s' = false ∧
     trace s' = trace (state_after read_one error_first_init)
                ++ [LHandshake ev_error; LLog log_no_hello]) ∧
  (reachable sample_decodeEvent sample_IsStart (state_after hello error_first_init) ∧
   newclient (state_after hello error_first_init)
   = N_returned false (Some ErrHelloNotReceived) ∧
   ∃ first rest,
     pushed (trace (state_after hello error_first_init)) = first :: rest ∧
     handshaken (trace (state_after hello error_first_init)) = [first] ∧
     (Keyword first ≠ "AGTSTART" ∨ sample_IsStart first = false →
      false = false ∧ Some ErrHelloNotReceived = Some ErrHelloNotReceived ∧
      client_ready (state_after hello error_first_init) = false)).
Proof.
  assert (newclient (state_after read_one error_first_init) = N_recv) as Hn by by_running.
  assert (buf (events (state_after read_one error_first_init)) = [ev_error]) as Hb
    by by_running.
  assert (Keyword ev_error ≠ "AGTSTART" ∨ sample_IsStart ev_error = false) as Hbad
    by (right; by_running).
  assert (reachable sample_decodeEvent sample_IsStart (state_after hello error_first_init))
    as Hr
    by reached_by no_timeout (@nil (option error)) [@inl (list byte) error rec_error] hello.
  assert (newclient (state_after hello error_first_init)
          = N_returned false (Some ErrHelloNotReceived)) as Hn' by by_running.
  split.
  - split; [exact Hn|]. split; [exact Hb|]. split; [exact Hbad|].
    exact (proj1 (NewClient_handshake_failure sample_decodeEvent sample_IsStart
                    (state_after read_one error_first_init)) ev_error [] Hn Hb Hbad).
  - split; [exact Hr|]. split; [exact Hn'|].
    exact (proj2 (NewClient_handshake_failure sample_decodeEvent sample_IsStart
                    (state_after hello error_first_init))
             Hr false (Some ErrHelloNotReceived) Hn').
Defined.

(** C3, the code at the failing interleaving: a command passes the check of
    the Connection State, a [Stop] arrives and [Start] runs its whole shutdown
    branch over the table as it is, empty, and returns; the command then
    registers.  Its request is in the table, no signal was sent on any [done],
    and the invocation stays blocked whatever happens next. *)
Theorem shutdown_misses_concurrent_registration :
  sample_run late_sched late_init = Some (state_after late_sched late_init) ∧
  start (state_after late_sched late_init) = S_returned ErrConnectionClosed ∧
  state (state_after late_sched late_init) = ConnClosed ∧
  drop 4 (trace (state_after late_sched late_init))
  = [LShutdown FromStop; LStore ConnClosed; LConnClose; LCloseNotification; LCloseEvents;
     LReturn ErrConnectionClosed; LRegister 7] ∧
  requests (state_after late_sched late_init) !! 7 = Some (new_request 7) ∧
  invokers (state_after late_sched late_init) !! 7 = Some I_wait ∧
  done_sent (trace (state_after late_sched late_init)) = [] ∧
  ∀ sched s', sample_run sched (state_after late_sched late_init) = Some s' →
              invokers s' !! 7 = Some I_wait.
Proof.
  split_and!; try by_running.
  intros sched s' Hrun.
  apply (blocked_after_return sample_decodeEvent sample_IsStart sched
           (state_after late_sched late_init) s' 7 ErrConnectionClosed);
    [by_running|by_running|exact Hrun].
Qed.

(** C4 on a record split over two reads: the first chunk is dropped. *)
Lemma C4_witness :
  reader (state_after [RunReader] split_init) = R_read ∧
  reads (state_after [RunReader] split_init) = [inl [x52; x41]; inl [x42; ETX]] ∧
  last (take buf_size [x52; x41]) = Some x41 ∧
  is_terminator x41 = false ∧
  ∀ sched,
    run sample_decodeEvent sample_IsStart (RunReader :: RunReader :: sched)
      (state_after [RunReader] split_init)
    = run sample_decodeEvent sample_IsStart sched
        (set_reads (after_read [x52; x41] [inl [x42; ETX]])
           (state_after [RunReader] split_init)).
Proof.
  assert (reader (state_after [RunReader] split_init) = R_read) as Hpc by by_running.
  assert (reads (state_after [RunReader] split_init) = [inl [x52; x41]; inl [x42; ETX]])
    as Hr by by_running.
  assert (last (take buf_size [x52; x41]) = Some x41) as Hb by by_running.
  assert (is_terminator x41 = false) as Ht by by_running.
  assert (deadlines (state_after [RunReader] split_init) = []) as Hd by by_running.
  split; [exact Hpc|]. split; [exact Hr|]. split; [exact Hb|]. split; [exact Ht|].
  exact (proj2 (proj2 (readEvents_complete_iff_terminated sample_decodeEvent sample_IsStart
                         _ _ _ _ Hpc Hr Hb)) Ht Hd).
Defined.

(** C5 on a malformed record followed by a call notification. *)
Lemma C5_witness :
  reader (state_after [RunReader] malformed_init) = R_read ∧
  reads (state_after [RunReader] malformed_init) = [inl rec_malformed; inl rec_callnotify] ∧
  last (take buf_size rec_malformed) = Some ETB ∧
  is_terminator ETB = true ∧
  sample_decodeEvent (string_of_list_byte (take buf_size rec_malformed))
  = inr (ErrOther "cannot decode") ∧
  ∃ s', run sample_decodeEvent sample_IsStart (replicate 5 RunReader)
          (init no_timeout [] [inl rec_malformed; inl rec_callnotify]) = Some s' ∧
    reader s' = R_deadline ∧
    decode_failures (trace s') = [log_decode_failed (ErrOther "cannot decode")] ∧
    pushed (trace s') = [ev_callnotify] ∧
    buf (events s') = [ev_callnotify] ∧
    reads s' = [].
Proof.
  assert (reader (state_after [RunReader] malformed_init) = R_read) as Hpc by by_running.
  assert (reads (state_after [RunReader] malformed_init)
          = [inl rec_malformed; inl rec_callnotify]) as Hr by by_running.
  assert (last (take buf_size rec_malformed) = Some ETB) as Hb by by_running.
  assert (is_terminator ETB = true) as Ht by by_running.
  assert (sample_decodeEvent (string_of_list_byte (take buf_size rec_malformed))
          = inr (ErrOther "cannot decode")) as Hd by by_running.
  split; [exact Hpc|]. split; [exact Hr|]. split; [exact Hb|]. split; [exact Ht|].
  assert (length rec_malformed ≤ buf_size)%nat as Hl by (apply Nat.leb_le; by_running).
  assert (length rec_callnotify ≤ buf_size)%nat as Hl' by (apply Nat.leb_le; by_running).
  assert (last rec_callnotify = Some ETX) as Hb' by by_running.
  assert (is_terminator ETX = true) as Ht' by by_running.
  assert (sample_decodeEvent (string_of_list_byte rec_callnotify) = inl ev_callnotify) as Hd'
    by by_running.
  split; [exact Hd|].
  exact (proj2 (readEvents_decode_failure_skipped sample_decodeEvent sample_IsStart
                  _ _ _ _ _ Hpc Hr Hb Ht Hd)
           no_timeout rec_callnotify ETX ev_callnotify Hl Hl' Hb' Ht' Hd').
Defined.

(** C6, against the shutdown after every failure: on a stream that fails at
    once [readEvents] returns [EOF], the reader goroutine logs it and offers
    its signal; no Session Loop exists, [NewClient] is still at its receive,
    and in every continuation the state is [ConnOK], the connection is open
    and [Start] has neither been called nor returned anything. *)
Lemma C6_counterexample :
  sample_run read_one eof_first_init = Some (state_after read_one eof_first_init) ∧
  reader (state_after [RunReader; RunReader] eof_first_init) = R_failed EOF ∧
  reader (state_after read_one eof_first_init) = R_shutdown ∧
  logged (trace (state_after read_one eof_first_init)) = [log_reader_failed EOF] ∧
  ∀ sched s', sample_run sched (state_after read_one eof_first_init) = Some s' →
    reader s' = R_shutdown ∧ newclient s' = N_recv ∧ start s' = S_idle ∧
    state s' = ConnOK ∧ conn_closed s' = false ∧
    closed (notification s') = false ∧ closed (events s') = false ∧
    returned (trace s') = [].
Proof.
  split_and!; try by_running.
  intros sched s' Hrun.
  assert (reachable sample_decodeEvent sample_IsStart (state_after read_one eof_first_init))
    as Hr by reached_by no_timeout (@nil (option error)) [@inr (list byte) error EOF] read_one.
  pose proof (reachable_run sample_decodeEvent sample_IsStart _ _ _ Hr Hrun) as Hr'.
  assert (reader (state_after read_one eof_first_init) = R_shutdown) as Hpc by by_running.
  destruct (failure_before_hello_unheard sample_decodeEvent sample_IsStart sched
              (state_after read_one eof_first_init) s')
    as (A & B & _ & C & D & E & F & G); [by_running|by_running|by_running|by left|exact Hrun|].
  rewrite D, E, F, G.
  rewrite (returned_reachable sample_decodeEvent sample_IsStart s' Hr'), B.
  split_and!; try done; try by_running. by apply C.
Qed.

(** C6 on a session whose stream times out while a command waits. *)
Lemma C6_witness :
  reachable sample_decodeEvent sample_IsStart (state_after timeout_sched session_init) ∧
  reader (state_after timeout_sched session_init) = R_failed ErrTimeout ∧
  start (state_after timeout_sched session_init) = S_select ∧
  ∃ ks s',
    run sample_decodeEvent sample_IsStart
      ([RunReader; Select FromReader]
       ++ replicate (2 * size (requests (state_after timeout_sched session_init)) + 5) RunStart)
      (state_after timeout_sched session_init) = Some s' ∧
    reader s' = R_exit ∧
    start s' = S_returned ErrConnectionClosed ∧
    state s' = ConnClosed ∧ conn_closed s' = true ∧
    closed (notification s') = true ∧ closed (events s') = true ∧
    trace s' = trace (state_after timeout_sched session_init)
               ++ [LLog (log_reader_failed ErrTimeout); LShutdown FromReader]
               ++ shutdown_labels ks ∧
    ks ≡ₚ (map_to_list (requests (state_after timeout_sched session_init))).*1 ∧
    ∀ k, invokers (state_after timeout_sched session_init) !! k = Some I_wait →
         invokers s' !! k = Some (I_finished (inr ErrConnectionClosed)).
Proof.
  assert (reachable sample_decodeEvent sample_IsStart (state_after timeout_sched session_init))
    as Hr
    by reached_by with_timeout (@nil (option error))
         [inl rec_agtstart; inl rec_callnotify; @inr (list byte) error ErrTimeout]
         timeout_sched.
  assert (reader (state_after timeout_sched session_init) = R_failed ErrTimeout) as Hpc
    by by_running.
  assert (start (state_after timeout_sched session_init) = S_select) as Hst by by_running.
  split; [exact Hr|]. split; [exact Hpc|]. split; [exact Hst|].
  exact (proj1 (proj2 (proj2 (io_failure_shuts_down sample_decodeEvent sample_IsStart
                                (state_after timeout_sched session_init) ErrTimeout)))
           Hr Hpc Hst).
Defined.

(** C7 on a session with a call notification in the queue. *)
Lemma C7_witness :
  reachable sample_decodeEvent sample_IsStart (state_after session_sched session_init) ∧
  start (state_after session_sched session_init) = S_select ∧
  buf (events (state_after session_sched session_init)) = [ev_callnotify] ∧
  Type' ev_callnotify = EventTypeNotification ∧
  ∃ s1, step sample_decodeEvent sample_IsStart (Select FromEvents)
          (state_after session_sched session_init) = Some s1 ∧
    s1 = set_start (S_notify ev_callnotify)
           (emit (LRecv ev_callnotify)
              (set_events (pop (events (state_after session_sched session_init)))
                 (state_after session_sched session_init))) ∧
    (∀ c, step sample_decodeEvent sample_IsStart (Select c) s1 = None) ∧
    (step sample_decodeEvent sample_IsStart RunStart s1
     = if decide (length (buf (notification (state_after session_sched session_init)))
                  < chan_cap)%nat
       then Some (set_start S_select
                    (emit (LNotify ev_callnotify)
                       (set_notification
                          (push ev_callnotify
                             (notification (state_after session_sched session_init))) s1)))
       else None) ∧
    filter (λ ev, Type' ev = EventTypeNotification) (received (trace s1))
    = notified (trace s1) ++ [ev_callnotify] ∧
    Forall (λ ev, Type' ev ≠ EventTypeNotification) (delivered (trace s1)).
Proof.
  assert (reachable sample_decodeEvent sample_IsStart (state_after session_sched session_init))
    as Hr
    by reached_by with_timeout (@nil (option error))
         [inl rec_agtstart; inl rec_callnotify; @inr (list byte) error ErrTimeout]
         session_sched.
  assert (start (state_after session_sched session_init) = S_select) as Hst by by_running.
  assert (buf (events (state_after session_sched session_init)) = [ev_callnotify]) as Hb
    by by_running.
  assert (Type' ev_callnotify = EventTypeNotification) as Ht by reflexivity.
  split; [exact Hr|]. split; [exact Hst|]. split; [exact Hb|]. split; [exact Ht|].
  exact (notification_forwarded_unmatched sample_decodeEvent sample_IsStart
           (state_after session_sched session_init) ev_callnotify [] Hr Hst Hb Ht).
Defined.

(** C8, the code at the failing interleaving: a command has passed the
    check of the Connection State, a [Stop] has arrived and [Start] has
    returned, so the state is [ConnClosed] and the table is empty; the
    command then registers its request, with the state still [ConnClosed],
    and blocks on it whatever happens next: a command newly registered once
    the state is Closed, which never gets the closed-connection error. *)
Theorem registration_after_close :
  sample_run checked_sched late_init = Some (state_after checked_sched late_init) ∧
  state (state_after checked_sched late_init) = ConnClosed ∧
  start (state_after checked_sched late_init) = S_returned ErrConnectionClosed ∧
  requests (state_after checked_sched late_init) !! 7 = None ∧
  sample_run [RunInvoker 7] (state_after checked_sched late_init)
  = Some (state_after late_sched late_init) ∧
  state (state_after late_sched late_init) = ConnClosed ∧
  requests (state_after late_sched late_init) !! 7 = Some (new_request 7) ∧
  trace (state_after late_sched late_init)
  = trace (state_after checked_sched late_init) ++ [LRegister 7] ∧
  ∀ sched s', sample_run sched (state_after late_sched late_init) = Some s' →
              state s' = ConnClosed ∧ invokers s' !! 7 = Some I_wait.
Proof.
  split_and!; try by_running.
  intros sched s' Hrun. split.
  - assert (state (state_after late_sched late_init) = ConnClosed) as Hc by by_running.
    exact (closed_state_stays sample_decodeEvent sample_IsStart sched
             (state_after late_sched late_init) s' Hc Hrun).
  - apply (blocked_after_return sample_decodeEvent sample_IsStart sched
             (state_after late_sched late_init) s' 7 ErrConnectionClosed);
      [by_running|by_running|exact Hrun].
Qed.

(** A client that was stopped: a command issued then is refused. *)
Lemma refused_on_stopped_client :
  reachable sample_decodeEvent sample_IsStart (state_after late_sched late_init) ∧
  state (state_after late_sched late_init) = ConnClosed ∧
  invokers (state_after late_sched late_init) !! 9 ≠ Some I_checked ∧
  invokers (state_after late_sched late_init) !! 9 ≠ Some I_wait ∧
  ∃ s', step sample_decodeEvent sample_IsStart (CallInvoke 9)
          (state_after late_sched late_init) = Some s' ∧
    invokers s' !! 9 = Some (I_finished (inr ErrConnectionClosed)) ∧
    requests s' = requests (state_after late_sched late_init) ∧
    trace s' = trace (state_after late_sched late_init) ++ [LRefused 9] ∧
    ∀ sched s'', run sample_decodeEvent sample_IsStart sched s' = Some s'' →
      requests s'' !! 9 = None ∧ ∃ res, invokers s'' !! 9 = Some (I_finished res).
Proof.
  assert (reachable sample_decodeEvent sample_IsStart (state_after late_sched late_init))
    as Hr
    by reached_by no_timeout (@nil (option error)) [@inl (list byte) error rec_agtstart]
         late_sched.
  assert (state (state_after late_sched late_init) = ConnClosed) as Hc by by_running.
  assert (invokers (state_after late_sched late_init) !! 9 ≠ Some I_checked) as Hk1
    by (vm_compute; discriminate).
  assert (invokers (state_after late_sched late_init) !! 9 ≠ Some I_wait) as Hk2
    by (vm_compute; discriminate).
  split; [exact Hr|]. split; [exact Hc|]. split; [exact Hk1|]. split; [exact Hk2|].
  exact (proj2 (proj2 (proj2 (connection_state_one_way sample_decodeEvent sample_IsStart
                                (state_after late_sched late_init) Hr)) Hc) 9 Hk1 Hk2).
Defined.

(** C9 on a client that was stopped. *)
Lemma C9_witness :
  reachable sample_decodeEvent sample_IsStart (state_after stopped_sched late_init) ∧
  start (state_after stopped_sched late_init) = S_returned ErrConnectionClosed ∧
  ErrConnectionClosed = ErrConnectionClosed.
Proof.
  assert (reachable sample_decodeEvent sample_IsStart (state_after stopped_sched late_init))
    as Hr
    by reached_by no_timeout (@nil (option error)) [@inl (list byte) error rec_agtstart]
         stopped_sched.
  assert (start (state_after stopped_sched late_init) = S_returned ErrConnectionClosed)
    as Hpc by by_running.
  split; [exact Hr|]. split; [exact Hpc|].
  exact (proj1 (Start_returns_ErrConnectionClosed sample_decodeEvent sample_IsStart
                  (state_after stopped_sched late_init) Hr) ErrConnectionClosed Hpc).
Defined.

(** C10 on a session whose subscriber got the call notification. *)
Lemma C10_witness :
  reachable sample_decodeEvent sample_IsStart (state_after notified_sched session_init) ∧
  client_ready (state_after notified_sched session_init) = true ∧
  ∃ first rest,
    pushed (trace (state_after notified_sched session_init)) = first :: rest ∧
    handshaken (trace (state_after notified_sched session_init)) = [first] ∧
    Keyword first = "AGTSTART" ∧ sample_IsStart first = true ∧
    hello_first (trace (state_after notified_sched session_init)) = true ∧
    received (trace (state_after notified_sched session_init)) `prefix_of` rest ∧
    notified (trace (state_after notified_sched session_init))
      `prefix_of` filter (λ ev, Type' ev = EventTypeNotification) rest ∧
    consumed (trace (state_after notified_sched session_init))
      `prefix_of` notified (trace (state_after notified_sched session_init)).
Proof.
  assert (reachable sample_decodeEvent sample_IsStart (state_after notified_sched session_init))
    as Hr
    by reached_by with_timeout (@nil (option error))
         [inl rec_agtstart; inl rec_callnotify; @inr (list byte) error ErrTimeout]
         notified_sched.
  assert (client_ready (state_after notified_sched session_init) = true) as Hc by by_running.
  split; [exact Hr|]. split; [exact Hc|].
  exact (handshake_event_not_forwarded sample_decodeEvent sample_IsStart
           (state_after notified_sched session_init) Hr Hc).
Defined.

(** The session of [notified_sched]: the subscriber got the call
    notification and never the AGTSTART event. *)
Example session_notifications :
  pushed (trace (state_after notified_sched session_init)) = [ev_agtstart; ev_callnotify] ∧
  handshaken (trace (state_after notified_sched session_init)) = [ev_agtstart] ∧
  notified (trace (state_after notified_sched session_init)) = [ev_callnotify] ∧
  consumed (trace (state_after notified_sched session_init)) = [ev_callnotify].
Proof. split_and!; by_running. Qed.

(** A record of two chunks: only the second chunk reaches the decoder, so
    the event is decoded from the tail of the record alone. *)
Example split_record_not_reassembled :
  logged (trace (state_after (replicate 5 RunReader) split_init))
  = [log_received (string_of_list_byte [x42; ETX]);
     log_decode_failed (ErrOther "cannot decode")].
Proof. by_running. Qed.

(** X1 and X2 on the session whose subscriber got the call notification. *)
Lemma readEvents_queues_the_frames_witness :
  run sample_decodeEvent sample_IsStart notified_sched session_init
  = Some (state_after notified_sched session_init) ∧
  pushed (trace (state_after notified_sched session_init))
    `prefix_of` expected sample_decodeEvent
                  [inl rec_agtstart; inl rec_callnotify; inr ErrTimeout].
Proof.
  assert (run sample_decodeEvent sample_IsStart notified_sched session_init
          = Some (state_after notified_sched session_init)) as Hr by by_running.
  split; [exact Hr|].
  exact (proj1 (readEvents_queues_the_frames sample_decodeEvent sample_IsStart
                  with_timeout [] [inl rec_agtstart; inl rec_callnotify; inr ErrTimeout]
                  notified_sched _ Hr)).
Defined.

Lemma subscribers_get_stream_notifications_witness :
  run sample_decodeEvent sample_IsStart notified_sched session_init
  = Some (state_after notified_sched session_init) ∧
  consumed (trace (state_after notified_sched session_init))
    `prefix_of` filter (λ ev, Type' ev = EventTypeNotification)
                  (tail (expected sample_decodeEvent
                           [inl rec_agtstart; inl rec_callnotify; inr ErrTimeout])).
Proof.
  assert (run sample_decodeEvent sample_IsStart notified_sched session_init
          = Some (state_after notified_sched session_init)) as Hr by by_running.
  split; [exact Hr|].
  exact (proj2 (proj2 (proj2 (subscribers_get_stream_notifications
                                sample_decodeEvent sample_IsStart
                                with_timeout []
                                [inl rec_agtstart; inl rec_callnotify; inr ErrTimeout]
                                notified_sched _ Hr)))).
Defined.

(** The stream of the session gives the two events, and the subscriber is
    due the second. *)
Example session_stream :
  expected sample_decodeEvent [inl rec_agtstart; inl rec_callnotify; inr ErrTimeout]
  = [ev_agtstart; ev_callnotify].
Proof. by_running. Qed.

(** X3 on the session with its notification forwarded. *)
Lemma channels_within_capacity_witness :
  reachable sample_decodeEvent sample_IsStart (state_after forwarded_sched session_init) ∧
  (length (buf (events (state_after forwarded_sched session_init))) ≤ chan_cap)%nat ∧
  (length (buf (notification (state_after forwarded_sched session_init))) ≤ chan_cap)%nat.
Proof.
  assert (reachable sample_decodeEvent sample_IsStart
            (state_after forwarded_sched session_init)) as Hr
    by reached_by with_timeout (@nil (option error))
         [inl rec_agtstart; inl rec_callnotify; @inr (list byte) error ErrTimeout]
         forwarded_sched.
  split; [exact Hr|].
  exact (channels_within_capacity sample_decodeEvent sample_IsStart _ Hr).
Defined.

(** X4 and X5 on a client that was stopped. *)
Lemma shutdown_runs_once_in_order_witness :
  reachable sample_decodeEvent sample_IsStart (state_after stopped_sched late_init) ∧
  ∃ c ks, c ≠ FromEvents ∧ NoDup ks ∧
    shutdown_view (trace (state_after stopped_sched late_init))
      `prefix_of` LShutdown c :: shutdown_labels ks ∧
    (shutdown_view (trace (state_after stopped_sched late_init)) = []
     ↔ left_select (start (state_after stopped_sched late_init)) = false) ∧
    (∀ e, start (state_after stopped_sched late_init) = S_returned e →
       shutdown_view (trace (state_after stopped_sched late_init))
       = LShutdown c :: shutdown_labels ks).
Proof.
  assert (reachable sample_decodeEvent sample_IsStart (state_after stopped_sched late_init))
    as Hr
    by reached_by no_timeout (@nil (option error)) [@inl (list byte) error rec_agtstart]
         stopped_sched.
  split; [exact Hr|].
  exact (shutdown_runs_once_in_order sample_decodeEvent sample_IsStart _ Hr).
Defined.

Example stopped_shutdown_view :
  shutdown_view (trace (state_after stopped_sched late_init))
  = LShutdown FromStop :: shutdown_labels [].
Proof. by_running. Qed.

Lemma shutdown_flags_ordered_witness :
  reachable sample_decodeEvent sample_IsStart (state_after stopped_sched late_init) ∧
  (closed (notification (state_after stopped_sched late_init)) = true →
   conn_closed (state_after stopped_sched late_init) = true).
Proof.
  assert (reachable sample_decodeEvent sample_IsStart (state_after stopped_sched late_init))
    as Hr
    by reached_by no_timeout (@nil (option error)) [@inl (list byte) error rec_agtstart]
         stopped_sched.
  split; [exact Hr|].
  exact (proj1 (proj2 (shutdown_flags_ordered sample_decodeEvent sample_IsStart _ Hr))).
Defined.

(** X6 on a client that was stopped: two more [Stop] calls stay blocked. *)
Lemma Stop_after_shutdown_blocks_witness :
  left_select (start (state_after stopped_sched late_init)) = true ∧
  run sample_decodeEvent sample_IsStart [CallStop; CallStop]
    (state_after stopped_sched late_init)
  = Some (state_after (stopped_sched ++ [CallStop; CallStop]) late_init) ∧
  left_select (start (state_after (stopped_sched ++ [CallStop; CallStop]) late_init)) = true ∧
  stops (state_after (stopped_sched ++ [CallStop; CallStop]) late_init)
  = (stops (state_after stopped_sched late_init) + stop_calls [CallStop; CallStop])%nat.
Proof.
  assert (left_select (start (state_after stopped_sched late_init)) = true) as Hl
    by by_running.
  assert (run sample_decodeEvent sample_IsStart [CallStop; CallStop]
            (state_after stopped_sched late_init)
          = Some (state_after (stopped_sched ++ [CallStop; CallStop]) late_init)) as Hrun
    by by_running.
  split; [exact Hl|]. split; [exact Hrun|].
  pose proof (Stop_after_shutdown_blocks sample_decodeEvent sample_IsStart
                [CallStop; CallStop] _ _ Hl Hrun) as (A & B & _).
  split; [exact A|exact B].
Defined.

Example stops_blocked_after_shutdown :
  stops (state_after (stopped_sched ++ [CallStop; CallStop]) late_init) = 2%nat.
Proof. by_running. Qed.

(** X7 on a client that was stopped, the reader and a late [Stop] going on. *)
Lemma nothing_processed_after_return_witness :
  reachable sample_decodeEvent sample_IsStart (state_after stopped_sched late_init) ∧
  start (state_after stopped_sched late_init) = S_returned ErrConnectionClosed ∧
  run sample_decodeEvent sample_IsStart [RunReader; CallStop]
    (state_after stopped_sched late_init)
  = Some (state_after (stopped_sched ++ [RunReader; CallStop]) late_init) ∧
  start (state_after (stopped_sched ++ [RunReader; CallStop]) late_init)
  = S_returned ErrConnectionClosed ∧
  events (state_after (stopped_sched ++ [RunReader; CallStop]) late_init)
  = events (state_after stopped_sched late_init).
Proof.
  assert (reachable sample_decodeEvent sample_IsStart (state_after stopped_sched late_init))
    as Hr
    by reached_by no_timeout (@nil (option error)) [@inl (list byte) error rec_agtstart]
         stopped_sched.
  assert (start (state_after stopped_sched late_init) = S_returned ErrConnectionClosed)
    as Hpc by by_running.
  assert (run sample_decodeEvent sample_IsStart [RunReader; CallStop]
            (state_after stopped_sched late_init)
          = Some (state_after (stopped_sched ++ [RunReader; CallStop]) late_init)) as Hrun
    by by_running.
  split; [exact Hr|]. split; [exact Hpc|]. split; [exact Hrun|].
  pose proof (nothing_processed_after_return sample_decodeEvent sample_IsStart
                [RunReader; CallStop] _ _ _ Hr Hpc Hrun) as (A & _ & B & _).
  split; [exact A|exact B].
Defined.

(** X8 on the session: the reader holds the call notification when the
    client is stopped. *)
Lemma reader_panics_on_closed_queue_witness :
  reachable sample_decodeEvent sample_IsStart (state_after in_hand_sched session_init) ∧
  reader (state_after in_hand_sched session_init) = R_send ev_callnotify ∧
  start (state_after in_hand_sched session_init) = S_select ∧
  ∃ s', run sample_decodeEvent sample_IsStart
          ([CallStop; Select FromStop] ++ replicate 4 RunStart ++ [RunReader])
          (state_after in_hand_sched session_init) = Some s' ∧
    reader s' = R_panic ∧
    start s' = S_drain [] ∧
    closed (events s') = true ∧
    buf (events s') = buf (events (state_after in_hand_sched session_init)) ∧
    pushed (trace s') = pushed (trace (state_after in_hand_sched session_init)) ∧
    ∀ sched s'', run sample_decodeEvent sample_IsStart sched s' = Some s'' →
      reader s'' = R_panic ∧
      pushed (trace s'') = pushed (trace (state_after in_hand_sched session_init)).
Proof.
  assert (reachable sample_decodeEvent sample_IsStart
            (state_after in_hand_sched session_init)) as Hr
    by reached_by with_timeout (@nil (option error))
         [inl rec_agtstart; inl rec_callnotify; @inr (list byte) error ErrTimeout]
         in_hand_sched.
  assert (reader (state_after in_hand_sched session_init) = R_send ev_callnotify) as Hpc
    by by_running.
  assert (start (state_after in_hand_sched session_init) = S_select) as Hst by by_running.
  split; [exact Hr|]. split; [exact Hpc|]. split; [exact Hst|].
  exact (reader_panics_on_closed_queue sample_decodeEvent sample_IsStart
           _ ev_callnotify Hr Hpc Hst).
Defined.

(** X9 on the session with its notification forwarded. *)
Lemma subscribers_can_drain_witness :
  reachable sample_decodeEvent sample_IsStart (state_after forwarded_sched session_init) ∧
  client_ready (state_after forwarded_sched session_init) = true ∧
  ∃ s', run sample_decodeEvent sample_IsStart
          (replicate (length (buf (notification (state_after forwarded_sched session_init))))
             RunConsumer)
          (state_after forwarded_sched session_init) = Some s' ∧
    buf (notification s') = [] ∧
    closed (notification s') = closed (notification (state_after forwarded_sched session_init)) ∧
    consumed (trace s') = notified (trace (state_after forwarded_sched session_init)) ∧
    notified (trace s') = notified (trace (state_after forwarded_sched session_init)).
Proof.
  assert (reachable sample_decodeEvent sample_IsStart
            (state_after forwarded_sched session_init)) as Hr
    by reached_by with_timeout (@nil (option error))
         [inl rec_agtstart; inl rec_callnotify; @inr (list byte) error ErrTimeout]
         forwarded_sched.
  assert (client_ready (state_after forwarded_sched session_init) = true) as Hc by by_running.
  split; [exact Hr|]. split; [exact Hc|].
  exact (proj2 (subscribers_can_drain sample_decodeEvent sample_IsStart _ Hr Hc)).
Defined.

(** X10 on a stream whose second read is empty: the reader panics while
    [c.events] is open. *)
Lemma reader_panic_causes_witness :
  run sample_decodeEvent sample_IsStart in_hand_sched empty_read_init
  = Some (state_after in_hand_sched empty_read_init) ∧
  reader (state_after in_hand_sched empty_read_init) = R_panic ∧
  (closed (events (state_after in_hand_sched empty_read_init)) = true
   ∨ inl [] ∈ [inl rec_agtstart; @inl (list byte) error []]).
Proof.
  assert (run sample_decodeEvent sample_IsStart in_hand_sched empty_read_init
          = Some (state_after in_hand_sched empty_read_init)) as Hr by by_running.
  assert (reader (state_after in_hand_sched empty_read_init) = R_panic) as Hpc by by_running.
  split; [exact Hr|]. split; [exact Hpc|].
  exact (proj1 (reader_panic_causes sample_decodeEvent sample_IsStart
                  no_timeout [] [inl rec_agtstart; inl []] in_hand_sched _ Hr) Hpc).
Defined.

(** X11 on the session whose stream times out: [readEvents] has returned
    the timeout, and the next step of the goroutine logs the timeout. *)
Lemma readEvents_returns_connection_error_witness :
  run sample_decodeEvent sample_IsStart timeout_sched session_init
  = Some (state_after timeout_sched session_init) ∧
  reader (state_after timeout_sched session_init) = R_failed ErrTimeout ∧
  (inr ErrTimeout ∈ [inl rec_agtstart; inl rec_callnotify; @inr (list byte) error ErrTimeout]
   ∨ (Timeout with_timeout ≠ None ∧ Some ErrTimeout ∈ @nil (option error))) ∧
  step sample_decodeEvent sample_IsStart RunReader (state_after timeout_sched session_init)
  = Some (set_reader R_shutdown
            (log (log_reader_failed ErrTimeout) (state_after timeout_sched session_init))).
Proof.
  assert (run sample_decodeEvent sample_IsStart timeout_sched session_init
          = Some (state_after timeout_sched session_init)) as Hr by by_running.
  assert (reader (state_after timeout_sched session_init) = R_failed ErrTimeout) as Hpc
    by by_running.
  pose proof (readEvents_returns_connection_error sample_decodeEvent sample_IsStart
                with_timeout [] [inl rec_agtstart; inl rec_callnotify; inr ErrTimeout]
                timeout_sched _ Hr) as (T1 & _ & _ & _ & T5).
  split; [exact Hr|]. split; [exact Hpc|]. split; [exact (T1 ErrTimeout Hpc)|].
  exact (proj1 (T5 ErrTimeout Hpc)).
Defined.

(** X12 on a client made with no option, on a connection whose
    [SetDeadline] would fail. *)
Lemma no_timeout_no_deadline_witness :
  Timeout (NewClient_options LogLevelNone []) = None ∧
  run sample_decodeEvent sample_IsStart hello
    (init (NewClient_options LogLevelNone []) [Some ErrTimeout] [inl rec_agtstart])
  = Some (state_after hello
            (init (NewClient_options LogLevelNone []) [Some ErrTimeout] [inl rec_agtstart])) ∧
  deadlines (state_after hello
               (init (NewClient_options LogLevelNone []) [Some ErrTimeout] [inl rec_agtstart]))
  = [Some ErrTimeout].
Proof.
  assert (Timeout (NewClient_options LogLevelNone []) = None) as Ht by by_running.
  assert (run sample_decodeEvent sample_IsStart hello
            (init (NewClient_options LogLevelNone []) [Some ErrTimeout] [inl rec_agtstart])
          = Some (state_after hello
                    (init (NewClient_options LogLevelNone []) [Some ErrTimeout]
                       [inl rec_agtstart]))) as Hr by by_running.
  split; [exact Ht|]. split; [exact Hr|].
  exact (proj1 (no_timeout_no_deadline sample_decodeEvent sample_IsStart
                  _ _ _ _ _ Ht Hr)).
Defined.

(** X14 on a first event ERROR. *)
Lemma NewClient_returns_client_iff_hello_witness :
  reachable sample_decodeEvent sample_IsStart (state_after hello error_first_init) ∧
  newclient (state_after hello error_first_init)
  = N_returned false (Some ErrHelloNotReceived) ∧
  ∃ first,
    head (pushed (trace (state_after hello error_first_init))) = Some first ∧
    handshaken (trace (state_after hello error_first_init)) = [first] ∧
    ((false = true ∧ Some ErrHelloNotReceived = None)
     ↔ (Keyword first = "AGTSTART" ∧ sample_IsStart first = true)) ∧
    ((false = false ∧ Some ErrHelloNotReceived = Some ErrHelloNotReceived)
     ↔ ¬ (Keyword first = "AGTSTART" ∧ sample_IsStart first = true)) ∧
    entries "Server cannot accept new clients!" (trace (state_after hello error_first_init))
    = [log_no_hello].
Proof.
  assert (reachable sample_decodeEvent sample_IsStart (state_after hello error_first_init))
    as Hr
    by reached_by no_timeout (@nil (option error)) [@inl (list byte) error rec_error] hello.
  assert (newclient (state_after hello error_first_init)
          = N_returned false (Some ErrHelloNotReceived)) as Hn by by_running.
  split; [exact Hr|]. split; [exact Hn|].
  exact (NewClient_returns_client_iff_hello sample_decodeEvent sample_IsStart
           _ false (Some ErrHelloNotReceived) Hr Hn).
Defined.

(** X15 on a malformed record followed by a call notification. *)
Lemma decoded_log_matches_queue_witness :
  reachable sample_decodeEvent sample_IsStart
    (state_after (replicate 5 RunReader) malformed_init) ∧
  (length (entries "Event has received."
             (trace (state_after (replicate 5 RunReader) malformed_init)))
   = length (entries "Event has decoded."
               (trace (state_after (replicate 5 RunReader) malformed_init)))
     + length (entries "Error while decoding an event!"
                 (trace (state_after (replicate 5 RunReader) malformed_init))))%nat.
Proof.
  assert (reachable sample_decodeEvent sample_IsStart
            (state_after (replicate 5 RunReader) malformed_init)) as Hr
    by reached_by no_timeout (@nil (option error))
         [inl rec_malformed; @inl (list byte) error rec_callnotify]
         (replicate 5 RunReader).
  split; [exact Hr|].
  exact (proj1 (decoded_log_matches_queue sample_decodeEvent sample_IsStart _ Hr)).
Defined.

Example malformed_log_counts :
  length (entries "Event has received."
            (trace (state_after (replicate 5 RunReader) malformed_init))) = 2%nat ∧
  entries "Event has decoded." (trace (state_after (replicate 5 RunReader) malformed_init))
  = [log_decoded ev_callnotify].
Proof. split; by_running. Qed.

(** X16 on the stream of 129 call notifications nobody receives. *)
Lemma full_sink_blocks_Start_witness :
  reachable sample_decodeEvent sample_IsStart (state_after flood_sched flood_init) ∧
  start (state_after flood_sched flood_init) = S_notify ev_callnotify ∧
  length (buf (notification (state_after flood_sched flood_init))) = chan_cap ∧
  step sample_decodeEvent sample_IsStart RunStart (state_after flood_sched flood_init) = None ∧
  (∀ c, step sample_decodeEvent sample_IsStart (Select c) (state_after flood_sched flood_init)
        = None).
Proof.
  assert (reachable sample_decodeEvent sample_IsStart (state_after flood_sched flood_init))
    as Hr
    by reached_by no_timeout (@nil (option error))
         (inl rec_agtstart :: replicate 129 (@inl (list byte) error rec_callnotify))
         flood_sched.
  assert (start (state_after flood_sched flood_init) = S_notify ev_callnotify) as Hpc
    by by_running.
  assert (length (buf (notification (state_after flood_sched flood_init))) = chan_cap) as Hl
    by by_running.
  split; [exact Hr|]. split; [exact Hpc|]. split; [exact Hl|].
  pose proof (full_sink_blocks_Start sample_decodeEvent sample_IsStart
                _ ev_callnotify Hr Hpc Hl) as (A & B & _).
  split; [exact A|exact B].
Defined.

(** X17 on the stream of the session. *)
Lemma fair_schedule_delivers_all_witness :
  head (expected sample_decodeEvent
          [inl rec_agtstart; inl rec_callnotify; inr ErrTimeout]) = Some ev_agtstart ∧
  Keyword ev_agtstart = "AGTSTART" ∧
  sample_IsStart ev_agtstart = true ∧
  ∃ sched s,
    run sample_decodeEvent sample_IsStart sched
      (init with_timeout [] [inl rec_agtstart; inl rec_callnotify; inr ErrTimeout]) = Some s ∧
    client_ready s = true ∧ start s = S_select ∧
    handshaken (trace s) = [ev_agtstart] ∧
    pushed (trace s)
    = expected sample_decodeEvent [inl rec_agtstart; inl rec_callnotify; inr ErrTimeout] ∧
    received (trace s)
    = tail (expected sample_decodeEvent
              [inl rec_agtstart; inl rec_callnotify; inr ErrTimeout]) ∧
    consumed (trace s)
    = filter (λ ev, Type' ev = EventTypeNotification)
        (tail (expected sample_decodeEvent
                 [inl rec_agtstart; inl rec_callnotify; inr ErrTimeout])).
Proof.
  assert (head (expected sample_decodeEvent
                  [inl rec_agtstart; inl rec_callnotify; inr ErrTimeout])
          = Some ev_agtstart) as Hh by by_running.
  assert (Keyword ev_agtstart = "AGTSTART") as Hk by reflexivity.
  assert (sample_IsStart ev_agtstart = true) as Hs by by_running.
  split; [exact Hh|]. split; [exact Hk|]. split; [exact Hs|].
  exact (fair_schedule_delivers_all sample_decodeEvent sample_IsStart
           with_timeout [inl rec_agtstart; inl rec_callnotify; inr ErrTimeout]
           ev_agtstart Hh Hk Hs).
Defined.

(** X18 on the stream of 129 call notifications nobody takes from the queue. *)
Lemma full_queue_blocks_reader_witness :
  reader (state_after backlog_sched backlog_init) = R_send ev_callnotify ∧
  closed (events (state_after backlog_sched backlog_init)) = false ∧
  length (buf (events (state_after backlog_sched backlog_init))) = chan_cap ∧
  step sample_decodeEvent sample_IsStart RunReader (state_after backlog_sched backlog_init)
  = None.
Proof.
  assert (reader (state_after backlog_sched backlog_init) = R_send ev_callnotify) as Hpc
    by by_running.
  assert (closed (events (state_after backlog_sched backlog_init)) = false) as Hc
    by by_running.
  assert (length (buf (events (state_after backlog_sched backlog_init))) = chan_cap) as Hl
    by by_running.
  split; [exact Hpc|]. split; [exact Hc|]. split; [exact Hl|].
  exact (proj1 (full_queue_blocks_reader sample_decodeEvent sample_IsStart
                  _ ev_callnotify Hpc Hc Hl)).
Defined.

Example backlog_is_reached :
  sample_run backlog_sched backlog_init = Some (state_after backlog_sched backlog_init) ∧
  reads (state_after backlog_sched backlog_init) = [].
Proof. split; by_running. Qed.
